(** * FSA_to_RegExp: a shallow embedding of [reg_exp_converter.py]

    The development follows the source file top to bottom:
    - [Py]        the Python string and list primitives the program uses;
    - [Exn]       the exception classes, their messages, and the monad of
                  computations that may raise;
    - [Graph]     the classes [Node] and [Graph] over an explicit heap;
    - [Converter] the class [RegularExpressionConverter] and [main];
    - [Regex]     a reader and a semantics for the printed expressions;
    - [Spec]      the notions of the specification the program is compared
                  with, and the invariants the proofs use;
    - [Format]    the input format, as a writer of input files;
    - [Kleene]    the expressions of the construction as trees, and the
                  paths of the automaton they denote;
    - the properties of the program, the claims, and further theorems
      about the program: extraction, validation, the graph, the
      construction and what its expressions denote.

    Strings are byte strings ([string] of [ascii]).  The input is a file
    that can be read, given as the list of the lines that iterating over it
    yields.  The interpreter's recursion limit is not modelled: calls nest as
    deep as the traversal needs. *)

From Stdlib Require Import Ascii String.
From stdpp Require Import base tactics option relations list sets sorting strings.

Local Open Scope stdpp_scope.

#[local] Set Warnings "-clear-no-such-hyp".

(** ** Python primitives *)

Module Py.

(** [sub in s] on strings. *)
Fixpoint contains (sub s : string) : bool :=
  String.prefix sub s ||
  match s with
  | EmptyString => false
  | String _ s' => contains sub s'
  end.

(** [s.split(c)] for a one-character separator [c]: the result is never
    empty, and [''.split(c)] is [['']]. *)
Fixpoint split (c : ascii) (s : string) : list string :=
  match s with
  | EmptyString => [EmptyString]
  | String a s' =>
      if Ascii.eqb a c then EmptyString :: split c s'
      else match split c s' with
           | h :: t => String a h :: t
           | [] => [String a EmptyString]
           end
  end.

(** [s[-1]], [None] standing for [IndexError]. *)
Fixpoint last_char (s : string) : option ascii :=
  match s with
  | EmptyString => None
  | String a EmptyString => Some a
  | String _ s' => last_char s'
  end.

(** [s[:-1]]. *)
Fixpoint drop_last (s : string) : string :=
  match s with
  | EmptyString => EmptyString
  | String _ EmptyString => EmptyString
  | String a s' => String a (drop_last s')
  end.

(** The longest run of characters other than [']'] at the head of [s], and
    what follows it: the greedy [[^\]]+] of the pattern. *)
Fixpoint span_not_rbracket (s : string) : string * string :=
  match s with
  | EmptyString => (EmptyString, EmptyString)
  | String a s' =>
      if Ascii.eqb a "]"%char then (EmptyString, s)
      else let '(run, rest) := span_not_rbracket s' in (String a run, rest)
  end.

(** The pattern [\[([^\]]+)\]] matched at the head of [s]: the group and
    the text after the match.  The run is followed by [']'] or by the end of
    the text, so a shorter run never matches where the longest does not. *)
Definition match_bracket (s : string) : option (string * string) :=
  match s with
  | String "["%char s' =>
      match span_not_rbracket s' with
      | (String a run, String "]"%char rest) => Some (String a run, rest)
      | _ => None
      end
  | _ => None
  end.

(** [re.findall(r'\[([^\]]+)\]', s)]: the groups of the non-overlapping
    matches, leftmost first.  The scan moves on by at least one character per
    round, so [String.length s] rounds always suffice. *)
Fixpoint findall_fuel (fuel : nat) (s : string) : list string :=
  match fuel with
  | O => []
  | S fuel' =>
      match match_bracket s with
      | Some (g, rest) => g :: findall_fuel fuel' rest
      | None =>
          match s with
          | EmptyString => []
          | String _ s' => findall_fuel fuel' s'
          end
      end
  end.

Definition findall (s : string) : list string :=
  findall_fuel (S (String.length s)) s.

(** [sorted(set(l))] on strings: the order of [list(set(l))] is arbitrary,
    the order after [sort()] is not. *)
Definition sorted_set (l : list string) : list string :=
  merge_sort String.le (remove_dups l).

(** [len(l) != len(set(l))]. *)
Definition has_duplicates (l : list string) : bool :=
  negb (Nat.eqb (length l) (length (remove_dups l))).

(** [x in l] on lists of strings. *)
Definition mem (x : string) (l : list string) : bool :=
  bool_decide (x ∈ l).

End Py.

(** ** Exceptions *)

Module Exn.

(** The subclasses of [ConverterException], and the built-in exceptions the
    program can meet: [ValueError] when unpacking [transition.split('>')]
    into three names and the token does not have exactly three fields,
    [IndexError] for a list index out of range, [RecursionError] for calls
    nested too deep. *)
Inductive exn : Type :=
  | InputIsMalformedException
  | InitStateIsNotDefinedException
  | NoAcceptingStatesException
  | InvalidStateException (state : string)
  | InvalidTransitionException (transition : string)
  | DisjointStatesException
  | InvalidFSATypeException
  | ValueError
  | IndexError
  | RecursionError.

(** [isinstance(e, ConverterException)], what the [except] clause of
    [convert] tests. *)
Definition is_converter_exception (e : exn) : bool :=
  match e with
  | ValueError | IndexError | RecursionError => false
  | _ => true
  end.

(** [str(exception)] for a [ConverterException]. *)
Definition message (e : exn) : string :=
  match e with
  | InputIsMalformedException => "E1: Input file is malformed"
  | InitStateIsNotDefinedException => "E2: Initial state is not defined"
  | NoAcceptingStatesException => "E3: Set of accepting states is empty"
  | InvalidStateException state =>
      "E4: A state '" +:+ state +:+ "' is not in the set of states"
  | InvalidTransitionException transition =>
      "E5: A transition '" +:+ transition +:+
      "' is not represented in the alphabet"
  | DisjointStatesException => "E6: Some states are disjoint"
  | InvalidFSATypeException => "E7: FSA is non-deterministic"
  | ValueError => "ValueError"
  | IndexError => "IndexError"
  | RecursionError => "RecursionError"
  end.

Inductive result (A : Type) : Type :=
  | Ok (a : A)
  | Raise (e : exn).
Arguments Ok {A} a.
Arguments Raise {A} e.

Definition bind {A B} (k : A → result B) (m : result A) : result B :=
  match m with
  | Ok a => k a
  | Raise e => Raise e
  end.

Global Instance result_bind : MBind result := @bind.
Global Instance result_ret : MRet result := @Ok.

(** [for x in l: body(x)], the body threading a state and possibly
    raising. *)
Fixpoint for_fold {A S} (l : list A) (body : A → S → result S) (s : S)
  : result S :=
  match l with
  | [] => Ok s
  | x :: l' => s' ← body x s; for_fold l' body s'
  end.

(** The same loop when the body only checks. *)
Definition for_each {A} (l : list A) (body : A → result unit) : result unit :=
  for_fold l (λ x _, body x) ().

End Exn.

Export Exn.

(** ** The reachability graph: classes [Node] and [Graph]

    Node objects are shared: the same object sits in [node_list] and in the
    adjacency lists of other nodes, and its [is_visited] flag is written
    during the traversal.  Objects live in a heap, a reference is the
    position of the object in it. *)

Module Graph.

Abbreviation ref := nat (only parsing).

Record Node : Type := mkNode {
  label : string;
  adjacent_nodes : list ref;
  is_visited : bool
}.

Global Instance Node_inhabited : Inhabited Node := populate (mkNode "" [] false).

Abbreviation heap := (list Node).

(** [Node(label)]: a new object at the end of the heap. *)
Definition Node_new (h : heap) (lbl : string) : heap * ref :=
  (h ++ [mkNode lbl [] false], length h).

Definition getLabel (h : heap) (node : ref) : string := label (h !!! node).
Definition getAdjacentNodes (h : heap) (node : ref) : list ref :=
  adjacent_nodes (h !!! node).
Definition isVisited (h : heap) (node : ref) : bool := is_visited (h !!! node).

Definition setVisited (h : heap) (node : ref) : heap :=
  let n := h !!! node in
  <[node := mkNode (label n) (adjacent_nodes n) true]> h.

(** [Node.addEdge] *)
Definition Node_addEdge (h : heap) (self adjacent_node : ref) : heap :=
  if negb (Py.mem (getLabel h adjacent_node)
                  (getLabel h <$> getAdjacentNodes h self))
  then let n := h !!! self in
       <[self := mkNode (label n) (adjacent_nodes n ++ [adjacent_node])
                        (is_visited n)]> h
  else h.

Record Graph : Type := mkGraph {
  number_of_states : nat;
  node_list : list ref
}.

(** [Graph(number_of_states)] *)
Definition Graph_new (number_of_states : nat) : Graph :=
  mkGraph number_of_states [].

(** [Graph.addNode].  In the second branch the label is among the labels of
    [node_list], so the search loop always returns. *)
Definition addNode (h : heap) (g : Graph) (lbl : string)
  : heap * Graph * ref :=
  if negb (Py.mem lbl (getLabel h <$> node_list g)) then
    let '(h', node) := Node_new h lbl in
    (h', mkGraph (number_of_states g) (node_list g ++ [node]), node)
  else
    (h, g, default 0 (find (λ node, bool_decide (getLabel h node = lbl))
                           (node_list g))).

(** [Graph.addEdge] *)
Definition addEdge (h : heap) (s_node d_node : ref) : heap :=
  Node_addEdge h s_node d_node.

(** [Graph.__depthFirstSearch].  [depth] bounds the nesting of the calls;
    [None] is a traversal that would nest deeper. *)
Fixpoint depthFirstSearch (depth : nat) (h : heap) (node : ref)
    (new_nodes : list ref) : option (heap * list ref) :=
  match depth with
  | O => None
  | S depth' =>
      let new_nodes := new_nodes ++ [node] in
      let h := setVisited h node in
      let adjacentNodes := getAdjacentNodes h node in
      foldl (λ st adjacentNode,
               '(h, new_nodes) ← st;
               if negb (isVisited h adjacentNode)
               then depthFirstSearch depth' h adjacentNode new_nodes
               else Some (h, new_nodes))
            (Some (h, new_nodes)) adjacentNodes
  end.

(** [Graph.isRegular].  Every nested call is on a node not visited before,
    so the calls never nest deeper than the number of objects in the heap
    ([depthFirstSearch_spec] below): the depth granted here is never
    exceeded. *)
Definition isRegular (h : heap) (g : Graph) (init_node : ref) : option bool :=
  '(_, new_nodes) ← depthFirstSearch (length h) h init_node [];
  Some (Nat.eqb (length new_nodes) (number_of_states g)).

(** The number of objects of the heap not yet visited: what bounds the
    nesting of the traversal. *)
Definition unvisited (h : heap) : nat :=
  length (filter (λ r, isVisited h r = false) (seq 0 (length h))).

(** [D] is a set of references into the heap closed under adjacency. *)
Definition closed (D : ref → Prop) (h : heap) : Prop :=
  ∀ r, D r → r < length h ∧ ∀ u, u ∈ getAdjacentNodes h r → D u.

(** The edge relation of the heap. *)
Definition adjacent (h : heap) (r u : ref) : Prop :=
  u ∈ getAdjacentNodes h r.

End Graph.

(** ** The class [RegularExpressionConverter] *)

Module Converter.
Import Graph.

(** The fields [__extract] fills in. *)
Record automaton : Type := mkAutomaton {
  automaton_type : string;
  states : list string;
  alphabet : list string;
  initial_state : string;
  accepting_states : list string;
  transitions : list string
}.

Definition epsilon : string := "eps".
Definition empty_set : string := "{}".

Definition commands : list string :=
  ["type"; "states"; "alphabet"; "initial"; "accepting"; "transitions"].

(** *** [__extract]

    Everything happens inside [try: ... except: raise
    InputIsMalformedException]; [None] is "some exception was raised". *)

Fixpoint read_lines (i : nat) (file : list string)
    (parsed_vals : list (list string)) : option (list (list string)) :=
  match file with
  | [] => Some parsed_vals
  | line :: file' =>
      command ← commands !! i;
      if negb (Py.contains command line) then None
      else read_lines (S i) file' (parsed_vals ++ [Py.findall line])
  end.

(** [parsed_vals[k][0]] *)
Definition field (parsed_vals : list (list string)) (k : nat) : option string :=
  parsed_vals !! k ≫= (.!! 0).

Definition extract_try (file : list string) : option automaton :=
  parsed_vals ← read_lines 0 file [];
  ty ← field parsed_vals 0;
  sts ← field parsed_vals 1;
  alph ← field parsed_vals 2;
  init ← field parsed_vals 3;
  acc ← field parsed_vals 4;
  trs ← field parsed_vals 5;
  Some (mkAutomaton ty
          (Py.sorted_set (Py.split "," sts))
          (Py.split "," alph)
          init
          (Py.split "," acc)
          (Py.split "," trs)).

Definition extract (file : list string) : result automaton :=
  match extract_try file with
  | Some a => Ok a
  | None => Raise InputIsMalformedException
  end.

(** [s_state, s_transition, d_state = transition.split('>')] *)
Definition unpack (transition : string) : result (string * string * string) :=
  match Py.split ">" transition with
  | [s_state; s_transition; d_state] => Ok (s_state, s_transition, d_state)
  | _ => Raise ValueError
  end.

(** *** [__validate], one definition per commented block *)

(** [# Error 1: Input file is malformed] *)
Definition validate_error1 (a : automaton) : result unit :=
  if Py.has_duplicates (transitions a) then Raise InputIsMalformedException
  else Ok ().

(** [# Error 2: Initial state is not defined] *)
Definition validate_error2 (a : automaton) : result unit :=
  if bool_decide (initial_state a = "") then Raise InitStateIsNotDefinedException
  else if negb (Py.mem (initial_state a) (states a))
  then Raise (InvalidStateException (initial_state a))
  else Ok ().

(** [# Error 3: Set of accepting states is empty] *)
Definition validate_error3 (a : automaton) : result unit :=
  match accepting_states a with
  | [] => Raise NoAcceptingStatesException
  | _ => Ok ()
  end.

(** [# Error 4, 5: A state/transition is not in the set of
    states/alphabet]: the loop over the accepting states ... *)
Definition validate_error4 (a : automaton) : result unit :=
  for_each (accepting_states a) (λ state,
    if negb (Py.mem state (states a)) then Raise (InvalidStateException state)
    else Ok ()).

(** ... and the loop over the transitions. *)
Definition validate_error5 (a : automaton) : result unit :=
  for_each (transitions a) (λ transition,
    '(s_state, s_transition, d_state) ← unpack transition;
    if bool_decide (s_state = "") then Raise InputIsMalformedException
    else if negb (Py.mem s_state (states a))
    then Raise (InvalidStateException s_state)
    else if negb (Py.mem d_state (states a))
    then Raise (InvalidStateException d_state)
    else if negb (Py.mem s_transition (alphabet a))
    then Raise (InvalidTransitionException s_transition)
    else Ok ()).

(** [# Error 6: Some states are disjoint]: the graph is built in a heap
    that holds the unlabelled [Node()] first. *)
Definition build_graph (a : automaton) : result (heap * Graph * ref) :=
  let graph := Graph_new (length (states a)) in
  let '(h, init_node) := Node_new [] "" in
  for_fold (transitions a) (λ transition '(h, graph, init_node),
    '(s_state, _, d_state) ← unpack transition;
    let '(h, graph, s_node) := addNode h graph s_state in
    let '(h, graph, d_node) := addNode h graph d_state in
    let h := addEdge h s_node d_node in
    let init_node :=
      if bool_decide (getLabel h s_node = initial_state a) then s_node
      else init_node in
    let init_node :=
      if bool_decide (getLabel h d_node = initial_state a) then d_node
      else init_node in
    Ok (h, graph, init_node))
    (h, graph, init_node).

Definition validate_error6 (a : automaton) : result unit :=
  '(h, graph, init_node) ← build_graph a;
  match isRegular h graph init_node with
  | Some true => Ok ()
  | Some false => Raise DisjointStatesException
  | None => Raise RecursionError
  end.

(** [state_transitions[s_state].append(s_transition)] on a
    [defaultdict(list)], keys in insertion order. *)
Fixpoint dict_append (d : list (string * list string)) (k v : string)
  : list (string * list string) :=
  match d with
  | [] => [(k, [v])]
  | (k', vs) :: d' =>
      if bool_decide (k' = k) then (k', vs ++ [v]) :: d'
      else (k', vs) :: dict_append d' k v
  end.

(** [# Error 7: FSA is non-deterministic] *)
Definition validate_error7 (a : automaton) : result unit :=
  if bool_decide (automaton_type a = "deterministic") then
    state_transitions ← for_fold (transitions a) (λ transition d,
      '(s_state, s_transition, _) ← unpack transition;
      Ok (dict_append d s_state s_transition)) [];
    for_each (state_transitions.*2) (λ transitions,
      if Py.has_duplicates transitions then Raise InvalidFSATypeException
      else Ok ())
  else Ok ().

Definition validate (a : automaton) : result unit :=
  validate_error1 a;;
  validate_error2 a;;
  validate_error3 a;;
  validate_error4 a;;
  validate_error5 a;;
  validate_error6 a;;
  validate_error7 a.

(** *** Matrices of regular expressions

    [__buildInitialRegExp] starts from a matrix of [''], [convert] from a
    matrix of the integer [0]; every cell is assigned a string before it is
    read.  An index out of range raises [IndexError]. *)

Inductive cell : Type :=
  | Zero
  | Str (s : string).

(** How an f-string renders a cell. *)
Definition format (c : cell) : string :=
  match c with
  | Zero => "0"
  | Str s => s
  end.

Abbreviation matrix := (list (list cell)).

(** [[[c for row in range(n)] for column in range(n)]]: the rows are
    distinct lists. *)
Definition new_matrix (n : nat) (c : cell) : matrix :=
  replicate n (replicate n c).

(** The cell at [(i, j)], when there is one. *)
Definition cell_at (m : matrix) (i j : nat) : option cell :=
  m !! i ≫= (.!! j).

(** [m[i][j]] *)
Definition get (m : matrix) (i j : nat) : result cell :=
  match cell_at m i j with
  | Some c => Ok c
  | None => Raise IndexError
  end.

(** [m[i][j] = c] *)
Definition set (m : matrix) (i j : nat) (c : cell) : result matrix :=
  match m !! i with
  | Some row =>
      if bool_decide (j < length row) then Ok (<[i := <[j := c]> row]> m)
      else Raise IndexError
  | None => Raise IndexError
  end.

Definition range (n : nat) : list nat := seq 0 n.
Definition enumerate {A} (l : list A) : list (nat * A) :=
  zip (seq 0 (length l)) l.

(** The body of the two outer loops of [__buildInitialRegExp]: the value of
    the cell for [(i_state, j_state)]. *)
Definition initial_cell (a : automaton) (i_state j_state : string)
  : result string :=
  new_regular_expression ← for_fold (transitions a) (λ transition new,
    '(s_state, s_transition, d_state) ← unpack transition;
    if bool_decide ((s_state, d_state) = (i_state, j_state))
    then Ok (new +:+ s_transition +:+ "|")
    else Ok new) "";
  let new_regular_expression :=
    if bool_decide (i_state = j_state) then new_regular_expression +:+ epsilon
    else new_regular_expression in
  let new_regular_expression :=
    if bool_decide (new_regular_expression = "") then empty_set
    else new_regular_expression in
  last ← from_option Ok (Raise IndexError) (Py.last_char new_regular_expression);
  Ok (if Ascii.eqb last "|"%char then Py.drop_last new_regular_expression
      else new_regular_expression).

(** [__buildInitialRegExp] *)
Definition buildInitialRegExp (a : automaton) : result matrix :=
  for_fold (enumerate (states a)) (λ '(i, i_state) m,
    for_fold (enumerate (states a)) (λ '(j, j_state) m,
      new_regular_expression ← initial_cell a i_state j_state;
      set m i j (Str new_regular_expression)) m)
    (new_matrix (length (states a)) (Str "")).

(** *** [convert], after the [try] block *)

(** One round of the loop over [step]: a new matrix, filled from
    [initial_regular_expression]. *)
Definition kleene_step (n : nat) (initial_regular_expression : matrix)
    (step : nat) : result matrix :=
  for_fold (range n) (λ i regular_expression,
    for_fold (range n) (λ j regular_expression,
      r_i_step ← get initial_regular_expression i step;
      r_step_step ← get initial_regular_expression step step;
      r_step_j ← get initial_regular_expression step j;
      r_i_j ← get initial_regular_expression i j;
      set regular_expression i j
        (Str ("(" +:+ format r_i_step +:+ ")(" +:+ format r_step_step +:+
              ")*(" +:+ format r_step_j +:+ ")|(" +:+ format r_i_j +:+ ")")))
      regular_expression)
    (new_matrix n Zero).

(** The loop over [step], run on the steps in [steps]. *)
Definition kleene_steps (n : nat) (steps : list nat)
    (initial_regular_expression : matrix) : result matrix :=
  for_fold steps (λ step initial_regular_expression,
    kleene_step n initial_regular_expression step)
    initial_regular_expression.

(** The loop that fills [answer] and counts [path]. *)
Definition collect_answer (a : automaton) (m : matrix) : result (string * nat) :=
  for_fold (range (length (states a))) (λ i '(answer, path),
    state ← from_option Ok (Raise IndexError) (states a !! i);
    if Py.mem state (accepting_states a) then
      r ← get m 0 i;
      Ok (answer +:+ "(" +:+ format r +:+ ")|", path + 1)
    else Ok (answer, path))
    ("", 0).

(** Lines 208 to 229 of [convert]. *)
Definition construct (a : automaton) : result string :=
  initial_regular_expression ← buildInitialRegExp a;
  final ← kleene_steps (length (states a)) (range (length (states a)))
             initial_regular_expression;
  '(answer, path) ← collect_answer a final;
  match path with
  | 0 => Ok empty_set
  | _ => Ok (Py.drop_last answer)
  end.

(** *** The process: [convert] and [main]

    [convert] prints, and then returns a string, leaves through [exit()]
    or lets an exception that is not a [ConverterException] escape. *)

Inductive flow (A : Type) : Type :=
  | Return (x : A)
  | SystemExit (code : option Z)
  | Uncaught (e : exn).
Arguments Return {A} x.
Arguments SystemExit {A} code.
Arguments Uncaught {A} e.

(** The [try] block of [convert]. *)
Definition extract_and_validate (file : list string) : result automaton :=
  a ← extract file; validate a;; Ok a.

(** [convert]: what was printed, and how the call ended. *)
Definition convert (file : list string) : list string * flow string :=
  match extract_and_validate file with
  | Raise exception =>
      if is_converter_exception exception
      then ([message exception], SystemExit None)
      else ([], Uncaught exception)
  | Ok a =>
      match construct a with
      | Ok answer => ([], Return answer)
      | Raise e => ([], Uncaught e)
      end
  end.

(** How the process ends: the lines on standard output and the exit
    status.  [exit()] is [SystemExit(None)], status 0; an exception that
    reaches the top level prints a traceback on standard error and gives
    status 1. *)
Record outcome : Type := mkOutcome {
  stdout : list string;
  exit_status : Z;
  traceback : option exn
}.

Definition main (file : list string) : outcome :=
  let '(printed, fl) := convert file in
  match fl with
  | Return answer => mkOutcome (printed ++ [answer]) 0 None
  | SystemExit code => mkOutcome printed (default 0%Z code) None
  | Uncaught e => mkOutcome printed 1 (Some e)
  end.

End Converter.

(** ** Reading the produced expressions

    The program only prints expressions.  To say what language a printed
    string denotes, it is read back with the usual conventions: [|] is
    alternation and binds loosest, juxtaposition is concatenation, a postfix
    [*] binds tightest, parentheses group, [eps] is the empty word, [{}] the
    empty language, and anything else must be a symbol of the alphabet.  A
    word is a list of symbols. *)

Module Regex.

Inductive re : Type :=
  | Empty
  | Eps
  | Sym (a : string)
  | Alt (r1 r2 : re)
  | Cat (r1 r2 : re)
  | Star (r : re).

Inductive token : Type :=
  | TLpar | TRpar | TBar | TStar | TEps | TEmpty
  | TSym (a : string).

(** [strip p s] is what follows the prefix [p] of [s]. *)
Fixpoint strip (p s : string) : option string :=
  match p, s with
  | EmptyString, _ => Some s
  | String a p', String b s' => if Ascii.eqb a b then strip p' s' else None
  | String _ _, EmptyString => None
  end.

Definition fixed_tokens : list (string * token) :=
  [("(", TLpar); (")", TRpar); ("|", TBar); ("*", TStar);
   ("eps", TEps); ("{}", TEmpty)].

(** The first entry of [table] whose non-empty text is a prefix of [s]. *)
Fixpoint first_token (table : list (string * token)) (s : string)
  : option (token * string) :=
  match table with
  | [] => None
  | (text, t) :: table' =>
      match text, strip text s with
      | String _ _, Some rest => Some (t, rest)
      | _, _ => first_token table' s
      end
  end.

Fixpoint tokenize_fuel (fuel : nat) (alphabet : list string) (s : string)
  : option (list token) :=
  match s, fuel with
  | EmptyString, _ => Some []
  | _, O => None
  | _, S fuel' =>
      '(t, rest) ← first_token
                     (fixed_tokens ++ ((λ a, (a, TSym a)) <$> alphabet)) s;
      ts ← tokenize_fuel fuel' alphabet rest;
      Some (t :: ts)
  end.

Definition tokenize (alphabet : list string) (s : string) : option (list token) :=
  tokenize_fuel (String.length s) alphabet s.

(** Postfix stars. *)
Fixpoint stars (r : re) (ts : list token) : re * list token :=
  match ts with
  | TStar :: ts' => stars (Star r) ts'
  | _ => (r, ts)
  end.

Definition starts_factor (ts : list token) : bool :=
  match ts with
  | TLpar :: _ | TEps :: _ | TEmpty :: _ | TSym _ :: _ => true
  | _ => false
  end.

(** Recursive descent: alternations of concatenations of starred atoms. *)
Fixpoint parse_alt (fuel : nat) (ts : list token) : option (re * list token) :=
  match fuel with
  | O => None
  | S fuel' =>
      '(r1, ts1) ← parse_cat fuel' ts;
      match ts1 with
      | TBar :: ts2 =>
          '(r2, ts3) ← parse_alt fuel' ts2; Some (Alt r1 r2, ts3)
      | _ => Some (r1, ts1)
      end
  end
with parse_cat (fuel : nat) (ts : list token) : option (re * list token) :=
  match fuel with
  | O => None
  | S fuel' =>
      '(r1, ts1) ← parse_factor fuel' ts;
      if starts_factor ts1
      then '(r2, ts2) ← parse_cat fuel' ts1; Some (Cat r1 r2, ts2)
      else Some (r1, ts1)
  end
with parse_factor (fuel : nat) (ts : list token) : option (re * list token) :=
  match fuel with
  | O => None
  | S fuel' =>
      match ts with
      | TEps :: ts1 => Some (stars Eps ts1)
      | TEmpty :: ts1 => Some (stars Empty ts1)
      | TSym a :: ts1 => Some (stars (Sym a) ts1)
      | TLpar :: ts1 =>
          match parse_alt fuel' ts1 with
          | Some (r, TRpar :: ts2) => Some (stars r ts2)
          | _ => None
          end
      | _ => None
      end
  end.

(** The expression a string denotes over an alphabet, when it is one. *)
Definition parse (alphabet : list string) (s : string) : option re :=
  ts ← tokenize alphabet s;
  match parse_alt (3 * length ts + 3) ts with
  | Some (r, []) => Some r
  | _ => None
  end.

(** Kleene closure of a language. *)
Inductive star (L : list string → Prop) : list string → Prop :=
  | star_nil : star L []
  | star_app u v : L u → star L v → star L (u ++ v).

(** The language of an expression. *)
Fixpoint lang (r : re) (w : list string) : Prop :=
  match r with
  | Empty => False
  | Eps => w = []
  | Sym a => w = [a]
  | Alt r1 r2 => lang r1 w ∨ lang r2 w
  | Cat r1 r2 => ∃ u v, w = u ++ v ∧ lang r1 u ∧ lang r2 v
  | Star r => star (lang r) w
  end.

End Regex.

(** ** What the specification says, in its own words

    These definitions do not follow the code: they state the data model, the
    formulas and the checks of the specification, to be compared with the
    program, together with the invariants that the proofs carry. *)

Module Spec.
Import Converter.

(** A transition token read as a triple [(source, symbol, dest)]. *)
Definition triple_of (transition : string) : option (string * string * string) :=
  match unpack transition with
  | Ok t => Some t
  | Raise _ => None
  end.

Definition triples (a : automaton) : list (string * string * string) :=
  omap triple_of (transitions a).

(** Every transition token has its three fields. *)
Definition well_formed (a : automaton) : Prop :=
  Forall (λ transition, is_Some (triple_of transition)) (transitions a).

(** The text of cell [(i, j)] of a matrix. *)
Definition cell_text (m : matrix) (i j : nat) : string :=
  from_option format "" (cell_at m i j).

(** The matrix is [n] by [n]. *)
Definition square (n : nat) (m : matrix) : Prop :=
  length m = n ∧ Forall (λ row, length row = n) m.

(** The symbols of the transitions from [si] to [sj], in the order of the
    transitions. *)
Definition symbols_between (a : automaton) (si sj : string) : list string :=
  omap (λ '(s, x, d), if bool_decide (s = si ∧ d = sj) then Some x else None)
       (triples a).

(** Base matrix: the symbols [x] with a transition
    [(states[i], x, states[j])], and epsilon when [i = j]. *)
Definition alternatives (a : automaton) (i j : nat) : list string :=
  match states a !! i, states a !! j with
  | Some si, Some sj =>
      symbols_between a si sj ++ (if bool_decide (i = j) then [epsilon] else [])
  | _, _ => []
  end.

(** What the loop over the transitions has appended: every symbol followed
    by the alternation sign. *)
Fixpoint bars (l : list string) : string :=
  match l with
  | [] => ""
  | x :: l' => x +:+ "|" +:+ bars l'
  end.

(** The alternatives joined with the alternation sign, the empty-language
    marker when there is none. *)
Definition base_cell (a : automaton) (i j : nat) : string :=
  match alternatives a i j with
  | [] => empty_set
  | alts => String.concat "|" alts
  end.

(** The recurrence
    [(R[i][k])(R[k][k])*(R[k][j]) | (R[i][j])] over a previous matrix. *)
Definition recurrence (prev : nat → nat → string) (k i j : nat) : string :=
  "(" +:+ prev i k +:+ ")(" +:+ prev k k +:+ ")*(" +:+ prev k j +:+
  ")|(" +:+ prev i j +:+ ")".

(** Step [k] computed into a brand-new matrix, reading only [prev]. *)
Definition fresh_step (n : nat) (prev : matrix) (k : nat) : matrix :=
  (λ i, (λ j, Str (recurrence (cell_text prev) k i j)) <$> seq 0 n) <$> seq 0 n.

(** The state names that occur in a list of transitions, as source or as
    destination. *)
Definition endpoints (ts : list (string * string * string)) : list string :=
  ts ≫= (λ '(s, _, d), [s; d]).

(** The pairs (source, destination) of a list of transitions, and the edge
    relation they induce on the state names of an automaton. *)
Definition edges (ts : list (string * string * string)) : list (string * string) :=
  (λ '(s, _, d), (s, d)) <$> ts.


(** The labels of the nodes of a graph. *)
Definition labels (h : Graph.heap) (g : Graph.Graph) : list string :=
  Graph.getLabel h <$> Graph.node_list g.

(** What the loop that builds the graph keeps true after the transitions
    [done]: the unlabelled node sits at reference 0 and has no edge, the
    nodes of the graph are the other objects of the heap, one per state name
    met so far, the edges between them are the pairs (source, destination)
    met so far, no flag is set, and [init_node] is the node of the initial
    state once that state was met. *)
Definition graph_inv (a : automaton) (done : list string)
    (st : Graph.heap * Graph.Graph * nat) : Prop :=
  let '(h, g, init_node) := st in
  1 ≤ length h ∧
  Graph.node_list g = seq 1 (length h - 1) ∧
  Graph.number_of_states g = length (states a) ∧
  NoDup (labels h g) ∧
  (∀ l, l ∈ labels h g ↔ l ∈ endpoints (omap triple_of done)) ∧
  (∀ r u, u ∈ Graph.getAdjacentNodes h r → 1 ≤ u < length h) ∧
  (∀ r u, Graph.adjacent h r u →
     (Graph.getLabel h r, Graph.getLabel h u)
       ∈ edges (omap triple_of done)) ∧
  (∀ s d, (s, d) ∈ edges (omap triple_of done) →
     ∃ r u, r ∈ Graph.node_list g ∧ u ∈ Graph.node_list g ∧
       Graph.getLabel h r = s ∧ Graph.getLabel h u = d ∧
       Graph.adjacent h r u) ∧
  Graph.getAdjacentNodes h 0 = [] ∧
  (∀ r, Graph.isVisited h r = false) ∧
  init_node < length h ∧
  (if decide (init_node = 0) then initial_state a ∉ labels h g
   else Graph.getLabel h init_node = initial_state a).

(** The number of nodes the traversal reaches from [init_node]. *)
Definition reached (a : automaton) : option nat :=
  match build_graph a with
  | Ok (h, _, init_node) =>
      '(_, new_nodes) ← Graph.depthFirstSearch (length h) h init_node [];
      Some (length new_nodes)
  | Raise _ => None
  end.

(** The symbols on the transitions that leave [s], in order. *)
Definition out_symbols (ts : list (string * string * string)) (s : string)
  : list string :=
  omap (λ '(s', x, _), if bool_decide (s' = s) then Some x else None) ts.

(** Some state has two transitions with the same symbol. *)
Definition repeated_symbol (a : automaton) : Prop :=
  ∃ i j s x d1 d2, i ≠ j ∧
    triples a !! i = Some (s, x, d1) ∧ triples a !! j = Some (s, x, d2).

(** The same automaton under another declared type. *)
Definition with_type (ty : string) (a : automaton) : automaton :=
  mkAutomaton ty (states a) (alphabet a) (initial_state a)
    (accepting_states a) (transitions a).

(** [state_transitions[k]], the empty list for a key never appended to. *)
Fixpoint dict_get (d : list (string * list string)) (k : string)
  : list string :=
  match d with
  | [] => []
  | (k', vs) :: d' => if bool_decide (k' = k) then vs else dict_get d' k
  end.

(** The alternation, over the accepting state indices [i], of the
    parenthesised cells [m[row][i]]; the empty-language marker when no
    state is accepting. *)
Definition row_parts (a : automaton) (m : matrix) (row : nat) (indices : list nat)
  : list string :=
  omap (λ i, state ← states a !! i;
             if Py.mem state (accepting_states a)
             then Some ("(" +:+ cell_text m row i +:+ ")") else None)
       indices.

Definition alternation_of_row (a : automaton) (m : matrix) (row : nat)
  : string :=
  match row_parts a m row (seq 0 (length (states a))) with
  | [] => empty_set
  | parts => String.concat "|" parts
  end.

(** The position of the initial state in the sorted state order. *)
Definition initial_index (a : automaton) : option nat :=
  fst <$> list_find (λ s, s = initial_state a) (states a).

(** The automaton read as an acceptor: the states reached from the initial
    state along a word, and whether one of them is accepting. *)
Definition step (ts : list (string * string * string)) (qs : list string)
    (x : string) : list string :=
  ts ≫= (λ '(s, y, d), if bool_decide (s ∈ qs ∧ y = x) then [d] else []).

Definition accepts (a : automaton) (w : list string) : bool :=
  existsb (λ q, Py.mem q (accepting_states a))
          (foldl (step (triples a)) [initial_state a] w).

(** The seven checks of the validator, each on its own: what it looks at
    and the error it gives. *)
Inductive verdict : Type :=
  | Pass
  | Fail (e : exn).

(** 1. the transition collection contains exact duplicates *)
Definition check1 (a : automaton) : verdict :=
  if decide (NoDup (transitions a)) then Pass
  else Fail InputIsMalformedException.

(** 2. no initial state declared, or declared and not a state *)
Definition check2 (a : automaton) : verdict :=
  if decide (initial_state a = "") then Fail InitStateIsNotDefinedException
  else if decide (initial_state a ∈ states a) then Pass
  else Fail (InvalidStateException (initial_state a)).

(** 3. empty accepting-state set *)
Definition check3 (a : automaton) : verdict :=
  if decide (accepting_states a = []) then Fail NoAcceptingStatesException
  else Pass.

(** 4. an accepting state that is not a state: the first one *)
Definition check4 (a : automaton) : verdict :=
  match list_find (λ s, s ∉ states a) (accepting_states a) with
  | Some (_, s) => Fail (InvalidStateException s)
  | None => Pass
  end.

(** 5. what is wrong with one transition: the source, then the
    destination, then the symbol; a token without its three fields cannot
    be looked at *)
Definition violation (a : automaton) (transition : string) : option exn :=
  match Py.split ">" transition with
  | [s; x; d] =>
      if decide (s = "") then Some InputIsMalformedException
      else if decide (s ∉ states a) then Some (InvalidStateException s)
      else if decide (d ∉ states a) then Some (InvalidStateException d)
      else if decide (x ∉ alphabet a) then Some (InvalidTransitionException x)
      else None
  | _ => Some ValueError
  end.

(** ... the first violation in the order of the transitions *)
Definition check5 (a : automaton) : verdict :=
  match omap (violation a) (transitions a) with
  | e :: _ => Fail e
  | [] => Pass
  end.

(** 6. the number of nodes reached differs from the number of states *)
Definition check6 (a : automaton) : verdict :=
  match reached a with
  | Some n =>
      if decide (n = length (states a)) then Pass
      else Fail DisjointStatesException
  | None => Pass
  end.

(** 7. declared deterministic, and some source state has a repeated
    outgoing symbol *)
Definition check7 (a : automaton) : verdict :=
  if decide (automaton_type a = "deterministic" ∧
             Exists (λ s, ¬NoDup (out_symbols (triples a) s))
                    (triples a).*1.*1)
  then Fail InvalidFSATypeException
  else Pass.

(** Short-circuit: the error of the first check that fails. *)
Fixpoint first_failure (checks : list verdict) : result unit :=
  match checks with
  | [] => Ok ()
  | Pass :: checks' => first_failure checks'
  | Fail e :: _ => Raise e
  end.

End Spec.

(** ** The input format

    The six lines of an input file, as [__extract] reads them: the keyword,
    then the value between square brackets, the members of a list separated
    by commas.  What follows the closing bracket (the end of the line) is
    not looked at. *)

Module Format.
Import Converter.

Definition join (l : list string) : string := String.concat "," l.

Definition entry (command body rest : string) : string :=
  command +:+ "=[" +:+ body +:+ "]" +:+ rest.

Definition input_file (ty : string) (sts alph : list string) (init : string)
    (acc trs : list string) (rest : string) : list string :=
  [entry "type" ty rest; entry "states" (join sts) rest;
   entry "alphabet" (join alph) rest; entry "initial" init rest;
   entry "accepting" (join acc) rest; entry "transitions" (join trs) rest].

(** The character does not occur in the string. *)
Definition free_of (c : ascii) (s : string) : Prop :=
  Py.contains (String c "") s = false.

End Format.

(** ** The construction, expression by expression

    [convert] builds its expressions as text.  To say what they denote they
    are followed here as trees that keep every parenthesis the program
    writes: [render] gives back the text, [erase] the expression read. *)

Module Kleene.
Import Converter Regex Spec.

Inductive expr : Type :=
  | XEmpty
  | XEps
  | XSym (x : string)
  | XPar (e : expr)
  | XStar (e : expr)
  | XCat (e1 e2 : expr)
  | XAlt (e1 e2 : expr).

Fixpoint render (e : expr) : string :=
  match e with
  | XEmpty => empty_set
  | XEps => epsilon
  | XSym x => x
  | XPar e => "(" +:+ render e +:+ ")"
  | XStar e => render e +:+ "*"
  | XCat e1 e2 => render e1 +:+ render e2
  | XAlt e1 e2 => render e1 +:+ "|" +:+ render e2
  end.

Fixpoint tokens (e : expr) : list token :=
  match e with
  | XEmpty => [TEmpty]
  | XEps => [TEps]
  | XSym x => [TSym x]
  | XPar e => TLpar :: tokens e ++ [TRpar]
  | XStar e => tokens e ++ [TStar]
  | XCat e1 e2 => tokens e1 ++ tokens e2
  | XAlt e1 e2 => tokens e1 ++ TBar :: tokens e2
  end.

Fixpoint erase (e : expr) : re :=
  match e with
  | XEmpty => Empty
  | XEps => Eps
  | XSym x => Sym x
  | XPar e => erase e
  | XStar e => Star (erase e)
  | XCat e1 e2 => Cat (erase e1) (erase e2)
  | XAlt e1 e2 => Alt (erase e1) (erase e2)
  end.

(** [e1|e2|...|en], and the empty-language marker when there is none. *)
Fixpoint alts (es : list expr) : expr :=
  match es with
  | [] => XEmpty
  | [e] => e
  | e :: es' => XAlt e (alts es')
  end.

(** The cell [(i, j)] of the base matrix. *)
Definition base_expr (a : automaton) (i j : nat) : expr :=
  match states a !! i, states a !! j with
  | Some si, Some sj =>
      alts ((XSym <$> symbols_between a si sj) ++
            (if bool_decide (i = j) then [XEps] else []))
  | _, _ => XEmpty
  end.

(** The f-string of the elimination step. *)
Definition step_expr (prev : nat → nat → expr) (k i j : nat) : expr :=
  XAlt (XCat (XPar (prev i k)) (XCat (XStar (XPar (prev k k))) (XPar (prev k j))))
       (XPar (prev i j)).

(** The cell [(i, j)] after the steps [0 .. k-1]. *)
Fixpoint cell_expr (a : automaton) (k : nat) (i j : nat) : expr :=
  match k with
  | 0 => base_expr a i j
  | S k' => step_expr (cell_expr a k') k' i j
  end.

(** What [convert] assembles from row [row] of the last matrix. *)
Definition answer_expr (a : automaton) (row : nat) : expr :=
  alts (omap (λ i, state ← states a !! i;
                   if Py.mem state (accepting_states a)
                   then Some (XPar (cell_expr a (length (states a)) row i))
                   else None)
             (seq 0 (length (states a)))).

(** Where the grammar of the reader allows a tree: level 0 is an
    alternation, level 1 a concatenation, level 2 a starred atom. *)
Fixpoint shaped (level : nat) (e : expr) : bool :=
  match e with
  | XEmpty | XEps | XSym _ => true
  | XPar e => shaped 0 e
  | XStar e => shaped 2 e
  | XCat e1 e2 => bool_decide (level ≤ 1) && shaped 2 e1 && shaped 1 e2
  | XAlt e1 e2 => bool_decide (level = 0) && shaped 1 e1 && shaped 0 e2
  end.

(** The text of the tree ends with a symbol. *)
Fixpoint ends_sym (e : expr) : bool :=
  match e with
  | XSym _ => true
  | XCat _ e2 | XAlt _ e2 => ends_sym e2
  | _ => false
  end.

(** Every symbol is of the alphabet and is followed by [|] or [)] once the
    tree itself is. *)
Fixpoint spaced (alphabet : list string) (e : expr) : bool :=
  match e with
  | XEmpty | XEps => true
  | XSym x => bool_decide (x ∈ alphabet)
  | XPar e => spaced alphabet e
  | XStar e => negb (ends_sym e) && spaced alphabet e
  | XCat e1 e2 => negb (ends_sym e1) && spaced alphabet e1 && spaced alphabet e2
  | XAlt e1 e2 => spaced alphabet e1 && spaced alphabet e2
  end.

(** The depth of calls the reader needs on a tree. *)
Fixpoint need (e : expr) : nat :=
  match e with
  | XEmpty | XEps | XSym _ => 3
  | XPar e => 3 + need e
  | XStar e => need e
  | XCat e1 e2 | XAlt e1 e2 => need e1 `max` S (need e2)
  end.

(** An alphabet whose symbols can be told from the signs of the
    expressions: no symbol is empty, contains [|] or [)], begins with one of
    the signs, or begins with another symbol. *)
Definition readable (alphabet : list string) : Prop :=
  Forall (λ x,
    x ≠ "" ∧ Format.free_of "|" x ∧ Format.free_of ")" x ∧
    Forall (λ t, String.prefix t.1 x = false) fixed_tokens ∧
    Forall (λ y, String.prefix y x = true → y = x) alphabet) alphabet.

(** A transition between two states, by their indices. *)
Definition arc (a : automaton) (i : nat) (x : string) (j : nat) : Prop :=
  ∃ si sj, states a !! i = Some si ∧ states a !! j = Some sj ∧
           (si, x, sj) ∈ triples a.

(** The words along the paths from state [i] to state [j] that change
    direction only at states of index below [k]. *)
Inductive path (a : automaton) (k : nat) : nat → nat → list string → Prop :=
  | path_nil i : path a k i i []
  | path_arc i x j : arc a i x j → path a k i j [x]
  | path_app i m j u v :
      m < k → path a k i m u → path a k m j v → path a k i j (u ++ v).

(** The words along the transitions from a state to a state. *)
Inductive walk (a : automaton) : string → list string → string → Prop :=
  | walk_nil q : walk a q [] q
  | walk_cons s x d w q :
      (s, x, d) ∈ triples a → walk a d w q → walk a s (x :: w) q.

(** The automaton started in state [q]: [accepts] is [accepts_from] the
    initial state. *)
Definition accepts_from (a : automaton) (q : string) (w : list string) : bool :=
  existsb (λ q, Py.mem q (accepting_states a))
          (foldl (step (triples a)) [q] w).

(** The characters that follow a symbol in the expressions of the
    program. *)
Definition delimiter (c : ascii) : Prop := c = "|"%char ∨ c = ")"%char.

(** What may follow an alternation, and what may follow a concatenation. *)
Definition closes (ts : list token) : bool :=
  match ts with [] | TRpar :: _ => true | _ => false end.

Definition separates (ts : list token) : bool :=
  match ts with [] | TRpar :: _ | TBar :: _ => true | _ => false end.

End Kleene.

(** * Properties *)

(** ** Strings *)

Section strings.

Lemma string_app_cons (a : ascii) (s t : string) :
  String a s +:+ t = String a (s +:+ t).
Proof. reflexivity. Qed.

Lemma string_app_nil_r (s : string) : s +:+ "" = s.
Proof. induction s as [|a s IH]; [done|]. by rewrite string_app_cons, IH. Qed.

Lemma string_app_assoc (s t u : string) : (s +:+ t) +:+ u = s +:+ (t +:+ u).
Proof. induction s as [|a s IH]; [done|]. by rewrite !string_app_cons, IH. Qed.

Lemma string_app_eq_nil (s t : string) : s +:+ t = "" → s = "" ∧ t = "".
Proof. destruct s; [done|]. by rewrite string_app_cons. Qed.

Lemma last_char_app_cons (s : string) (c : ascii) (t : string) :
  Py.last_char (s +:+ String c t) = Py.last_char (String c t).
Proof.
  induction s as [|a s IH]; [done|].
  rewrite string_app_cons. change (Py.last_char (String a ?x)) with
    (match x with EmptyString => Some a | _ => Py.last_char x end).
  destruct (s +:+ String c t) eqn:E; [|done].
  by apply string_app_eq_nil in E as [_ ?].
Qed.

Lemma drop_last_app_cons (s : string) (c : ascii) (t : string) :
  Py.drop_last (s +:+ String c t) = s +:+ Py.drop_last (String c t).
Proof.
  induction s as [|a s IH]; [done|].
  rewrite !string_app_cons. change (Py.drop_last (String a ?x)) with
    (match x with EmptyString => EmptyString
     | _ => String a (Py.drop_last x) end).
  destruct (s +:+ String c t) eqn:E.
  - by apply string_app_eq_nil in E as [_ ?].
  - by rewrite <- IH.
Qed.

Lemma string_length_app (s t : string) :
  String.length (s +:+ t) = String.length s + String.length t.
Proof. induction s as [|a s IH]; [done|]. rewrite string_app_cons. simpl. lia. Qed.

Lemma string_app_inj_r (s s' t : string) : s +:+ t = s' +:+ t → s = s'.
Proof.
  intros H.
  assert (String.length s = String.length s') as Hlen.
  { apply (f_equal String.length) in H. rewrite !string_length_app in H. lia. }
  revert s' Hlen H. induction s as [|a s IH]; intros [|a' s'] Hlen H;
    simpl in Hlen; try done.
  rewrite !string_app_cons in H. injection H as -> H. f_equal. apply IH; [lia|done].
Qed.

Lemma split_nonempty (c : ascii) (s : string) : Py.split c s ≠ [].
Proof.
  induction s as [|a s IH]; simpl; [done|].
  destruct (Ascii.eqb a c); [done|]. by destruct (Py.split c s).
Qed.

End strings.

(** ** Loops in the exception monad *)

Section loops.
Context {A S : Type}.
Implicit Types (l : list A) (body : A → S → result S) (s : S).

Lemma for_fold_ext l body body' s :
  (∀ x s, x ∈ l → body x s = body' x s) →
  for_fold l body s = for_fold l body' s.
Proof.
  revert s. induction l as [|x l IH]; intros s H; simpl; [done|].
  rewrite H by left. destruct (body' x s) as [s'|e]; simpl; [|done].
  apply IH. intros y t Hy. apply H. by right.
Qed.

Lemma for_fold_app l1 l2 body s :
  for_fold (l1 ++ l2) body s = s' ← for_fold l1 body s; for_fold l2 body s'.
Proof.
  revert s. induction l1 as [|x l1 IH]; intros s; simpl; [done|].
  destruct (body x s) as [s'|e]; simpl; [apply IH|done].
Qed.

(** A loop whose body keeps an invariant over the items done so far runs to
    its end and establishes the invariant for the whole list. *)
Lemma for_fold_inv (P : list A → S → Prop) l body s :
  P [] s →
  (∀ done x rest s, l = done ++ x :: rest → P done s →
     ∃ s', body x s = Ok s' ∧ P (done ++ [x]) s') →
  ∃ s', for_fold l body s = Ok s' ∧ P l s'.
Proof.
  intros H0 Hstep.
  cut (∀ todo done s, l = done ++ todo → P done s →
         ∃ s', for_fold todo body s = Ok s' ∧ P l s').
  { intros H. by apply (H l []). }
  induction todo as [|x todo IH]; intros done t Hl HP; simpl.
  - rewrite app_nil_r in Hl. subst. eauto.
  - destruct (Hstep done x todo t Hl HP) as (s' & -> & HP'). simpl.
    apply (IH (done ++ [x])); [|done]. by rewrite <- app_assoc.
Qed.

End loops.

(** ** Matrices *)

Section matrices.
Import Converter Spec.
Implicit Types (m : matrix) (c : cell).

Lemma square_new n c : square n (new_matrix n c).
Proof.
  split; [apply length_replicate|].
  apply Forall_replicate, length_replicate.
Qed.

Lemma get_cell_at m i j c : cell_at m i j = Some c → get m i j = Ok c.
Proof. unfold get. by intros ->. Qed.

Lemma cell_text_cell_at m i j c :
  cell_at m i j = Some c → cell_text m i j = format c.
Proof. unfold cell_text. by intros ->. Qed.

Lemma set_spec n m i j c :
  square n m → i < n → j < n →
  ∃ m', set m i j c = Ok m' ∧ square n m' ∧
    ∀ i' j', cell_at m' i' j' =
      if bool_decide (i' = i ∧ j' = j) then Some c else cell_at m i' j'.
Proof.
  intros [Hlen Hrows] Hi Hj. unfold set.
  destruct (m !! i) as [row|] eqn:Hrow.
  2: { apply lookup_ge_None in Hrow. lia. }
  assert (length row = n) as Hr.
  { eapply Forall_lookup_1 in Hrows; eauto. }
  rewrite bool_decide_true by lia.
  eexists; split; [done|]. split.
  - split; [by rewrite length_insert|].
    apply Forall_insert; [done|]. by rewrite length_insert.
  - intros i' j'. unfold cell_at.
    destruct (decide (i' = i)) as [->|Hne].
    + rewrite list_lookup_insert_eq by lia. simpl.
      destruct (decide (j' = j)) as [->|Hne'].
      * rewrite bool_decide_true by done.
        by rewrite list_lookup_insert_eq by lia.
      * rewrite bool_decide_false by naive_solver.
        rewrite list_lookup_insert_ne by done. by rewrite Hrow.
    + rewrite bool_decide_false by naive_solver.
      by rewrite list_lookup_insert_ne by done.
Qed.

(** Two nested loops that assign every cell of an [n] by [n] matrix. *)
Lemma fill_loop {X Y} (ix : X → nat) (jx : Y → nat) (lx : list X)
    (ly : list Y) (body : X → Y → result cell) (g : nat → nat → cell)
    n m0 :
  square n m0 → ix <$> lx = seq 0 n → jx <$> ly = seq 0 n →
  (∀ x y, x ∈ lx → y ∈ ly → body x y = Ok (g (ix x) (jx y))) →
  ∃ m, for_fold lx (λ x m,
         for_fold ly (λ y m, c ← body x y; set m (ix x) (jx y) c) m) m0
       = Ok m ∧ square n m ∧
       ∀ i j, i < n → j < n → cell_at m i j = Some (g i j).
Proof.
  intros Hsq Hlx Hly Hbody.
  assert (∀ x, x ∈ lx → ix x < n) as Hix.
  { intros x Hx. apply (list_elem_of_fmap_2 ix) in Hx.
    rewrite Hlx in Hx. apply elem_of_seq in Hx. lia. }
  assert (∀ y, y ∈ ly → jx y < n) as Hjx.
  { intros y Hy. apply (list_elem_of_fmap_2 jx) in Hy.
    rewrite Hly in Hy. apply elem_of_seq in Hy. lia. }
  pose (P := λ (done : list X) (m : matrix),
    square n m ∧ ∀ i j, i ∈ (ix <$> done) → j < n →
      cell_at m i j = Some (g i j)).
  destruct (for_fold_inv P lx
    (λ x m, for_fold ly (λ y m, c ← body x y; set m (ix x) (jx y) c) m) m0)
    as (m & Hm & Hsqm & Hcells).
  - split; [done|]. intros i j Hi. by apply elem_of_nil in Hi.
  - intros done x rest m Hl [Hsqm Hdone].
    assert (x ∈ lx) as Hx by (rewrite Hl; set_solver).
    pose (Q := λ (done' : list Y) (m' : matrix),
      square n m' ∧ ∀ i j, cell_at m' i j =
        if bool_decide (i = ix x ∧ j ∈ (jx <$> done'))
        then Some (g i j) else cell_at m i j).
    destruct (for_fold_inv Q ly
      (λ y m, c ← body x y; set m (ix x) (jx y) c) m)
      as (m' & Hm' & Hsqm' & Hcells').
    + split; [done|]. intros i j.
      rewrite bool_decide_false; [done|]. set_solver.
    + intros done' y rest' m' Hl' [Hsqm' Hdone'].
      assert (y ∈ ly) as Hy by (rewrite Hl'; set_solver).
      rewrite Hbody by done. simpl.
      destruct (set_spec n m' (ix x) (jx y) (g (ix x) (jx y)))
        as (m'' & -> & Hsq'' & Hc''); auto.
      eexists; split; [done|]. split; [done|].
      intros i j. rewrite Hc'', Hdone', fmap_app. simpl.
      repeat case_bool_decide; try done; set_solver.
    + exists m'. split; [done|]. split; [done|].
      intros i j Hi Hj. rewrite Hcells'.
      case_bool_decide as Hc; [done|].
      apply Hdone; [|done]. rewrite fmap_app in Hi.
      apply elem_of_app in Hi as [Hi|Hi]; [done|].
      apply list_elem_of_singleton in Hi. subst i.
      exfalso. apply Hc. split; [done|].
      rewrite Hly. apply elem_of_seq. lia.
  - exists m. split; [done|]. split; [done|].
    intros i j Hi Hj. apply Hcells; [|done].
    rewrite Hlx. apply elem_of_seq. lia.
Qed.

End matrices.

(** ** The base matrix *)

Section base_matrix.
Import Converter Spec.

Lemma bars_snoc l x : bars (l ++ [x]) = bars l +:+ x +:+ "|".
Proof.
  induction l as [|y l IH]; simpl.
  - by rewrite string_app_nil_r.
  - by rewrite IH, !string_app_assoc.
Qed.

Lemma concat_snoc l x : String.concat "|" (l ++ [x]) = bars l +:+ x.
Proof.
  induction l as [|y l IH]; [done|].
  change ((y :: l) ++ [x]) with (y :: (l ++ [x])).
  change (bars (y :: l)) with (y +:+ "|" +:+ bars l).
  rewrite !string_app_assoc, <- IH. by destruct l.
Qed.

Lemma well_formed_unpack a transition :
  well_formed a → transition ∈ transitions a →
  ∃ t, unpack transition = Ok t ∧ triple_of transition = Some t.
Proof.
  intros Hwf Hin. eapply Forall_forall in Hwf; [|done].
  destruct Hwf as [t Ht]. exists t. split; [|done].
  unfold triple_of in Ht. by destruct (unpack transition); simplify_eq.
Qed.

Lemma collect_symbols a si sj :
  well_formed a →
  for_fold (transitions a) (λ transition new,
    '(s_state, s_transition, d_state) ← unpack transition;
    if bool_decide ((s_state, d_state) = (si, sj))
    then Ok (new +:+ s_transition +:+ "|")
    else Ok new) "" = Ok (bars (symbols_between a si sj)).
Proof.
  unfold well_formed, symbols_between, triples.
  generalize (transitions a) as ts. intros ts Hwf.
  cut (∀ acc, for_fold ts (λ transition new,
    '(s_state, s_transition, d_state) ← unpack transition;
    if bool_decide ((s_state, d_state) = (si, sj))
    then Ok (new +:+ s_transition +:+ "|")
    else Ok new) acc = Ok (acc +:+ bars (omap (λ '(s, x, d),
      if bool_decide (s = si ∧ d = sj) then Some x else None)
      (omap triple_of ts)))).
  { intros H. apply (H ""). }
  induction Hwf as [|t ts [[[s x] d] Ht] _ IH]; intros acc; simpl.
  - by rewrite string_app_nil_r.
  - rewrite Ht. unfold triple_of in Ht.
    destruct (unpack t) as [t'|]; simplify_eq. simpl.
    destruct (decide (s = si ∧ d = sj)) as [[-> ->]|Hne].
    + rewrite !bool_decide_true by done. simpl. rewrite IH. simpl.
      by rewrite !string_app_assoc.
    + rewrite !bool_decide_false by naive_solver. simpl. apply IH.
Qed.

Lemma initial_cell_spec a i j si sj :
  NoDup (states a) → well_formed a →
  states a !! i = Some si → states a !! j = Some sj →
  initial_cell a si sj = Ok (base_cell a i j).
Proof.
  intros Hnd Hwf Hi Hj. unfold initial_cell.
  rewrite collect_symbols by done. simpl.
  unfold base_cell, alternatives. rewrite Hi, Hj.
  destruct (decide (i = j)) as [->|Hne].
  - assert (si = sj) as -> by congruence.
    rewrite !(bool_decide_true (sj = sj)), (bool_decide_true (j = j)) by done.
    rewrite bool_decide_false.
    2: { intros [_ ?]%string_app_eq_nil. done. }
    unfold epsilon.
    rewrite (last_char_app_cons _ "e" "ps"). simpl.
    rewrite <- concat_snoc.
    destruct (symbols_between a sj sj ++ ["eps"]) as [|s l] eqn:E;
      [by apply app_eq_nil in E as [_ ?]|].
    by destruct l.
  - assert (si ≠ sj) as Hs.
    { intros ->. apply Hne. by eapply NoDup_lookup. }
    rewrite !(bool_decide_false (si = sj)), (bool_decide_false (i = j)) by done.
    rewrite app_nil_r.
    destruct (symbols_between a si sj) as [|y l _] using rev_ind; [done|].
    rewrite bars_snoc.
    rewrite bool_decide_false.
    2: { rewrite <- string_app_assoc. intros [_ ?]%string_app_eq_nil. done. }
    rewrite <- string_app_assoc.
    rewrite (last_char_app_cons _ "|" ""), (drop_last_app_cons _ "|" "").
    simpl. rewrite string_app_nil_r, <- concat_snoc.
    destruct (l ++ [y]) as [|s l'] eqn:E;
      [by apply app_eq_nil in E as [_ ?]|].
    by destruct l'.
Qed.

Lemma fst_enumerate {A} (l : list A) : (enumerate l).*1 = seq 0 (length l).
Proof. unfold enumerate. apply fst_zip. by rewrite length_seq. Qed.

Lemma elem_of_enumerate {A} (l : list A) i x :
  (i, x) ∈ enumerate l → l !! i = Some x.
Proof.
  intros [k Hk]%list_elem_of_lookup_1. unfold enumerate in Hk.
  apply lookup_zip_with_Some in Hk as (i' & x' & ? & Hs & Hl).
  simplify_eq. apply lookup_seq in Hs as [-> _]. done.
Qed.

Lemma initial_cell_total a si sj :
  well_formed a → ∃ s, initial_cell a si sj = Ok s.
Proof.
  intros Hwf. unfold initial_cell. rewrite collect_symbols by done. simpl.
  match goal with |- context [Py.last_char ?s] =>
    assert (s ≠ "") as Hne; [|destruct (Py.last_char s) eqn:E] end.
  - case_bool_decide as H; [done|]. done.
  - simpl. eauto.
  - exfalso. apply Hne. revert E. clear.
    match goal with |- Py.last_char ?s = _ → _ => generalize s end.
    induction s as [|c [|c' s] IH]; naive_solver.
Qed.

(** The base matrix is built without an exception; its cells are what the
    loop body computes for the two state names. *)
Lemma buildInitialRegExp_total a :
  well_formed a →
  ∃ m, buildInitialRegExp a = Ok m ∧ square (length (states a)) m ∧
    ∀ i j si sj, states a !! i = Some si → states a !! j = Some sj →
      ∃ s, initial_cell a si sj = Ok s ∧ cell_at m i j = Some (Str s).
Proof.
  intros Hwf. unfold buildInitialRegExp.
  pose (g := λ i j : nat,
    match initial_cell a (states a !!! i) (states a !!! j) with
    | Ok s => Str s
    | Raise _ => Zero
    end).
  destruct (fill_loop fst fst (enumerate (states a)) (enumerate (states a))
    (λ x y, new ← initial_cell a x.2 y.2; Ok (Str new)) g
    (length (states a)) (new_matrix (length (states a)) (Str "")))
    as (m & Hm & Hsq & Hcells).
  - apply square_new.
  - apply fst_enumerate.
  - apply fst_enumerate.
  - intros [i si] [j sj] Hi%elem_of_enumerate Hj%elem_of_enumerate. simpl.
    unfold g. rewrite (list_lookup_total_correct _ _ _ Hi).
    rewrite (list_lookup_total_correct _ _ _ Hj).
    by destruct (initial_cell_total a si sj Hwf) as [s ->].
  - exists m. split; [|split; [done|]].
    + rewrite <- Hm.
      apply for_fold_ext. intros [i si] m1 _.
      apply for_fold_ext. intros [j sj] m2 _. simpl.
      by destruct (initial_cell a si sj).
    + intros i j si sj Hi Hj.
      destruct (initial_cell_total a si sj Hwf) as [s Hs].
      exists s. split; [done|].
      rewrite Hcells by (by eapply lookup_lt_Some). unfold g.
      rewrite (list_lookup_total_correct _ _ _ Hi).
      rewrite (list_lookup_total_correct _ _ _ Hj). by rewrite Hs.
Qed.

(** With distinct state names the cells are what the specification asks. *)
Lemma buildInitialRegExp_spec a :
  NoDup (states a) → well_formed a →
  ∃ m, buildInitialRegExp a = Ok m ∧ square (length (states a)) m ∧
    ∀ i j, i < length (states a) → j < length (states a) →
      cell_at m i j = Some (Str (base_cell a i j)).
Proof.
  intros Hnd Hwf.
  destruct (buildInitialRegExp_total a Hwf) as (m & Hm & Hsq & Hcells).
  exists m. split; [done|]. split; [done|]. intros i j Hi Hj.
  destruct (lookup_lt_is_Some_2 _ _ Hi) as [si Hsi].
  destruct (lookup_lt_is_Some_2 _ _ Hj) as [sj Hsj].
  destruct (Hcells i j si sj Hsi Hsj) as (s & Hs & ->).
  rewrite (initial_cell_spec a i j si sj) in Hs by done. by simplify_eq.
Qed.

End base_matrix.

(** ** The elimination steps *)

Section elimination.
Import Converter Spec.

Lemma square_cell n (m : matrix) i j :
  square n m → i < n → j < n → ∃ c, cell_at m i j = Some c.
Proof.
  intros [Hlen Hrows] Hi Hj. unfold cell_at.
  destruct (lookup_lt_is_Some_2 m i) as [row Hrow]; [lia|].
  rewrite Hrow. simpl. apply lookup_lt_is_Some_2.
  eapply Forall_lookup_1 in Hrows; [|done]. simpl in Hrows. lia.
Qed.

Lemma matrix_ext n (m m' : matrix) :
  square n m → square n m' →
  (∀ i j, i < n → j < n → cell_at m i j = cell_at m' i j) → m = m'.
Proof.
  intros [Hl Hr] [Hl' Hr'] Hc. apply list_eq_same_length with n; [done..|].
  intros i row row' Hi Hrow Hrow'.
  apply list_eq_same_length with n.
  - by eapply (Forall_lookup_1 _ _ _ _ Hr').
  - by eapply (Forall_lookup_1 _ _ _ _ Hr).
  - intros j c c' Hj Hcj Hcj'. specialize (Hc i j Hi Hj).
    unfold cell_at in Hc. rewrite Hrow, Hrow' in Hc. simpl in Hc. congruence.
Qed.

Lemma square_fresh_step n prev k : square n (fresh_step n prev k).
Proof.
  unfold fresh_step. split.
  - by rewrite length_fmap, length_seq.
  - apply Forall_fmap, Forall_forall. intros i _. simpl.
    by rewrite length_fmap, length_seq.
Qed.

Lemma cell_at_fresh_step n prev k i j :
  i < n → j < n →
  cell_at (fresh_step n prev k) i j
  = Some (Str (recurrence (cell_text prev) k i j)).
Proof.
  intros Hi Hj. unfold cell_at, fresh_step.
  rewrite list_lookup_fmap, lookup_seq_lt by done. simpl.
  by rewrite list_lookup_fmap, lookup_seq_lt by done.
Qed.

(** One round of the loop is the recurrence over the matrix it started
    from: it fills a new matrix and never reads it. *)
Lemma kleene_step_fresh n prev k :
  square n prev → k < n → kleene_step n prev k = Ok (fresh_step n prev k).
Proof.
  intros Hsq Hk. unfold kleene_step.
  destruct (fill_loop id id (range n) (range n)
    (λ i j,
      r_i_step ← get prev i k;
      r_step_step ← get prev k k;
      r_step_j ← get prev k j;
      r_i_j ← get prev i j;
      Ok (Str ("(" +:+ format r_i_step +:+ ")(" +:+ format r_step_step +:+
               ")*(" +:+ format r_step_j +:+ ")|(" +:+ format r_i_j +:+ ")")))
    (λ i j, Str (recurrence (cell_text prev) k i j)) n (new_matrix n Zero))
    as (m & Hm & Hsqm & Hcells).
  - apply square_new.
  - apply list_fmap_id.
  - apply list_fmap_id.
  - intros i j Hi%elem_of_seq Hj%elem_of_seq. simpl.
    destruct (square_cell n prev i k) as [c1 H1]; [done|lia|done|].
    destruct (square_cell n prev k k) as [c2 H2]; [done..|].
    destruct (square_cell n prev k j) as [c3 H3]; [done|done|lia|].
    destruct (square_cell n prev i j) as [c4 H4]; [done|lia|lia|].
    rewrite (get_cell_at _ _ _ _ H1), (get_cell_at _ _ _ _ H2).
    rewrite (get_cell_at _ _ _ _ H3), (get_cell_at _ _ _ _ H4). simpl.
    unfold recurrence.
    by rewrite (cell_text_cell_at _ _ _ _ H1), (cell_text_cell_at _ _ _ _ H2),
      (cell_text_cell_at _ _ _ _ H3), (cell_text_cell_at _ _ _ _ H4).
  - transitivity (@Ok matrix m).
    + rewrite <- Hm. apply for_fold_ext. intros i m1 _.
      apply for_fold_ext. intros j m2 _. unfold id.
      destruct (get prev i k); simpl; [|done].
      destruct (get prev k k); simpl; [|done].
      destruct (get prev k j); simpl; [|done].
      by destruct (get prev i j).
    + f_equal. apply matrix_ext with n; [done|apply square_fresh_step|].
      intros i j Hi Hj. by rewrite Hcells, cell_at_fresh_step.
Qed.

Lemma range_S n : range (S n) = range n ++ [n].
Proof. unfold range. by rewrite seq_S. Qed.

(** The matrix after the first [k] rounds. *)
Lemma kleene_steps_total n base k :
  square n base → k ≤ n →
  ∃ m, kleene_steps n (range k) base = Ok m ∧ square n m.
Proof.
  intros Hsq. induction k as [|k IH]; intros Hk.
  - by exists base.
  - destruct IH as (prev & Hprev & Hsqp); [lia|].
    exists (fresh_step n prev k). split; [|apply square_fresh_step].
    unfold kleene_steps in *. rewrite range_S, for_fold_app, Hprev. simpl.
    rewrite kleene_step_fresh by (done || lia). done.
Qed.

Lemma kleene_steps_S n base k prev :
  square n prev → k < n →
  kleene_steps n (range k) base = Ok prev →
  kleene_steps n (range (S k)) base = Ok (fresh_step n prev k).
Proof.
  intros Hsq Hk Hprev. unfold kleene_steps in *.
  rewrite range_S, for_fold_app, Hprev. simpl.
  by rewrite kleene_step_fresh.
Qed.

End elimination.

(** ** Validation: the blocks one by one *)

Section validation.
Import Converter Spec.

Lemma validate_Ok a :
  validate a = Ok () ↔
  validate_error1 a = Ok () ∧ validate_error2 a = Ok () ∧
  validate_error3 a = Ok () ∧ validate_error4 a = Ok () ∧
  validate_error5 a = Ok () ∧ validate_error6 a = Ok () ∧
  validate_error7 a = Ok ().
Proof.
  unfold validate.
  destruct (validate_error1 a) as [[]|]; simpl; [|naive_solver].
  destruct (validate_error2 a) as [[]|]; simpl; [|naive_solver].
  destruct (validate_error3 a) as [[]|]; simpl; [|naive_solver].
  destruct (validate_error4 a) as [[]|]; simpl; [|naive_solver].
  destruct (validate_error5 a) as [[]|]; simpl; [|naive_solver].
  destruct (validate_error6 a) as [[]|]; simpl; [|naive_solver].
  naive_solver.
Qed.

Lemma for_each_Ok {A} (l : list A) (body : A → result unit) :
  for_each l body = Ok () ↔ Forall (λ x, body x = Ok ()) l.
Proof.
  unfold for_each. induction l as [|x l IH]; simpl.
  - by split; [constructor|].
  - rewrite Forall_cons. destruct (body x) as [[]|]; simpl; naive_solver.
Qed.

(** Once the loop over the transitions has passed, every token has its three
    fields, its endpoints are declared states and its symbol is in the
    alphabet. *)
Lemma validate_error5_Ok a :
  validate_error5 a = Ok () ↔
  Forall (λ transition, ∃ s x d, unpack transition = Ok (s, x, d) ∧
            s ≠ "" ∧ s ∈ states a ∧ d ∈ states a ∧ x ∈ alphabet a)
         (transitions a).
Proof.
  unfold validate_error5. rewrite for_each_Ok.
  apply Forall_proper; [|done]. intros t. unfold Py.mem.
  destruct (unpack t) as [[[s x] d]|e]; simpl; [|naive_solver].
  repeat (case_bool_decide; simpl); naive_solver.
Qed.

Lemma validate_error5_well_formed a :
  validate_error5 a = Ok () → well_formed a.
Proof.
  rewrite validate_error5_Ok. unfold well_formed.
  intros H. eapply Forall_impl; [done|]. intros t (s & x & d & Ht & _).
  unfold triple_of. by rewrite Ht.
Qed.

Lemma validate_well_formed a : validate a = Ok () → well_formed a.
Proof.
  rewrite validate_Ok. intros (_ & _ & _ & _ & H & _).
  by apply validate_error5_well_formed.
Qed.

End validation.

(** ** The depth-first traversal *)

Section traversal.
Import Graph.

Lemma filter_length_mono {A} (P Q : A → Prop)
    `{!∀ x, Decision (P x), !∀ x, Decision (Q x)} (l : list A) :
  (∀ x, x ∈ l → P x → Q x) → length (filter P l) ≤ length (filter Q l).
Proof.
  induction l as [|x l IH]; intros Himp; [done|].
  rewrite !filter_cons.
  assert (length (filter P l) ≤ length (filter Q l)) by (apply IH; set_solver).
  destruct (decide (P x)) as [HP|]; destruct (decide (Q x)) as [|HQ];
    simpl; try lia.
  exfalso. apply HQ, Himp; [left|done].
Qed.

Lemma filter_length_lt {A} (P Q : A → Prop)
    `{!∀ x, Decision (P x), !∀ x, Decision (Q x)} (l : list A) y :
  (∀ x, x ∈ l → P x → Q x) → y ∈ l → Q y → ¬P y →
  length (filter P l) < length (filter Q l).
Proof.
  induction l as [|x l IH]; intros Himp Hy HQ HP;
    [by apply elem_of_nil in Hy|].
  rewrite !filter_cons.
  assert (length (filter P l) ≤ length (filter Q l)).
  { apply filter_length_mono. set_solver. }
  apply elem_of_cons in Hy as [->|Hy].
  - destruct (decide (P x)); [done|].
    destruct (decide (Q x)); [|done]. simpl. lia.
  - assert (length (filter P l) < length (filter Q l)).
    { apply IH; [set_solver|done..]. }
    destruct (decide (P x)) as [HPx|]; destruct (decide (Q x)) as [|HQx];
      simpl; try lia.
    exfalso. apply HQx, Himp; [left|done].
Qed.

Lemma setVisited_length h v : length (setVisited h v) = length h.
Proof. unfold setVisited. by rewrite length_insert. Qed.

Lemma setVisited_lookup h v r :
  v < length h →
  setVisited h v !!! r =
    if decide (r = v)
    then mkNode (label (h !!! v)) (adjacent_nodes (h !!! v)) true
    else h !!! r.
Proof.
  intros Hv. unfold setVisited. destruct (decide (r = v)) as [->|Hne].
  - by rewrite list_lookup_total_insert_eq.
  - by rewrite list_lookup_total_insert_ne.
Qed.

Lemma setVisited_adjacent h v r :
  v < length h → getAdjacentNodes (setVisited h v) r = getAdjacentNodes h r.
Proof.
  intros Hv. unfold getAdjacentNodes. rewrite setVisited_lookup by done.
  by destruct (decide (r = v)) as [->|].
Qed.

Lemma setVisited_visited h v r :
  v < length h →
  isVisited (setVisited h v) r = true ↔ isVisited h r = true ∨ r = v.
Proof.
  intros Hv. unfold isVisited. rewrite setVisited_lookup by done.
  destruct (decide (r = v)) as [->|]; naive_solver.
Qed.

Lemma unvisited_mono h h' :
  length h' = length h →
  (∀ r, isVisited h r = true → isVisited h' r = true) →
  unvisited h' ≤ unvisited h.
Proof.
  intros Hlen Hv. unfold unvisited. rewrite Hlen.
  apply filter_length_mono. intros r _ Hr.
  destruct (isVisited h r) eqn:E; [|done]. by rewrite (Hv r E) in Hr.
Qed.

Lemma unvisited_lt h h' v :
  length h' = length h →
  (∀ r, isVisited h r = true → isVisited h' r = true) →
  v < length h → isVisited h v = false → isVisited h' v = true →
  unvisited h' < unvisited h.
Proof.
  intros Hlen Hv Hlt Hf Ht. unfold unvisited. rewrite Hlen.
  apply filter_length_lt with v.
  - intros r _ Hr.
    destruct (isVisited h r) eqn:E; [|done]. by rewrite (Hv r E) in Hr.
  - apply elem_of_seq. lia.
  - done.
  - by rewrite Ht.
Qed.

(** The traversal from a node not visited before, in a heap with at most
    [depth] such nodes: it ends, changes nothing but flags, and appends to
    [new_nodes] distinct nodes that were not visited before, each of them
    reachable from the start, with all their neighbours visited in the
    end. *)
Lemma depthFirstSearch_spec (D : ref → Prop) depth :
  ∀ h v acc,
    closed D h → D v → isVisited h v = false → unvisited h ≤ depth →
    ∃ h' new,
      depthFirstSearch depth h v acc = Some (h', acc ++ new) ∧
      length h' = length h ∧
      (∀ r, getAdjacentNodes h' r = getAdjacentNodes h r) ∧
      (∀ r, isVisited h' r = true ↔ isVisited h r = true ∨ r ∈ new) ∧
      NoDup new ∧ v ∈ new ∧
      (∀ r, r ∈ new → D r ∧ isVisited h r = false) ∧
      (∀ r, r ∈ new → rtc (adjacent h) v r) ∧
      (∀ r u, r ∈ new → adjacent h r u → isVisited h' u = true).
Proof.
  induction depth as [|depth IH]; intros h v acc Hcl HDv Hv Hdepth.
  { exfalso. destruct (Hcl v HDv) as [Hlt _].
    assert (unvisited (setVisited h v) < unvisited h); [|lia].
    apply unvisited_lt with v; [apply setVisited_length| |done..|].
    - intros r Hr. apply setVisited_visited; auto.
    - apply setVisited_visited; auto. }
  destruct (Hcl v HDv) as [Hlt Hadj]. simpl.
  set (h1 := setVisited h v).
  assert (length h1 = length h) as Hlen1 by apply setVisited_length.
  assert (∀ r, getAdjacentNodes h1 r = getAdjacentNodes h r) as Hadj1.
  { intros r. by apply setVisited_adjacent. }
  assert (∀ r, isVisited h1 r = true ↔ isVisited h r = true ∨ r = v) as Hvis1.
  { intros r. by apply setVisited_visited. }
  assert (unvisited h1 ≤ depth) as Hdepth1.
  { assert (unvisited h1 < unvisited h); [|lia].
    apply unvisited_lt with v; [done| |done..|].
    - intros r Hr. apply Hvis1. auto.
    - apply Hvis1. auto. }
  rewrite Hadj1.
  assert (∀ adj,
    (∀ u, u ∈ adj → D u) → (∀ u, u ∈ adj → adjacent h v u) →
    ∀ h2 acc2,
    length h2 = length h →
    (∀ r, getAdjacentNodes h2 r = getAdjacentNodes h r) →
    unvisited h2 ≤ depth →
    ∃ h' new,
      foldl (λ st adjacentNode,
               '(h, new_nodes) ← st;
               if negb (isVisited h adjacentNode)
               then depthFirstSearch depth h adjacentNode new_nodes
               else Some (h, new_nodes))
            (Some (h2, acc2)) adj = Some (h', acc2 ++ new) ∧
      length h' = length h ∧
      (∀ r, getAdjacentNodes h' r = getAdjacentNodes h r) ∧
      (∀ r, isVisited h' r = true ↔ isVisited h2 r = true ∨ r ∈ new) ∧
      NoDup new ∧
      (∀ r, r ∈ new → D r ∧ isVisited h2 r = false) ∧
      (∀ r, r ∈ new → ∃ u, u ∈ adj ∧ rtc (adjacent h) u r) ∧
      (∀ r u, r ∈ new → adjacent h r u → isVisited h' u = true) ∧
      (∀ u, u ∈ adj → isVisited h' u = true)) as Hfold.
  { induction adj as [|u adj IHadj]; intros HD Hedge h2 acc2 Hlen2 Hadj2 Hdepth2.
    { exists h2, []. rewrite app_nil_r. simpl.
      split; [done|]. split; [done|]. split; [done|].
      split; [set_solver|]. split; [constructor|]. set_solver. }
    assert (∀ u', u' ∈ adj → D u') as HD' by set_solver.
    assert (∀ u', u' ∈ adj → adjacent h v u') as Hedge' by set_solver.
    simpl. destruct (isVisited h2 u) eqn:Hu; simpl.
    { destruct (IHadj HD' Hedge' h2 acc2 Hlen2 Hadj2 Hdepth2)
        as (h' & new & Hrun & Hlen' & Hadj' & Hvis' & Hnd & Hnew & Hreach &
            Hdone & Hall).
      exists h', new. split; [done|]. split; [done|]. split; [done|].
      split; [done|]. split; [done|]. split; [done|]. split; [|split; [done|]].
      - intros r Hr. destruct (Hreach r Hr) as (u' & ? & ?). exists u'.
        split; [by right|done].
      - intros u' [->|Hin]%elem_of_cons; [|by apply Hall].
        apply Hvis'. auto. }
    destruct (IH h2 u acc2)
      as (h3 & new1 & Hrun1 & Hlen3 & Hadj3 & Hvis3 & Hnd1 & Hu1 & Hnew1 &
          Hreach1 & Hdone1).
    { intros r HDr. destruct (Hcl r HDr) as [? Hr]. rewrite Hlen2, Hadj2. done. }
    { apply HD. left. }
    { done. }
    { done. }
    rewrite Hrun1.
    destruct (IHadj HD' Hedge' h3 (acc2 ++ new1))
      as (h' & new2 & Hrun2 & Hlen' & Hadj' & Hvis' & Hnd2 & Hnew2 & Hreach2 &
          Hdone2 & Hall2).
    { lia. }
    { intros r. by rewrite Hadj3. }
    { etrans; [|exact Hdepth2]. apply unvisited_mono; [lia|].
      intros r Hr. apply Hvis3. auto. }
    assert (∀ r u', adjacent h2 r u' ↔ adjacent h r u') as Hsame.
    { intros r u'. unfold adjacent. by rewrite Hadj2. }
    exists h', (new1 ++ new2). rewrite Hrun2, app_assoc.
    split; [done|]. split; [done|]. split; [done|].
    split; [|split; [|split; [|split; [|split]]]].
    - intros r. rewrite Hvis', Hvis3, elem_of_app. naive_solver.
    - apply NoDup_app. split; [done|]. split; [|done].
      intros r Hr1 Hr2. destruct (Hnew2 r Hr2) as [_ Hf].
      assert (isVisited h3 r = true) by (apply Hvis3; auto). congruence.
    - intros r [Hr|Hr]%elem_of_app; [by apply Hnew1|].
      destruct (Hnew2 r Hr) as [HDr Hf]. split; [done|].
      destruct (isVisited h2 r) eqn:E; [|done].
      assert (isVisited h3 r = true) by (apply Hvis3; auto). congruence.
    - intros r [Hr|Hr]%elem_of_app.
      + exists u. split; [left|].
        eapply rtc_subrel; [|by apply Hreach1]. intros ??. by apply Hsame.
      + destruct (Hreach2 r Hr) as (u' & ? & ?). exists u'. split; [by right|done].
    - intros r u' [Hr|Hr]%elem_of_app Hru.
      + apply Hvis'. left. eapply Hdone1; [done|]. by apply Hsame.
      + by eapply Hdone2.
    - intros u' [->|Hin]%elem_of_cons; [|by apply Hall2].
      apply Hvis'. left. apply Hvis3. auto. }
  destruct (Hfold (getAdjacentNodes h v) ltac:(done) ltac:(done)
            h1 (acc ++ [v]) Hlen1 Hadj1 Hdepth1)
    as (h' & new & Hrun & Hlen' & Hadj' & Hvis' & Hnd & Hnew & Hreach &
        Hdone & Hall).
  exists h', (v :: new).
  split; [|split; [done|split; [done|split; [|split; [|split; [|split;
    [|split]]]]]]].
  - rewrite Hrun. by rewrite <- app_assoc.
  - intros r. rewrite Hvis', Hvis1, elem_of_cons. naive_solver.
  - apply NoDup_cons. split; [|done]. intros Hin.
    destruct (Hnew v Hin) as [_ Hf].
    assert (isVisited h1 v = true) by (apply Hvis1; auto). congruence.
  - left.
  - intros r [->|Hin]%elem_of_cons; [done|].
    destruct (Hnew r Hin) as [HDr Hf]. split; [done|].
    destruct (isVisited h r) eqn:E; [|done].
    assert (isVisited h1 r = true) by (apply Hvis1; auto). congruence.
  - intros r [->|Hin]%elem_of_cons; [done|].
    destruct (Hreach r Hin) as (u & Hu & Hur).
    eapply rtc_l; [exact Hu|done].
  - intros r u [->|Hin]%elem_of_cons Hru; [by apply Hall|].
    by eapply Hdone.
Qed.

(** From a heap without a visited node, the traversal collects exactly the
    nodes reachable from its start. *)
Lemma depthFirstSearch_reachable (D : ref → Prop) h v :
  closed D h → D v → (∀ r, isVisited h r = false) →
  ∃ h' new,
    depthFirstSearch (length h) h v [] = Some (h', new) ∧
    NoDup new ∧
    (∀ r, r ∈ new → D r) ∧
    (∀ r, r ∈ new ↔ rtc (adjacent h) v r).
Proof.
  intros Hcl HDv Hvis.
  destruct (depthFirstSearch_spec D (length h) h v [] Hcl HDv (Hvis v))
    as (h' & new & Hrun & _ & _ & Hvis' & Hnd & Hv & Hnew & Hreach & Hdone).
  { unfold unvisited. etrans; [apply length_filter|]. by rewrite length_seq. }
  exists h', new. split; [done|]. split; [done|].
  split; [intros r Hr; by apply Hnew|].
  intros r. split; [by apply Hreach|].
  revert r. apply rtc_ind_r; [done|]. intros y z _ Hyz Hy.
  assert (isVisited h' z = true) as Hz by by eapply Hdone.
  apply Hvis' in Hz as [Hz|Hz]; [|done]. by rewrite Hvis in Hz.
Qed.

End traversal.

(** ** Building the graph *)

Section graph_building.
Import Graph Converter Spec.

Lemma mem_true x l : Py.mem x l = true ↔ x ∈ l.
Proof. unfold Py.mem. apply bool_decide_eq_true. Qed.

Lemma mem_false x l : Py.mem x l = false ↔ x ∉ l.
Proof. unfold Py.mem. apply bool_decide_eq_false. Qed.

Lemma elem_of_node_list (h : heap) g r :
  1 ≤ length h → node_list g = seq 1 (length h - 1) →
  r ∈ node_list g ↔ 1 ≤ r < length h.
Proof. intros Hh ->. rewrite elem_of_seq. lia. Qed.

(** [addNode] returns the node of the graph that carries the label, after
    creating it if there was none; the other objects are untouched. *)
Lemma addNode_spec (h : heap) g lbl :
  1 ≤ length h → node_list g = seq 1 (length h - 1) → NoDup (labels h g) →
  ∃ (h' : heap) g' r, addNode h g lbl = (h', g', r) ∧
    length h ≤ length h' ∧
    node_list g' = seq 1 (length h' - 1) ∧
    number_of_states g' = number_of_states g ∧
    NoDup (labels h' g') ∧
    (∀ l, l ∈ labels h' g' ↔ l ∈ labels h g ∨ l = lbl) ∧
    (∀ x, x < length h → getLabel h' x = getLabel h x) ∧
    (∀ x, getAdjacentNodes h' x = getAdjacentNodes h x) ∧
    (∀ x, isVisited h' x = isVisited h x) ∧
    1 ≤ r < length h' ∧ getLabel h' r = lbl.
Proof.
  intros Hh Hnl Hnd. unfold addNode.
  destruct (Py.mem lbl (getLabel h <$> node_list g)) eqn:Hmem; simpl.
  - apply mem_true in Hmem.
    destruct (find _ (node_list g)) as [r|] eqn:Hfind.
    + apply find_some in Hfind as [Hin%list_elem_of_In Hr].
      apply bool_decide_eq_true in Hr.
      apply (elem_of_node_list h g _ Hh Hnl) in Hin.
      exists h, g, r. simpl. split; [done|].
      repeat split; try done; try lia; [tauto|]. by intros [?| ->].
    + exfalso. apply list_elem_of_fmap in Hmem as (r & Hr & Hin).
      apply list_elem_of_In in Hin.
      eapply find_none in Hfind; [|done].
      by apply bool_decide_eq_false in Hfind.
  - apply mem_false in Hmem.
    assert (∀ x, x < length h →
      (h ++ [mkNode lbl [] false]) !!! x = h !!! x) as Hold.
    { intros x Hx. by apply lookup_total_app_l. }
    assert ((h ++ [mkNode lbl [] false]) !!! length h = mkNode lbl [] false)
      as Hnew.
    { by rewrite list_lookup_total_middle. }
    assert (∀ x, length h < x →
      (h ++ [mkNode lbl [] false]) !!! x = inhabitant) as Hout.
    { intros x Hx. rewrite !list_lookup_total_alt.
      rewrite lookup_ge_None_2; [done|]. rewrite length_app. simpl. lia. }
    assert (∀ x, length h ≤ x → h !!! x = inhabitant) as Hdef.
    { intros x Hx. rewrite list_lookup_total_alt.
      by rewrite lookup_ge_None_2. }
    assert (getLabel (h ++ [mkNode lbl [] false]) <$> node_list g
            = labels h g) as Hlab.
    { unfold labels. apply list_fmap_ext. intros i x Hx%list_elem_of_lookup_2.
      apply (elem_of_node_list h g _ Hh Hnl) in Hx.
      unfold getLabel. rewrite Hold; [done|lia]. }
    exists (h ++ [mkNode lbl [] false]),
      (mkGraph (number_of_states g) (node_list g ++ [length h])), (length h).
    split; [done|]. rewrite length_app. simpl.
    split; [lia|]. split.
    { rewrite Hnl. replace (length h + 1 - 1) with (S (length h - 1)) by lia.
      rewrite seq_S. do 2 f_equal. lia. }
    split; [done|].
    unfold labels at 1 2. simpl. rewrite !fmap_app, Hlab. simpl.
    unfold getLabel at 1 2. rewrite Hnew. simpl.
    split.
    { apply NoDup_app. split; [done|]. split; [|apply NoDup_singleton].
      intros x Hx ->%list_elem_of_singleton. done. }
    split.
    { intros l. rewrite elem_of_app, list_elem_of_singleton. done. }
    split.
    { intros x Hx. unfold getLabel. by rewrite Hold. }
    split.
    { intros x. unfold getAdjacentNodes.
      destruct (decide (x < length h)); [by rewrite Hold|].
      destruct (decide (x = length h)) as [->|].
      - by rewrite Hnew, Hdef.
      - by rewrite Hout, Hdef by lia. }
    split.
    { intros x. unfold isVisited.
      destruct (decide (x < length h)); [by rewrite Hold|].
      destruct (decide (x = length h)) as [->|].
      - by rewrite Hnew, Hdef.
      - by rewrite Hout, Hdef by lia. }
    split; [lia|]. unfold getLabel. by rewrite Hnew.
Qed.

(** [addEdge] only touches the adjacency list of the source: it gains the
    destination, unless a node with the label of the destination is there
    already. *)
Lemma addEdge_spec (h : heap) s d :
  s < length h →
  length (addEdge h s d) = length h ∧
  (∀ x, getLabel (addEdge h s d) x = getLabel h x) ∧
  (∀ x, isVisited (addEdge h s d) x = isVisited h x) ∧
  (∀ x u, u ∈ getAdjacentNodes (addEdge h s d) x →
     u ∈ getAdjacentNodes h x ∨ (x = s ∧ u = d)) ∧
  (∀ x u, u ∈ getAdjacentNodes h x → u ∈ getAdjacentNodes (addEdge h s d) x) ∧
  (d ∈ getAdjacentNodes (addEdge h s d) s ∨
   ∃ u, u ∈ getAdjacentNodes h s ∧ getLabel h u = getLabel h d).
Proof.
  intros Hs. unfold addEdge, Node_addEdge.
  destruct (Py.mem _ _) eqn:Hmem; simpl.
  { apply mem_true, list_elem_of_fmap in Hmem as (u & Hu & Hin).
    repeat split; try done; [by left|]. right. by exists u. }
  rewrite length_insert. split; [done|].
  unfold getLabel, isVisited, getAdjacentNodes.
  split; [|split; [|split; [|split]]].
  - intros x. destruct (decide (x = s)) as [->|].
    + by rewrite list_lookup_total_insert_eq.
    + by rewrite list_lookup_total_insert_ne.
  - intros x. destruct (decide (x = s)) as [->|].
    + by rewrite list_lookup_total_insert_eq.
    + by rewrite list_lookup_total_insert_ne.
  - intros x u. destruct (decide (x = s)) as [->|].
    + rewrite list_lookup_total_insert_eq by done. simpl.
      rewrite elem_of_app, list_elem_of_singleton. naive_solver.
    + rewrite list_lookup_total_insert_ne by done. auto.
  - intros x u. destruct (decide (x = s)) as [->|].
    + rewrite list_lookup_total_insert_eq by done. simpl.
      rewrite elem_of_app. auto.
    + by rewrite list_lookup_total_insert_ne.
  - left. rewrite list_lookup_total_insert_eq by done. simpl.
    rewrite elem_of_app, list_elem_of_singleton. auto.
Qed.

(** In a heap that holds an adjacency list for [r], [r] is an object. *)
Lemma adjacent_valid (h : heap) r u : u ∈ getAdjacentNodes h r → r < length h.
Proof.
  unfold getAdjacentNodes. intros Hu.
  destruct (decide (r < length h)) as [|Hge]; [done|]. exfalso.
  rewrite list_lookup_total_alt, lookup_ge_None_2 in Hu by lia.
  by apply elem_of_nil in Hu.
Qed.

(** Distinct nodes of the graph carry distinct labels. *)
Lemma label_inj (h : heap) g r u :
  node_list g = seq 1 (length h - 1) → NoDup (labels h g) →
  1 ≤ r < length h → 1 ≤ u < length h →
  getLabel h r = getLabel h u → r = u.
Proof.
  intros Hnl Hnd Hr Hu Heq. unfold labels in Hnd. rewrite Hnl in Hnd.
  assert ((getLabel h <$> seq 1 (length h - 1)) !! (r - 1)
          = Some (getLabel h r)) as H1.
  { rewrite list_lookup_fmap, lookup_seq_lt by lia. simpl. do 2 f_equal. lia. }
  assert ((getLabel h <$> seq 1 (length h - 1)) !! (u - 1)
          = Some (getLabel h r)) as H2.
  { rewrite list_lookup_fmap, lookup_seq_lt by lia. simpl. rewrite Heq.
    do 2 f_equal. lia. }
  pose proof (NoDup_lookup _ _ _ _ Hnd H1 H2). lia.
Qed.

Lemma edges_snoc ts s x d : edges (ts ++ [(s, x, d)]) = edges ts ++ [(s, d)].
Proof. unfold edges. by rewrite fmap_app. Qed.

Lemma endpoints_snoc ts s x d :
  endpoints (ts ++ [(s, x, d)]) = endpoints ts ++ [s; d].
Proof. unfold endpoints. by rewrite bind_app. Qed.

(** The loop that builds the graph ends without an exception and keeps
    [graph_inv]. *)
Lemma build_graph_inv a :
  well_formed a →
  ∃ h g init_node, build_graph a = Ok (h, g, init_node) ∧
    graph_inv a (transitions a) (h, g, init_node).
Proof.
  intros Hwf. unfold build_graph. simpl.
  match goal with |- context [for_fold _ ?body ?st] =>
    destruct (for_fold_inv (graph_inv a) (transitions a) body st)
      as ([[h g] init_node] & Hrun & Hinv) end.
  - simpl. split; [done|]. split; [done|]. split; [done|].
    split; [constructor|]. split; [done|].
    assert (∀ r u, u ∉ getAdjacentNodes [mkNode "" [] false] r) as Hno.
    { intros [|[|r]] u; unfold getAdjacentNodes; simpl; set_solver. }
    split; [intros r u Hu; by apply Hno in Hu|].
    split; [intros r u Hu; by apply Hno in Hu|].
    split; [intros s d Hsd; by apply elem_of_nil in Hsd|].
    split; [done|]. split; [by intros [|[|r]]|]. split; [lia|].
    simpl. set_solver.
  - intros done t rest [[h g] init_node] Hl
      (Hh & Hnl & Hn & Hnd & Hlab & Hadj & He1 & He2 & Hadj0 & Hvis & Hinit &
       Hlbl).
    destruct (well_formed_unpack a t Hwf) as ([[s x] d] & Ht & Ht').
    { rewrite Hl. set_solver. }
    rewrite Ht. simpl.
    destruct (addNode_spec h g s Hh Hnl Hnd)
      as (h1 & g1 & sn & -> & Hh1 & Hnl1 & Hn1 & Hnd1 & Hlab1 & Hold1 &
          Hadj1 & Hvis1 & Hsn & Hsnl).
    destruct (addNode_spec h1 g1 d ltac:(lia) Hnl1 Hnd1)
      as (h2 & g2 & dn & -> & Hh2 & Hnl2 & Hn2 & Hnd2 & Hlab2 & Hold2 &
          Hadj2 & Hvis2 & Hdn & Hdnl).
    destruct (addEdge_spec h2 sn dn ltac:(lia))
      as (Hh3 & Hlab3 & Hvis3 & Hadj3 & Hmono3 & Hnew3).
    set (h3 := addEdge h2 sn dn) in *.
    assert (labels h3 g2 = labels h2 g2) as Hlabels.
    { unfold labels. apply list_fmap_ext. intros ???. apply Hlab3. }
    assert (getLabel h3 sn = s) as Hs3.
    { rewrite Hlab3, Hold2; [done|lia]. }
    assert (getLabel h3 dn = d) as Hd3 by (by rewrite Hlab3).
    assert (∀ r, r < length h → getLabel h3 r = getLabel h r) as Hold3.
    { intros r Hr. rewrite Hlab3, Hold2, Hold1; [done|lia..]. }
    assert (∀ r, r ∈ node_list g → r ∈ node_list g2) as Hnodes.
    { intros r. rewrite Hnl, Hnl2, !elem_of_seq. lia. }
    assert (omap triple_of (done ++ [t]) = omap triple_of done ++ [(s, x, d)])
      as Hdone.
    { rewrite omap_app. simpl. by rewrite Ht'. }
    eexists; split; [done|]. simpl. rewrite Hdone.
    split; [lia|]. split; [by rewrite Hh3|]. split; [congruence|].
    split; [by rewrite Hlabels|]. split.
    { intros l. rewrite Hlabels, Hlab2, Hlab1, Hlab.
      rewrite endpoints_snoc, elem_of_app. set_solver. }
    split.
    { intros r u [Hu|[-> ->]]%Hadj3; [|lia].
      rewrite Hadj2, Hadj1 in Hu. apply Hadj in Hu. lia. }
    split.
    { intros r u [Hu|[-> ->]]%Hadj3; rewrite edges_snoc, elem_of_app.
      - rewrite Hadj2, Hadj1 in Hu. left.
        pose proof (adjacent_valid _ _ _ Hu). pose proof (Hadj _ _ Hu).
        rewrite !Hold3 by lia. by apply He1.
      - right. rewrite Hs3, Hd3. left. }
    split.
    { intros s' d'. rewrite edges_snoc, elem_of_app, list_elem_of_singleton.
      intros [Hsd|[= -> ->]].
      - destruct (He2 s' d' Hsd) as (r & u & Hr & Hu & <- & <- & Hru).
        exists r, u. split; [by apply Hnodes|]. split; [by apply Hnodes|].
        apply (elem_of_node_list h g _ Hh Hnl) in Hr, Hu.
        rewrite !Hold3 by lia. split; [done|]. split; [done|].
        apply Hmono3. by rewrite Hadj2, Hadj1.
      - exists sn, dn.
        split; [apply (elem_of_node_list h3 g2); [lia|by rewrite Hh3|lia]|].
        split; [apply (elem_of_node_list h3 g2); [lia|by rewrite Hh3|lia]|].
        split; [done|]. split; [done|].
        destruct Hnew3 as [Hin|(u & Hu & Hlu)]; [done|].
        assert (u = dn) as ->; [|by apply Hmono3].
        apply (label_inj h2 g2); [done|done| |lia|done].
        rewrite Hadj2, Hadj1 in Hu. apply Hadj in Hu. lia. }
    split.
    { destruct (getAdjacentNodes h3 0) as [|u l] eqn:E; [done|]. exfalso.
      destruct (Hadj3 0 u) as [Hu|[? _]]; [rewrite E; left| |lia].
      rewrite Hadj2, Hadj1, Hadj0 in Hu. by apply elem_of_nil in Hu. }
    split.
    { intros r. by rewrite Hvis3, Hvis2, Hvis1. }
    rewrite Hs3, Hd3.
    assert (∀ l, l ∈ labels h3 g2 ↔ l ∈ labels h g ∨ l = s ∨ l = d) as Hall.
    { intros l. rewrite Hlabels, Hlab2, Hlab1. tauto. }
    case_bool_decide as Hd; [|case_bool_decide as Hs].
    + split; [lia|]. rewrite decide_False by lia. by rewrite Hd3.
    + split; [lia|]. rewrite decide_False by lia. by rewrite Hs3.
    + split; [lia|]. destruct (decide (init_node = 0)) as [->|Hne].
      * rewrite Hall. naive_solver.
      * by rewrite Hold3.
  - by exists h, g, init_node.
Qed.

End graph_building.

(** ** The connectivity check *)

Section connectivity.
Import Graph Converter Spec.



(** The traversal from [init_node] ends within the depth [isRegular] grants
    it; it reaches the nodes that the edges lead to from [init_node]: the
    unlabelled node alone, or distinct nodes of the graph. *)
Lemma traversal_spec a h g init_node :
  graph_inv a (transitions a) (h, g, init_node) →
  ∃ h' new, depthFirstSearch (length h) h init_node [] = Some (h', new) ∧
    NoDup new ∧
    (∀ r, r ∈ new ↔ rtc (adjacent h) init_node r) ∧
    (init_node = 0 → length new = 1) ∧
    (init_node ≠ 0 → (∀ r, r ∈ new → r ∈ node_list g) ∧
                     length new ≤ length (labels h g)).
Proof.
  intros (Hh & Hnl & Hn & Hnd & Hlab & Hadj & _ & _ & Hadj0 & Hvis & Hinit &
          Hlbl).
  destruct (decide (init_node = 0)) as [->|Hne].
  - destruct (depthFirstSearch_reachable (λ r, r = 0) h 0)
      as (h' & new & Hrun & Hndn & Hnew & Hreach); [|done|done|].
    { intros r ->. split; [lia|]. rewrite Hadj0. set_solver. }
    exists h', new. split; [done|]. split; [done|]. split; [done|].
    split; [|done]. intros _.
    assert (0 ∈ new) as Hin by by apply Hreach.
    destruct new as [|x [|y new]]; simpl; [set_solver|done|].
    exfalso. assert (x = 0) by (apply Hnew; set_solver).
    assert (y = 0) by (apply Hnew; set_solver). subst.
    apply NoDup_cons in Hndn as [Hx _]. set_solver.
  - destruct (depthFirstSearch_reachable (λ r, 1 ≤ r < length h) h init_node)
      as (h' & new & Hrun & Hndn & Hnew & Hreach); [|lia|done|].
    { intros r Hr. split; [lia|]. intros u Hu. by eapply Hadj. }
    exists h', new. split; [done|]. split; [done|]. split; [done|].
    split; [done|]. intros _.
    assert (∀ r, r ∈ new → r ∈ node_list g) as Hsub.
    { intros r Hr. rewrite Hnl. apply elem_of_seq.
      specialize (Hnew r Hr). simpl in Hnew. lia. }
    split; [done|]. unfold labels. rewrite length_fmap.
    by apply submseteq_length, NoDup_submseteq.
Qed.

(** The connectivity check compares the number of nodes reached with the
    number of declared states, and never fails in another way. *)
Lemma validate_error6_reached a :
  well_formed a →
  ∃ n, reached a = Some n ∧
    validate_error6 a =
      if Nat.eqb n (length (states a)) then Ok ()
      else Raise DisjointStatesException.
Proof.
  intros Hwf. unfold reached, validate_error6, isRegular.
  destruct (build_graph_inv a Hwf) as (h & g & init_node & -> & Hinv). simpl.
  destruct (traversal_spec a h g init_node Hinv) as (h' & new & -> & _).
  destruct Hinv as (_ & _ & -> & _). simpl.
  exists (length new). split; [done|]. by destruct (Nat.eqb _ _).
Qed.






End connectivity.

(** ** The determinism check *)

Section determinism.
Import Converter Spec.

Lemma remove_dups_length_le (l : list string) :
  length (remove_dups l) ≤ length l.
Proof.
  induction l as [|x l IH]; simpl; [done|].
  destruct (decide_rel _ _ _); simpl; lia.
Qed.

Lemma has_duplicates_true (l : list string) :
  Py.has_duplicates l = true ↔ ¬NoDup l.
Proof.
  unfold Py.has_duplicates. rewrite negb_true_iff, Nat.eqb_neq.
  induction l as [|x l IH]; simpl.
  - split; [done|]. intros H. destruct H. constructor.
  - rewrite NoDup_cons. pose proof (remove_dups_length_le l).
    destruct (decide_rel _ _ _) as [Hin|Hnin]; simpl.
    + split; [tauto|intros _; lia].
    + destruct IH as [IH1 IH2]. split.
      * intros Hl [_ Hnd]. apply IH1; [lia|done].
      * intros Hnd Hl. apply IH2; [tauto|lia].
Qed.

Lemma has_duplicates_false (l : list string) :
  Py.has_duplicates l = false ↔ NoDup l.
Proof.
  destruct (Py.has_duplicates l) eqn:E.
  - apply has_duplicates_true in E. split; [done|tauto].
  - split; [|done]. intros _. destruct (decide (NoDup l)) as [|Hn]; [done|].
    apply has_duplicates_true in Hn. congruence.
Qed.

Lemma dict_get_append d k v k' :
  dict_get (dict_append d k v) k' =
    if bool_decide (k' = k) then dict_get d k ++ [v] else dict_get d k'.
Proof.
  induction d as [|[k0 vs] d IH]; simpl.
  - repeat case_bool_decide; naive_solver.
  - destruct (decide (k0 = k)) as [->|Hne].
    + rewrite (bool_decide_true (k = k)) by done. simpl.
      repeat case_bool_decide; naive_solver.
    + rewrite (bool_decide_false (k0 = k)) by done. simpl. rewrite IH.
      repeat case_bool_decide; naive_solver.
Qed.

Lemma dict_append_keys d k v x :
  x ∈ (dict_append d k v).*1 ↔ x ∈ d.*1 ∨ x = k.
Proof.
  induction d as [|[k0 vs] d IH]; simpl.
  - set_solver.
  - case_bool_decide; simpl; rewrite !elem_of_cons; [naive_solver|].
    rewrite IH. tauto.
Qed.

Lemma dict_append_NoDup d k v : NoDup d.*1 → NoDup (dict_append d k v).*1.
Proof.
  induction d as [|[k0 vs] d IH]; simpl; intros Hnd.
  - apply NoDup_singleton.
  - apply NoDup_cons in Hnd as [Hk0 Hnd].
    case_bool_decide; simpl; apply NoDup_cons; [done|].
    split; [|auto]. rewrite dict_append_keys. naive_solver.
Qed.

Lemma dict_values d vs :
  NoDup d.*1 → vs ∈ d.*2 ↔ ∃ k, k ∈ d.*1 ∧ vs = dict_get d k.
Proof.
  induction d as [|[k0 vs0] d IH]; simpl; intros Hnd.
  - set_solver.
  - apply NoDup_cons in Hnd as [Hk0 Hnd]. rewrite elem_of_cons, IH by done.
    split.
    + intros [->|(k & Hk & ->)].
      * exists k0. rewrite bool_decide_true by done. split; [left|done].
      * exists k. rewrite bool_decide_false by set_solver. split; [by right|done].
    + intros (k & Hk & ->). apply elem_of_cons in Hk as [->|Hk].
      * left. by rewrite bool_decide_true.
      * right. exists k. rewrite bool_decide_false by set_solver. done.
Qed.

Lemma out_symbols_snoc ts s x d k :
  out_symbols (ts ++ [(s, x, d)]) k =
    if bool_decide (k = s) then out_symbols ts k ++ [x] else out_symbols ts k.
Proof.
  unfold out_symbols. rewrite omap_app. simpl.
  repeat case_bool_decide; simplify_eq; simpl; by rewrite ?app_nil_r.
Qed.

(** The dictionary the loop builds: one key per source state, holding the
    symbols that leave it. *)
Lemma group_by_source a :
  well_formed a →
  ∃ d, for_fold (transitions a) (λ transition d,
         '(s_state, s_transition, _) ← unpack transition;
         Ok (dict_append d s_state s_transition)) [] = Ok d ∧
    NoDup d.*1 ∧
    (∀ k, dict_get d k = out_symbols (triples a) k) ∧
    (∀ k, k ∈ d.*1 → out_symbols (triples a) k ≠ []).
Proof.
  intros Hwf.
  match goal with |- context [for_fold _ ?body ?st] =>
    destruct (for_fold_inv (λ done d,
      NoDup d.*1 ∧
      (∀ k, dict_get d k = out_symbols (omap triple_of done) k) ∧
      (∀ k, k ∈ d.*1 → out_symbols (omap triple_of done) k ≠ []))
      (transitions a) body st) as (d & Hrun & Hinv) end.
  - split; [constructor|]. split; [done|]. set_solver.
  - intros done t rest d Hl (Hnd & Hget & Hkeys).
    destruct (well_formed_unpack a t Hwf) as ([[s x] d0] & Ht & Ht').
    { rewrite Hl. set_solver. }
    rewrite Ht. simpl. eexists; split; [done|].
    rewrite omap_app. simpl. rewrite Ht'. simpl.
    split; [by apply dict_append_NoDup|]. split.
    + intros k. rewrite dict_get_append, out_symbols_snoc, !Hget.
      by case_bool_decide; simplify_eq.
    + intros k Hk. rewrite out_symbols_snoc.
      case_bool_decide; [by destruct (out_symbols _ k)|].
      apply dict_append_keys in Hk as [Hk| ->]; [auto|done].
  - by exists d.
Qed.

Lemma for_each_Raise {A} (l : list A) (body : A → result unit) e :
  (∀ x e', body x = Raise e' → e' = e) →
  (∃ x, x ∈ l ∧ body x = Raise e) → for_each l body = Raise e.
Proof.
  intros Honly (x & Hx & Hr). unfold for_each.
  induction l as [|y l IH]; [set_solver|]. simpl.
  destruct (body y) as [[]|e'] eqn:E; simpl.
  - apply IH. apply elem_of_cons in Hx as [->|Hx]; [congruence|done].
  - f_equal. by eapply Honly.
Qed.

(** What the determinism check answers. *)
Lemma validate_error7_spec a :
  well_formed a →
  validate_error7 a =
    if bool_decide (automaton_type a = "deterministic" ∧
                    Exists (λ s, ¬NoDup (out_symbols (triples a) s))
                           (triples a).*1.*1)
    then Raise InvalidFSATypeException else Ok ().
Proof.
  intros Hwf. unfold validate_error7.
  destruct (decide (automaton_type a = "deterministic")) as [Hty|Hty].
  2: { rewrite (bool_decide_false (automaton_type a = _)) by done.
       rewrite bool_decide_false by tauto. done. }
  rewrite (bool_decide_true (automaton_type a = _)) by done.
  destruct (group_by_source a Hwf) as (d & -> & Hnd & Hget & Hkeys). simpl.
  case_bool_decide as Hex.
  - destruct Hex as [_ (s & Hs & Hdup)%Exists_exists].
    apply for_each_Raise.
    { intros l e'. by destruct (Py.has_duplicates l); [intros [= <-]|]. }
    exists (dict_get d s). split.
    + apply dict_values; [done|]. exists s. split; [|done].
      destruct (decide (s ∈ d.*1)) as [|Hn]; [done|]. exfalso.
      apply Hdup. rewrite <- Hget.
      assert (dict_get d s = []) as ->; [|constructor].
      clear -Hn. induction d as [|[k vs] d IH]; simpl; [done|].
      rewrite bool_decide_false by set_solver. apply IH. set_solver.
    + rewrite Hget. apply has_duplicates_true in Hdup. by rewrite Hdup.
  - apply for_each_Ok, Forall_forall. intros l Hl.
    apply dict_values in Hl as (k & Hk & ->); [|done].
    rewrite Hget. destruct (Py.has_duplicates _) eqn:E; [|done].
    exfalso. apply Hex. split; [done|]. apply Exists_exists.
    exists k. split; [|by apply has_duplicates_true].
    specialize (Hkeys k Hk). clear -Hkeys.
    induction (triples a) as [|[[s x] d'] ts IH]; simpl in *; [done|].
    case_bool_decide; [subst; left|right; by apply IH].
Qed.

Lemma out_symbols_elem ts s x d :
  (s, x, d) ∈ ts → x ∈ out_symbols ts s.
Proof.
  intros Hin. unfold out_symbols. apply list_elem_of_omap.
  exists (s, x, d). split; [done|]. by rewrite bool_decide_true.
Qed.

Lemma repeated_symbol_dup a :
  repeated_symbol a →
  Exists (λ s, ¬NoDup (out_symbols (triples a) s)) (triples a).*1.*1.
Proof.
  intros (i & j & s & x & d1 & d2 & Hne & Hi & Hj).
  apply Exists_exists. exists s. split.
  { apply list_elem_of_fmap. exists (s, x). split; [done|].
    apply list_elem_of_fmap. exists (s, x, d1). split; [done|].
    by eapply list_elem_of_lookup_2. }
  cut (∀ i j d1 d2, i < j → triples a !! i = Some (s, x, d1) →
         triples a !! j = Some (s, x, d2) →
         ¬NoDup (out_symbols (triples a) s)).
  { intros H. destruct (decide (i < j)); [by eapply (H i j)|].
    eapply (H j i); [lia|done..]. }
  clear. intros i j d1 d2 Hlt Hi Hj Hnd.
  rewrite <- (take_drop_middle _ _ _ Hi) in Hnd.
  unfold out_symbols in Hnd. rewrite omap_app in Hnd. simpl in Hnd.
  rewrite bool_decide_true in Hnd by done.
  apply NoDup_app in Hnd as (_ & _ & [Hx _]%NoDup_cons). apply Hx.
  apply (out_symbols_elem _ s x d2).
  apply list_elem_of_lookup. exists (j - S i).
  rewrite lookup_drop. rewrite <- Hj. f_equal. lia.
Qed.

End determinism.

(** ** The blocks of [__validate] against the checks of the specification *)

Section checks.
Import Converter Spec.

Lemma validate_error1_check a :
  validate_error1 a = first_failure [check1 a].
Proof.
  unfold validate_error1, check1.
  destruct (decide (NoDup (transitions a))) as [H|H]; simpl.
  - apply has_duplicates_false in H. by rewrite H.
  - apply has_duplicates_true in H. by rewrite H.
Qed.

Lemma validate_error2_check a :
  validate_error2 a = first_failure [check2 a].
Proof.
  unfold validate_error2, check2, Py.mem.
  repeat (case_bool_decide || case_decide); simpl; done.
Qed.

Lemma validate_error3_check a :
  validate_error3 a = first_failure [check3 a].
Proof.
  unfold validate_error3, check3. by destruct (accepting_states a).
Qed.

Lemma validate_error4_check a :
  validate_error4 a = first_failure [check4 a].
Proof.
  unfold validate_error4, check4, for_each.
  induction (accepting_states a) as [|s l IH]; simpl; [done|].
  destruct (Py.mem s (states a)) eqn:E; simpl.
  - apply mem_true in E. rewrite decide_False by tauto. rewrite IH.
    by destruct (list_find _ l) as [[??]|].
  - apply mem_false in E. by rewrite decide_True.
Qed.

Lemma transition_body_violation a transition :
  ('(s_state, s_transition, d_state) ← unpack transition;
   if bool_decide (s_state = "") then Raise InputIsMalformedException
   else if negb (Py.mem s_state (states a))
   then Raise (InvalidStateException s_state)
   else if negb (Py.mem d_state (states a))
   then Raise (InvalidStateException d_state)
   else if negb (Py.mem s_transition (alphabet a))
   then Raise (InvalidTransitionException s_transition)
   else Ok ())
  = match violation a transition with Some e => Raise e | None => Ok () end.
Proof.
  unfold unpack, violation, Py.mem.
  destruct (Py.split ">" transition) as [|s [|x [|d [|??]]]]; simpl; try done.
  repeat (case_bool_decide || case_decide); simpl; done.
Qed.

Lemma validate_error5_check a :
  validate_error5 a = first_failure [check5 a].
Proof.
  unfold validate_error5, check5, for_each.
  induction (transitions a) as [|t l IH]; simpl; [done|].
  rewrite transition_body_violation.
  destruct (violation a t); simpl; [done|]. apply IH.
Qed.

Lemma check5_well_formed a : check5 a = Pass → well_formed a.
Proof.
  intros H. apply validate_error5_well_formed.
  by rewrite validate_error5_check, H.
Qed.

Lemma validate_error6_check a :
  well_formed a → validate_error6 a = first_failure [check6 a].
Proof.
  intros Hwf. destruct (validate_error6_reached a Hwf) as (n & Hn & ->).
  unfold check6. rewrite Hn.
  destruct (Nat.eqb_spec n (length (states a))).
  - by rewrite decide_True.
  - by rewrite decide_False.
Qed.

Lemma validate_error7_check a :
  well_formed a → validate_error7 a = first_failure [check7 a].
Proof.
  intros Hwf. rewrite validate_error7_spec by done. unfold check7.
  by repeat (case_bool_decide || case_decide).
Qed.

(** [__validate] is the seven checks in order, stopping at the first that
    fails. *)
Lemma validate_first_failure a :
  validate a = first_failure
    [check1 a; check2 a; check3 a; check4 a; check5 a; check6 a; check7 a].
Proof.
  unfold validate.
  rewrite validate_error1_check, validate_error2_check, validate_error3_check,
    validate_error4_check, validate_error5_check.
  destruct (check1 a); simpl; [|done].
  destruct (check2 a); simpl; [|done].
  destruct (check3 a); simpl; [|done].
  destruct (check4 a); simpl; [|done].
  destruct (check5 a) eqn:H5; simpl; [|done].
  apply check5_well_formed in H5.
  rewrite validate_error6_check, validate_error7_check by done.
  destruct (check6 a); simpl; [|done]. by destruct (check7 a).
Qed.

(** With an accepting state declared, no check gives the error for an
    empty accepting set. *)
Lemma validate_never_no_accepting a :
  accepting_states a ≠ [] → validate a ≠ Raise NoAcceptingStatesException.
Proof.
  intros Hacc. rewrite validate_first_failure.
  assert (check3 a = Pass) as ->.
  { unfold check3. by rewrite decide_False. }
  assert (∀ e, check1 a = Fail e → e ≠ NoAcceptingStatesException) as H1.
  { unfold check1. intros e. case_decide; naive_solver. }
  assert (∀ e, check2 a = Fail e → e ≠ NoAcceptingStatesException) as H2.
  { unfold check2. intros e. repeat case_decide; naive_solver. }
  assert (∀ e, check4 a = Fail e → e ≠ NoAcceptingStatesException) as H4.
  { unfold check4. intros e. destruct (list_find _ _) as [[??]|]; naive_solver. }
  assert (∀ e, check5 a = Fail e → e ≠ NoAcceptingStatesException) as H5.
  { unfold check5. intros e.
    destruct (omap _ _) as [|e' l] eqn:E; [done|]. intros [= ->].
    assert (e ∈ omap (violation a) (transitions a)) as Hin by (rewrite E; left).
    apply list_elem_of_omap in Hin as (t & _ & Ht). revert Ht.
    unfold violation.
    destruct (Py.split ">" t) as [|s [|x [|d [|??]]]];
      repeat case_decide; naive_solver. }
  assert (∀ e, check6 a = Fail e → e ≠ NoAcceptingStatesException) as H6.
  { unfold check6. intros e. destruct (reached a); [|done].
    case_decide; naive_solver. }
  assert (∀ e, check7 a = Fail e → e ≠ NoAcceptingStatesException) as H7.
  { unfold check7. intros e. case_decide; naive_solver. }
  simpl.
  destruct (check1 a); [|intros [= ?]; by eapply H1].
  destruct (check2 a); [|intros [= ?]; by eapply H2].
  destruct (check4 a); [|intros [= ?]; by eapply H4].
  destruct (check5 a); [|intros [= ?]; by eapply H5].
  destruct (check6 a); [|intros [= ?]; by eapply H6].
  destruct (check7 a); [done|intros [= ?]; by eapply H7].
Qed.

(** The blocks before the last do not look at the declared type. *)
Lemma validate_with_type ty a :
  validate (with_type ty a) =
    (validate_error1 a;; validate_error2 a;; validate_error3 a;;
     validate_error4 a;; validate_error5 a;; validate_error6 a;;
     validate_error7 (with_type ty a)).
Proof. reflexivity. Qed.

End checks.

(** ** What [__extract] guarantees *)

Section extraction.
Import Converter Spec.

Lemma extract_fields file a :
  extract file = Ok a →
  ∃ ty sts alph init acc trs,
    a = mkAutomaton ty (Py.sorted_set (Py.split "," sts)) (Py.split "," alph)
          init (Py.split "," acc) (Py.split "," trs).
Proof.
  unfold extract, extract_try. intros H.
  destruct (read_lines 0 file []) as [pv|]; simpl in H; [|done].
  destruct (field pv 0) as [ty|]; simpl in H; [|done].
  destruct (field pv 1) as [sts|]; simpl in H; [|done].
  destruct (field pv 2) as [alph|]; simpl in H; [|done].
  destruct (field pv 3) as [init|]; simpl in H; [|done].
  destruct (field pv 4) as [acc|]; simpl in H; [|done].
  destruct (field pv 5) as [trs|]; simpl in H; [|done].
  simplify_eq. by exists ty, sts, alph, init, acc, trs.
Qed.

Lemma extract_raises file e :
  extract file = Raise e → e = InputIsMalformedException.
Proof. unfold extract. destruct (extract_try file); naive_solver. Qed.

(** The state names are distinct, and no list of the model is empty: a
    bracket group is never empty and [split] never returns an empty list. *)
Lemma extract_invariants file a :
  extract file = Ok a →
  NoDup (states a) ∧ states a ≠ [] ∧ alphabet a ≠ [] ∧
  accepting_states a ≠ [] ∧ transitions a ≠ [].
Proof.
  intros (ty & sts & alph & init & acc & trs & ->)%extract_fields. simpl.
  split; [|split; [|auto using split_nonempty]].
  - unfold Py.sorted_set. rewrite merge_sort_Permutation.
    apply NoDup_remove_dups.
  - unfold Py.sorted_set. intros H.
    assert (remove_dups (Py.split "," sts) ≡ₚ []) as Hp.
    { by rewrite <- H, merge_sort_Permutation. }
    apply Permutation_nil_r in Hp.
    pose proof (split_nonempty "," sts) as Hne.
    destruct (Py.split "," sts) as [|x l]; [done|].
    assert (x ∈ remove_dups (x :: l)) as Hx.
    { apply elem_of_remove_dups. left. }
    rewrite Hp in Hx. by apply elem_of_nil in Hx.
Qed.

End extraction.

(** ** The final assembly *)

Section assembly.
Import Converter Spec.

Lemma drop_last_bars parts :
  parts ≠ [] → Py.drop_last (bars parts) = String.concat "|" parts.
Proof.
  destruct parts as [|y l _] using rev_ind; [done|]. intros _.
  rewrite bars_snoc, concat_snoc, <- string_app_assoc.
  rewrite (drop_last_app_cons _ "|" ""). simpl. apply string_app_nil_r.
Qed.

Lemma row_parts_snoc a m row done i state :
  states a !! i = Some state →
  row_parts a m row (done ++ [i]) =
    row_parts a m row done ++
    (if Py.mem state (accepting_states a)
     then ["(" +:+ cell_text m row i +:+ ")"] else []).
Proof.
  intros Hi. unfold row_parts. rewrite omap_app. simpl. rewrite Hi. simpl.
  by destruct (Py.mem state (accepting_states a)).
Qed.

(** The loop over the state indices reads row 0 of the matrix. *)
Lemma collect_answer_spec a m :
  square (length (states a)) m →
  collect_answer a m =
    Ok (bars (row_parts a m 0 (seq 0 (length (states a)))),
        length (row_parts a m 0 (seq 0 (length (states a))))).
Proof.
  intros Hsq. unfold collect_answer, range.
  match goal with |- for_fold _ ?body ?st = _ =>
    destruct (for_fold_inv (λ done '(answer, path),
      answer = bars (row_parts a m 0 done) ∧
      path = length (row_parts a m 0 done))
      (seq 0 (length (states a))) body st) as ([answer path] & -> & -> & ->)
  end; [done| |done].
  intros done i rest [answer path] Hl [-> ->].
  assert (i < length (states a)) as Hi.
  { assert (i ∈ seq 0 (length (states a))) as Hin by (rewrite Hl; set_solver).
    apply elem_of_seq in Hin. lia. }
  destruct (lookup_lt_is_Some_2 _ _ Hi) as [state Hstate].
  rewrite Hstate. simpl. rewrite (row_parts_snoc _ _ _ _ _ state) by done.
  destruct (Py.mem state (accepting_states a)).
  - destruct (square_cell _ m 0 i Hsq) as [c Hc]; [lia|done|].
    rewrite (get_cell_at _ _ _ _ Hc). simpl.
    eexists; split; [done|]. rewrite (cell_text_cell_at _ _ _ _ Hc).
    rewrite bars_snoc, length_app. simpl. split; [|done].
    by rewrite !string_app_assoc.
  - eexists; split; [done|]. by rewrite app_nil_r.
Qed.

(** For a validated automaton the construction ends without an exception,
    and what it returns is the alternation over row 0 of the matrix left by
    the last elimination step. *)
Lemma construct_spec a :
  well_formed a →
  ∃ base final,
    buildInitialRegExp a = Ok base ∧
    kleene_steps (length (states a)) (range (length (states a))) base
      = Ok final ∧
    square (length (states a)) final ∧
    construct a = Ok (alternation_of_row a final 0).
Proof.
  intros Hwf. unfold construct.
  destruct (buildInitialRegExp_total a Hwf) as (base & Hbase & Hsq & _).
  destruct (kleene_steps_total _ base (length (states a)) Hsq)
    as (final & Hfinal & Hsqf); [done|].
  exists base, final. rewrite Hbase. simpl. rewrite Hfinal. simpl.
  rewrite collect_answer_spec by done. simpl.
  split; [done|]. split; [done|]. split; [done|].
  unfold alternation_of_row.
  destruct (row_parts a final 0 (seq 0 (length (states a)))) as [|p ps] eqn:E;
    [done|].
  simpl length. cbv iota. by rewrite drop_last_bars.
Qed.

End assembly.

(** ** Languages of expressions *)

Section languages.
Import Regex.

(** A language of words over one symbol is closed under the operations
    that build words. *)
Lemma star_Forall (P : string → Prop) (L : list string → Prop) w :
  (∀ u, L u → Forall P u) → star L w → Forall P w.
Proof.
  intros H. induction 1; [constructor|]. apply Forall_app. auto.
Qed.

Lemma star_eps w : star (lang Eps) w → w = [].
Proof. induction 1 as [|u v Hu _ IH]; [done|]. simpl in Hu. by subst. Qed.

Lemma Forall_eq_replicate (x : string) w :
  Forall (λ y, y = x) w ↔ ∃ n, w = replicate n x.
Proof.
  split.
  - intros H. exists (length w). induction H as [|y w -> _ IH]; [done|].
    simpl. by rewrite <- IH.
  - intros [n ->]. by apply Forall_replicate.
Qed.

End languages.

(** * The claims *)

(** Input files and automata used as examples. *)

Module Inputs.
Import Converter.

(** The lines of a text file: each one ends with a newline. *)
Definition newline : string := String "010"%char "".
Definition text (lines : list string) : list string :=
  (λ line, line +:+ newline) <$> lines.

Definition file_trivial : list string :=
  text ["type=[deterministic]"; "states=[q0]"; "alphabet=[a]";
        "initial=[q0]"; "accepting=[q0]"; "transitions=[q0>a>q0]"].

Definition file_trivial_nfa : list string :=
  text ["type=[non-deterministic]"; "states=[q0]"; "alphabet=[a]";
        "initial=[q0]"; "accepting=[q0]"; "transitions=[q0>a>q0]"].

Definition trivial (ty : string) : automaton :=
  mkAutomaton ty ["q0"] ["a"] "q0" ["q0"] ["q0>a>q0"].

(** The initial state [q1] sorts after [q0]. *)
Definition file_initial_last : list string :=
  text ["type=[deterministic]"; "states=[q0,q1]"; "alphabet=[a]";
        "initial=[q1]"; "accepting=[q0]"; "transitions=[q1>a>q0]"].

Definition initial_last : automaton :=
  mkAutomaton "deterministic" ["q0"; "q1"] ["a"] "q1" ["q0"] ["q1>a>q0"].

Definition file_empty_accepting : list string :=
  text ["type=[deterministic]"; "states=[q0]"; "alphabet=[a]";
        "initial=[q0]"; "accepting=[]"; "transitions=[q0>a>q0]"].

(** [q2] is declared and no transition mentions it. *)
Definition file_unreferenced : list string :=
  text ["type=[deterministic]"; "states=[q0,q1,q2]"; "alphabet=[a]";
        "initial=[q0]"; "accepting=[q1]"; "transitions=[q0>a>q1]"].


(** Two transitions leave [q0] on [a]. *)
Definition branching (ty : string) : automaton :=
  mkAutomaton ty ["q0"; "q1"; "q2"] ["a"] "q0" ["q1"]
    ["q0>a>q1"; "q0>a>q2"].

End Inputs.

Section claims.
Import Converter Spec Regex Inputs.

(** C1, the program at the input [file_initial_last]: states [q0, q1],
    initial state [q1] (index 1 in the sorted order), accepting state [q0],
    one transition [q1>a>q0].  The printed expression is the alternation
    over row 0 of the final matrix and not over row 1, the row of the
    initial state; it denotes the language of the empty word alone, while
    the automaton accepts the word [a] and rejects the empty word. *)
Theorem convert_reads_row_0_not_initial_row :
  ∃ final answer r,
    extract_and_validate file_initial_last = Ok initial_last ∧
    initial_index initial_last = Some 1 ∧
    (base ← buildInitialRegExp initial_last;
     kleene_steps 2 (range 2) base) = Ok final ∧
    main file_initial_last = mkOutcome [answer] 0 None ∧
    answer = alternation_of_row initial_last final 0 ∧
    answer ≠ alternation_of_row initial_last final 1 ∧
    parse (alphabet initial_last) answer = Some r ∧
    (∀ w, lang r w ↔ w = []) ∧
    accepts initial_last ["a"] = true ∧
    accepts initial_last [] = false.
Proof.
  eexists _, _, _.
  split; [vm_compute; reflexivity|].
  split; [vm_compute; reflexivity|].
  split; [vm_compute; reflexivity|].
  split; [vm_compute; reflexivity|].
  split; [vm_compute; reflexivity|].
  split; [by vm_compute|].
  split; [vm_compute; reflexivity|].
  split; [|by vm_compute].
  intros w. simpl. split.
  - intros [(u & v & _ & [(? & ? & _ & _ & ? & ? & _ & _ & [])|[]] & _)|H].
    destruct H as [(u & v & -> & -> & u' & v' & -> & ->%star_eps & ->)| ->];
      done.
  - intros ->. by right; right.
Qed.

(** C2: for the automaton with the single state [q0], alphabet [{a}],
    initial state [q0], accepting states [{q0}] and the transition
    [q0>a>q0], whatever its declared type, validation passes and the
    expression that [convert] returns reads as an expression whose language
    is exactly the words [a ... a] of any length, the empty word included;
    the same holds for the two input files that describe it. *)
Theorem trivial_automaton_denotes_a_star :
  ∃ answer r,
    (∀ ty, validate (trivial ty) = Ok () ∧ construct (trivial ty) = Ok answer) ∧
    main file_trivial = mkOutcome [answer] 0 None ∧
    main file_trivial_nfa = mkOutcome [answer] 0 None ∧
    parse ["a"] answer = Some r ∧
    ∀ w, lang r w ↔ ∃ n, w = replicate n "a".
Proof.
  eexists _, _. split; [|split; [|split; [|split]]].
  - intros ty. split; [|vm_compute; reflexivity].
    change (trivial ty) with (with_type ty (trivial "")).
    rewrite validate_with_type.
    change (validate_error7 (with_type ty (trivial "")) = Ok ()).
    unfold validate_error7. case_bool_decide; [|done]. by vm_compute.
  - vm_compute; reflexivity.
  - vm_compute; reflexivity.
  - vm_compute; reflexivity.
  - assert (∀ u, lang (Alt (Sym "a") Eps) u → Forall (λ y, y = "a") u) as Hunit.
    { intros u [->| ->]; repeat constructor. }
    intros w. rewrite <- Forall_eq_replicate. split.
    + intros [(u & v & -> & Hu & v1 & v2 & -> & Hv1 & Hv2)|H]; [|by apply Hunit].
      apply Forall_app. split; [by apply Hunit|].
      apply Forall_app. split; [|by apply Hunit].
      by apply (star_Forall _ _ _ Hunit).
    + intros H. left. exists [], w. split; [done|]. split; [by right|].
      exists w, []. split; [by rewrite app_nil_r|]. split; [|by right].
      induction H as [|y w -> _ IH]; [constructor|].
      apply (star_app _ ["a"] w); [by left|done].
Qed.








(** C7: for every automaton whose transition tokens have their three
    fields and in which some state has two transitions with the same
    symbol, the determinism check raises [InvalidFSATypeException] when the
    automaton is declared [deterministic] and passes, without looking at
    the transitions, when the identical automaton is declared
    [non-deterministic]; when the latter passes the whole validation, the
    validation of the former raises [InvalidFSATypeException]. *)
Theorem repeated_symbol_raises_only_when_declared_deterministic
    (a : automaton) :
  well_formed a → repeated_symbol a →
  validate_error7 (with_type "deterministic" a)
    = Raise InvalidFSATypeException ∧
  validate_error7 (with_type "non-deterministic" a) = Ok () ∧
  (validate (with_type "non-deterministic" a) = Ok () →
   validate (with_type "deterministic" a) = Raise InvalidFSATypeException).
Proof.
  intros Hwf Hrep.
  assert (validate_error7 (with_type "deterministic" a)
          = Raise InvalidFSATypeException) as H7.
  { rewrite validate_error7_spec by done.
    rewrite bool_decide_true; [done|]. split; [done|].
    by apply repeated_symbol_dup. }
  split; [done|]. split; [done|].
  rewrite !validate_with_type, H7. intros Hval.
  destruct (validate_error1 a) as [[]|]; simpl in *; [|done].
  destruct (validate_error2 a) as [[]|]; simpl in *; [|done].
  destruct (validate_error3 a) as [[]|]; simpl in *; [|done].
  destruct (validate_error4 a) as [[]|]; simpl in *; [|done].
  destruct (validate_error5 a) as [[]|]; simpl in *; [|done].
  by destruct (validate_error6 a) as [[]|].
Qed.

Lemma repeated_symbol_raises_only_when_declared_deterministic_witness :
  validate (branching "non-deterministic") = Ok () ∧
  validate (branching "deterministic") = Raise InvalidFSATypeException.
Proof.
  destruct (repeated_symbol_raises_only_when_declared_deterministic
              (branching "")) as (_ & _ & H).
  - unfold well_formed. apply (bool_decide_unpack _). vm_compute. exact I.
  - exists 0, 1, "q0", "a", "q1", "q2". vm_compute.
    split; [discriminate|]. split; reflexivity.
  - split; [vm_compute; reflexivity|]. apply H. vm_compute. reflexivity.
Defined.

(** C8, the program at the input [file_empty_accepting], whose accepting
    line is [accepting=[]]: [__extract] rejects the line and the program
    prints [E1: Input file is malformed], not the error for an empty
    accepting set.  No input file leads to that error: every model that
    [__extract] returns has an accepting state.  The check itself does
    what its comment says on a model with no accepting state. *)
Theorem empty_accepting_set_reported_as_malformed :
  extract file_empty_accepting = Raise InputIsMalformedException ∧
  main file_empty_accepting
    = mkOutcome ["E1: Input file is malformed"] 0 None ∧
  (∀ file a, extract file = Ok a → validate_error3 a = Ok ()) ∧
  (∀ file e, extract_and_validate file = Raise e →
     e ≠ NoAcceptingStatesException) ∧
  (∀ a, accepting_states a = [] →
     validate_error3 a = Raise NoAcceptingStatesException).
Proof.
  split; [vm_compute; reflexivity|]. split; [vm_compute; reflexivity|].
  assert (∀ file a, extract file = Ok a → validate_error3 a = Ok ()) as H3.
  { intros file a (_ & _ & _ & Hacc & _)%extract_invariants.
    unfold validate_error3. by destruct (accepting_states a). }
  split; [done|]. split.
  - intros file e. unfold extract_and_validate.
    destruct (extract file) as [a|e'] eqn:Hex; simpl.
    + destruct (validate a) as [[]|e'] eqn:Hval; simpl; [done|].
      intros [= ->] ->.
      apply extract_invariants in Hex as (_ & _ & _ & Hacc & _).
      by apply (validate_never_no_accepting a).
    + apply extract_raises in Hex as ->. by intros [= <-].
  - intros a Ha. unfold validate_error3. by rewrite Ha.
Qed.

(** C9 as stated fails: on the input [file_unreferenced] validation
    raises [DisjointStatesException], and the process ends with exit
    status 0, the status of a success. *)
Lemma failure_exits_with_status_0 :
  ¬ (∀ file e, extract_and_validate file = Raise e →
       exit_status (main file) ≠ 0%Z).
Proof.
  intros H.
  apply (H file_unreferenced DisjointStatesException); vm_compute; reflexivity.
Qed.

(** C9 amended: on every input for which the [try] block of [convert]
    raises a [ConverterException], the program prints exactly one line, the
    message of that exception, prints no expression, and ends through
    [exit()] with exit status 0; two different exceptions never have the
    same message; on every input that passes extraction and validation the
    construction returns an expression, the program prints it alone and
    ends with exit status 0. *)
Theorem failure_prints_one_diagnostic_and_exits_0 (file : list string) :
  (∀ e, extract_and_validate file = Raise e →
        is_converter_exception e = true →
        main file = mkOutcome [message e] 0 None) ∧
  (∀ e e', is_converter_exception e = true →
           is_converter_exception e' = true →
           message e = message e' → e = e') ∧
  (∀ a, extract_and_validate file = Ok a →
        ∃ answer, construct a = Ok answer ∧
                  main file = mkOutcome [answer] 0 None).
Proof.
  split; [|split].
  - intros e He Hce. unfold main, convert. by rewrite He, Hce.
  - intros e e' He He' Hm.
    destruct e, e'; try done; vm_compute in Hm; try done.
    + injection Hm as Hm. f_equal.
      by apply (string_app_inj_r _ _ "' is not in the set of states").
    + injection Hm as Hm. f_equal.
      by apply (string_app_inj_r _ _ "' is not represented in the alphabet").
  - intros a Ha. unfold extract_and_validate in Ha.
    destruct (extract file) as [a'|] eqn:Hex; simpl in Ha; [|done].
    destruct (validate a') as [[]|] eqn:Hval; simpl in Ha; [|done].
    injection Ha as ->.
    destruct (construct_spec a) as (base & final & _ & _ & _ & Hc).
    { by apply validate_well_formed. }
    eexists. split; [done|].
    unfold main, convert, extract_and_validate.
    rewrite Hex. simpl. rewrite Hval. simpl. by rewrite Hc.
Qed.

Lemma failure_prints_one_diagnostic_and_exits_0_witness :
  main file_unreferenced = mkOutcome ["E6: Some states are disjoint"] 0 None ∧
  ∃ answer, construct (trivial "deterministic") = Ok answer ∧
            main file_trivial = mkOutcome [answer] 0 None.
Proof.
  split.
  - apply (proj1 (failure_prints_one_diagnostic_and_exits_0 file_unreferenced)
             DisjointStatesException); vm_compute; reflexivity.
  - apply (proj2 (proj2 (failure_prints_one_diagnostic_and_exits_0
                           file_trivial))).
    vm_compute. reflexivity.
Defined.

(** C10: for every automaton whose declared type is any string other than
    [deterministic], the determinism check passes without looking at the
    transitions, validation answers what it answers for the identical
    automaton declared [non-deterministic], so no error comes from the type,
    and the construction returns the same expression. *)
Theorem type_other_than_deterministic_is_non_deterministic (a : automaton) :
  automaton_type a ≠ "deterministic" →
  validate_error7 a = Ok () ∧
  check7 a = Pass ∧
  validate a = validate (with_type "non-deterministic" a) ∧
  validate a ≠ Raise InvalidFSATypeException ∧
  construct a = construct (with_type "non-deterministic" a).
Proof.
  intros Hty.
  assert (validate_error7 a = Ok ()) as H7.
  { unfold validate_error7. by rewrite bool_decide_false. }
  assert (validate a = validate (with_type "non-deterministic" a)) as Hval.
  { rewrite validate_with_type. unfold validate. rewrite H7.
    by change (validate_error7 (with_type "non-deterministic" a)) with (Ok ()). }
  split; [done|]. split.
  { unfold check7. rewrite decide_False; [done|]. tauto. }
  split; [done|]. split; [|by destruct a].
  rewrite validate_first_failure.
  assert (check7 a = Pass) as ->.
  { unfold check7. rewrite decide_False; [done|]. tauto. }
  assert (∀ e, check1 a = Fail e → e ≠ InvalidFSATypeException) as H1.
  { unfold check1. intros e. case_decide; naive_solver. }
  assert (∀ e, check2 a = Fail e → e ≠ InvalidFSATypeException) as H2.
  { unfold check2. intros e. repeat case_decide; naive_solver. }
  assert (∀ e, check3 a = Fail e → e ≠ InvalidFSATypeException) as H3.
  { unfold check3. intros e. case_decide; naive_solver. }
  assert (∀ e, check4 a = Fail e → e ≠ InvalidFSATypeException) as H4.
  { unfold check4. intros e. destruct (list_find _ _) as [[??]|]; naive_solver. }
  assert (∀ e, check5 a = Fail e → e ≠ InvalidFSATypeException) as H5.
  { unfold check5. intros e.
    destruct (omap _ _) as [|e' l] eqn:E; [done|]. intros [= ->].
    assert (e ∈ omap (violation a) (transitions a)) as Hin by (rewrite E; left).
    apply list_elem_of_omap in Hin as (t & _ & Ht). revert Ht.
    unfold violation.
    destruct (Py.split ">" t) as [|s [|x [|d [|??]]]];
      repeat case_decide; naive_solver. }
  assert (∀ e, check6 a = Fail e → e ≠ InvalidFSATypeException) as H6.
  { unfold check6. intros e. destruct (reached a); [|done].
    case_decide; naive_solver. }
  simpl.
  destruct (check1 a); [|intros [= ?]; by eapply H1].
  destruct (check2 a); [|intros [= ?]; by eapply H2].
  destruct (check3 a); [|intros [= ?]; by eapply H3].
  destruct (check4 a); [|intros [= ?]; by eapply H4].
  destruct (check5 a); [|intros [= ?]; by eapply H5].
  by destruct (check6 a); [|intros [= ?]; by eapply H6].
Qed.

Lemma type_other_than_deterministic_is_non_deterministic_witness :
  validate_error7 (branching "deterministi") = Ok () ∧
  check7 (branching "deterministi") = Pass ∧
  validate (branching "deterministi") = validate (branching "non-deterministic") ∧
  validate (branching "deterministi") ≠ Raise InvalidFSATypeException ∧
  construct (branching "deterministi")
    = construct (branching "non-deterministic").
Proof.
  apply (type_other_than_deterministic_is_non_deterministic
           (branching "deterministi")).
  vm_compute. discriminate.
Defined.

End claims.

(** * More properties of the program *)

(** ** [__extract]: the shape of the files it accepts *)

Section extraction_more.
Import Converter Spec.

(** What the loop over the lines has checked and collected when it ends
    without an exception. *)
Lemma read_lines_Some i file pv pv' :
  i ≤ length commands →
  read_lines i file pv = Some pv' →
  length pv' = length pv + length file ∧
  i + length file ≤ length commands ∧
  (∀ k line, file !! k = Some line →
     ∃ cmd, commands !! (i + k) = Some cmd ∧ Py.contains cmd line = true) ∧
  (∀ k line, file !! k = Some line →
     pv' !! (length pv + k) = Some (Py.findall line)) ∧
  (∀ k, k < length pv → pv' !! k = pv !! k).
Proof.
  change (length commands) with 6.
  revert i pv. induction file as [|line file IH]; intros i pv Hi0 H;
    simpl in H.
  - simplify_eq. simpl. split; [lia|]. split; [lia|]. by repeat split.
  - destruct (commands !! i) as [cmd|] eqn:Hcmd; simpl in H; [|done].
    destruct (Py.contains cmd line) eqn:Hc; simpl in H; [|done].
    apply lookup_lt_Some in Hcmd as Hlt. change (length commands) with 6 in Hlt.
    apply IH in H as (Hlen & Hi & Hkw & Hpv & Hold); [|lia].
    rewrite length_app in Hlen, Hpv, Hold.
    change (length [Py.findall line]) with 1 in *.
    change (length (line :: file)) with (S (length file)).
    split; [lia|]. split; [lia|]. split; [|split].
    + intros [|k] l Hl.
      * injection Hl as <-. exists cmd. by rewrite Nat.add_0_r.
      * destruct (Hkw k l Hl) as (c & Hc' & ?). exists c.
        split; [|done]. rewrite <- Hc'. f_equal. lia.
    + intros [|k] l Hl.
      * injection Hl as <-. rewrite Hold by lia. rewrite Nat.add_0_r.
        by rewrite lookup_app_r, Nat.sub_diag by lia.
      * rewrite <- (Hpv k l Hl). f_equal. lia.
    + intros k Hk. rewrite Hold by lia. by rewrite lookup_app_l.
Qed.

Lemma extract_try_Some file a :
  extract_try file = Some a →
  ∃ pv, read_lines 0 file [] = Some pv ∧
    ∃ ty sts alph init acc trs,
      field pv 0 = Some ty ∧ field pv 1 = Some sts ∧ field pv 2 = Some alph ∧
      field pv 3 = Some init ∧ field pv 4 = Some acc ∧ field pv 5 = Some trs ∧
      a = mkAutomaton ty (Py.sorted_set (Py.split "," sts))
            (Py.split "," alph) init (Py.split "," acc) (Py.split "," trs).
Proof.
  unfold extract_try. intros H.
  destruct (read_lines 0 file []) as [pv|]; simpl in H; [|done].
  exists pv. split; [done|].
  destruct (field pv 0) as [ty|]; simpl in H; [|done].
  destruct (field pv 1) as [sts|]; simpl in H; [|done].
  destruct (field pv 2) as [alph|]; simpl in H; [|done].
  destruct (field pv 3) as [init|]; simpl in H; [|done].
  destruct (field pv 4) as [acc|]; simpl in H; [|done].
  destruct (field pv 5) as [trs|]; simpl in H; [|done].
  simplify_eq. by exists ty, sts, alph, init, acc, trs.
Qed.

Lemma field_Some pv k g : field pv k = Some g → k < length pv.
Proof.
  unfold field. destruct (pv !! k) eqn:E; [|done]. intros _.
  by eapply lookup_lt_Some.
Qed.

Lemma findall_fuel_nonempty fuel s g : g ∈ Py.findall_fuel fuel s → g ≠ "".
Proof.
  revert s. induction fuel as [|fuel IH]; intros s; simpl;
    [by intros ?%elem_of_nil|].
  destruct (Py.match_bracket s) as [[g' rest]|] eqn:Hm.
  - intros [->|Hin]%elem_of_cons; [|by eapply IH].
    unfold Py.match_bracket in Hm.
    destruct s as [|c s]; [done|].
    destruct (Ascii.eqb_spec c "["%char); subst; [|by destruct c as [[] [] [] [] [] [] [] []]].
    destruct (Py.span_not_rbracket s) as [[|a run] [|b rest']]; try done.
    destruct (Ascii.eqb_spec b "]"%char); subst;
      [by simplify_eq|by destruct b as [[] [] [] [] [] [] [] []]].
  - destruct s; [by intros ?%elem_of_nil|]. apply IH.
Qed.

(** Every field that [parsed_vals[k][0]] returns is a non-empty string. *)
Lemma field_nonempty file pv k g :
  read_lines 0 file [] = Some pv → field pv k = Some g → g ≠ "".
Proof.
  intros Hread Hf. pose proof (field_Some _ _ _ Hf) as Hk.
  apply read_lines_Some in Hread as (Hlen & _ & _ & Hpv & _); [|simpl; lia].
  simpl in Hlen, Hpv.
  destruct (lookup_lt_is_Some_2 file k) as [line Hline]; [lia|].
  specialize (Hpv k line Hline). unfold field in Hf. rewrite Hpv in Hf.
  simpl in Hf. apply list_elem_of_lookup_2 in Hf.
  by eapply findall_fuel_nonempty.
Qed.

Lemma extract_nonempty_fields file a :
  extract file = Ok a → automaton_type a ≠ "" ∧ initial_state a ≠ "".
Proof.
  unfold extract. destruct (extract_try file) as [a'|] eqn:E; [|done].
  intros [= ->].
  apply extract_try_Some in E
    as (pv & Hread & ty & sts & alph & init & acc & trs & H0 & _ & _ & H3 & _ &
        _ & ->).
  simpl. split; by eapply field_nonempty.
Qed.

(** A file that [__extract] accepts has six lines. *)
Lemma extract_rejects_other_than_six_lines_aux file :
  length file ≠ 6 → extract file = Raise InputIsMalformedException.
Proof.
  intros Hlen. unfold extract.
  destruct (extract_try file) as [a|] eqn:E; [exfalso|done].
  apply extract_try_Some in E
    as (pv & Hread & ty & sts & alph & init & acc & trs & _ & _ & _ & _ & _ &
        H5 & _).
  apply field_Some in H5.
  apply read_lines_Some in Hread as (Hl & Hle & _); [|simpl; lia].
  simpl in Hl, Hle. lia.
Qed.

End extraction_more.

(** ** [__validate]: what each error says about the automaton *)

Section validation_more.
Import Converter Spec.

Lemma first_failure_Raise checks e :
  first_failure checks = Raise e → Fail e ∈ checks.
Proof.
  induction checks as [|[|e'] checks IH]; simpl; [done| |].
  - intros H. right. auto.
  - intros [= ->]. left.
Qed.

Lemma violation_Some a t e :
  violation a t = Some e →
  (e = ValueError ∧ length (Py.split ">" t) ≠ 3) ∨
  ∃ s x d, Py.split ">" t = [s; x; d] ∧
    ((e = InputIsMalformedException ∧ s = "") ∨
     (e = InvalidStateException s ∧ s ∉ states a) ∨
     (e = InvalidStateException d ∧ d ∉ states a) ∨
     (e = InvalidTransitionException x ∧ x ∉ alphabet a)).
Proof.
  unfold violation.
  destruct (Py.split ">" t) as [|s [|x [|d [|??]]]]; simpl;
    try (intros [= <-]; left; split; [done|lia]).
  intros H. right. exists s, x, d. split; [done|].
  repeat case_decide; simplify_eq; auto.
Qed.

(** Every exception that leaves [__validate], with what it tells. *)
Lemma validate_raises_cases a e :
  validate a = Raise e →
  (e = InputIsMalformedException ∧
     (¬NoDup (transitions a) ∨
      ∃ t x d, t ∈ transitions a ∧ Py.split ">" t = [""; x; d])) ∨
  (e = InitStateIsNotDefinedException ∧ initial_state a = "") ∨
  (e = NoAcceptingStatesException ∧ accepting_states a = []) ∨
  (∃ s, e = InvalidStateException s ∧ (s ∉ states a) ∧
        (s = initial_state a ∨ s ∈ accepting_states a ∨
         (∃ t s' x d, t ∈ transitions a ∧ Py.split ">" t = [s'; x; d] ∧
                      (s = s' ∨ s = d)))) ∨
  (∃ x, e = InvalidTransitionException x ∧ (x ∉ alphabet a) ∧
        (∃ t s d, t ∈ transitions a ∧ Py.split ">" t = [s; x; d])) ∨
  (e = DisjointStatesException) ∨
  (e = InvalidFSATypeException ∧ automaton_type a = "deterministic") ∨
  (e = ValueError ∧ (∃ t, t ∈ transitions a ∧ length (Py.split ">" t) ≠ 3)).
Proof.
  rewrite validate_first_failure. intros H%first_failure_Raise.
  repeat (apply elem_of_cons in H as [H|H]); [..|by apply elem_of_nil in H];
    symmetry in H.
  - unfold check1 in H. case_decide; simplify_eq. left. auto.
  - unfold check2 in H. repeat case_decide; simplify_eq.
    + right; left. auto.
    + do 3 right. left. eexists. split; [done|]. auto.
  - unfold check3 in H. case_decide; simplify_eq. do 2 right. left. auto.
  - unfold check4 in H.
    destruct (list_find _ _) as [[i s]|] eqn:E; simplify_eq.
    apply list_find_Some in E as (Hi & Hs & _).
    do 3 right. left. exists s. split; [done|]. split; [done|].
    right; left. by eapply list_elem_of_lookup_2.
  - unfold check5 in H.
    destruct (omap _ _) as [|e' l] eqn:E; simplify_eq.
    assert (e ∈ omap (violation a) (transitions a)) as Hin by (rewrite E; left).
    apply list_elem_of_omap in Hin as (t & Ht & Hv).
    apply violation_Some in Hv
      as [[-> ?]|(s & x & d & Hsplit & [[-> ->]|[[-> ?]|[[-> ?]|[-> ?]]]])].
    + do 7 right. split; [done|]. eauto.
    + left. split; [done|]. right. eauto.
    + do 3 right. left. exists s. split; [done|]. split; [done|].
      do 2 right. exists t, s, x, d. auto.
    + do 3 right. left. exists d. split; [done|]. split; [done|].
      do 2 right. exists t, s, x, d. auto.
    + do 4 right. left. exists x. split; [done|]. split; [done|]. eauto.
  - unfold check6 in H. destruct (reached a); [|done].
    case_decide; simplify_eq. do 5 right. left. done.
  - unfold check7 in H. case_decide as Hc; simplify_eq.
    do 6 right. left. split; [done|]. by destruct Hc.
Qed.

End validation_more.

(** * Further theorems *)

(** ** Extraction *)

Section further_extract.
Import Converter Spec Inputs.

(** X1: [__extract] accepts only files of exactly six lines: on a file
    with fewer lines a later [parsed_vals[k]] is out of range, on a file with
    more lines [commands[i]] is, and both end as
    [InputIsMalformedException]. *)
Theorem extract_rejects_other_than_six_lines (file : list string) :
  length file ≠ 6 → extract file = Raise InputIsMalformedException.
Proof.
  apply extract_rejects_other_than_six_lines_aux.
Qed.

Lemma extract_rejects_other_than_six_lines_witness :
  extract [] = Raise InputIsMalformedException ∧
  extract (file_trivial ++ ["more"]) = Raise InputIsMalformedException.
Proof.
  split.
  - apply (extract_rejects_other_than_six_lines []). simpl. lia.
  - apply (extract_rejects_other_than_six_lines (file_trivial ++ ["more"])).
    simpl. lia.
Defined.

(** X2: [__extract] raises [InputIsMalformedException] as soon as some line
    does not contain the keyword of its position ([type], [states],
    [alphabet], [initial], [accepting], [transitions], in this order). *)
Theorem extract_rejects_missing_keyword
    (file : list string) (i : nat) (line cmd : string) :
  file !! i = Some line → commands !! i = Some cmd →
  Py.contains cmd line = false →
  extract file = Raise InputIsMalformedException.
Proof.
  intros Hline Hcmd Hc. unfold extract.
  destruct (extract_try file) as [a|] eqn:E; [exfalso|done].
  apply extract_try_Some in E as (pv & Hread & _).
  apply read_lines_Some in Hread as (_ & _ & Hkw & _); [|simpl; lia].
  destruct (Hkw i line Hline) as (cmd' & Hcmd' & Hc'). simpl in Hcmd'.
  congruence.
Qed.

Lemma extract_rejects_missing_keyword_witness :
  extract (text ["type=[deterministic]"; "states=[q0]"; "letters=[a]";
                 "initial=[q0]"; "accepting=[q0]"; "transitions=[q0>a>q0]"])
  = Raise InputIsMalformedException.
Proof.
  eapply (extract_rejects_missing_keyword _ 2); vm_compute; reflexivity.
Defined.

(** X3: every model that [__extract] returns comes from a file of six lines,
    has a non-empty type and a non-empty initial state, at least one state,
    symbol, accepting state and transition token, and its state names
    are distinct and in ascending order. *)
Theorem extract_model_invariants (file : list string) (a : automaton) :
  extract file = Ok a →
  length file = 6 ∧
  automaton_type a ≠ "" ∧ initial_state a ≠ "" ∧
  NoDup (states a) ∧ Sorted String.le (states a) ∧
  states a ≠ [] ∧ alphabet a ≠ [] ∧
  accepting_states a ≠ [] ∧ transitions a ≠ [].
Proof.
  intros Hex.
  destruct (extract_invariants file a Hex) as (Hnd & Hs & Hal & Hacc & Htr).
  split.
  { destruct (decide (length file = 6)) as [|Hne]; [done|].
    apply extract_rejects_other_than_six_lines_aux in Hne. congruence. }
  destruct (extract_nonempty_fields file a Hex) as [Hty Hinit].
  split; [done|]. split; [done|]. split; [done|]. split; [|done].
  apply extract_fields in Hex as (ty & sts & alph & init & acc & trs & ->).
  simpl. unfold Py.sorted_set. apply Sorted_merge_sort. apply _.
Qed.

Lemma extract_model_invariants_witness :
  length file_trivial = 6 ∧
  automaton_type (trivial "deterministic") ≠ "" ∧
  initial_state (trivial "deterministic") ≠ "" ∧
  NoDup (states (trivial "deterministic")) ∧
  Sorted String.le (states (trivial "deterministic")) ∧
  states (trivial "deterministic") ≠ [] ∧
  alphabet (trivial "deterministic") ≠ [] ∧
  accepting_states (trivial "deterministic") ≠ [] ∧
  transitions (trivial "deterministic") ≠ [].
Proof.
  apply (extract_model_invariants file_trivial (trivial "deterministic")).
  vm_compute. reflexivity.
Defined.

End further_extract.

(** ** Validation *)

Section further_validate.
Import Converter Spec Inputs.




(** X6: no input file makes the program report that the initial state is
    not defined: a bracket group is never empty, so the model that
    [__extract] returns always has a non-empty initial state and the first
    test of the second block of [__validate] never fires. *)
Theorem init_state_undefined_is_never_raised
    (file : list string) (e : exn) :
  extract_and_validate file = Raise e →
  e ≠ InitStateIsNotDefinedException.
Proof.
  unfold extract_and_validate.
  destruct (extract file) as [a|e'] eqn:Hex; simpl.
  - destruct (validate a) as [[]|e'] eqn:Hval; simpl; [done|].
    intros [= ->] ->.
    apply extract_nonempty_fields in Hex as [_ Hinit].
    apply validate_raises_cases in Hval. naive_solver.
  - apply extract_raises in Hex as ->. by intros [= <-].
Qed.

Lemma init_state_undefined_is_never_raised_witness :
  let file := text ["type=[deterministic]"; "states=[q0]"; "alphabet=[a]";
                    "initial=[]"; "accepting=[q0]"; "transitions=[q0>a>q0]"] in
  extract_and_validate file = Raise InputIsMalformedException ∧
  InputIsMalformedException ≠ InitStateIsNotDefinedException.
Proof.
  intros file. split; [vm_compute; reflexivity|].
  apply (init_state_undefined_is_never_raised file).
  vm_compute. reflexivity.
Defined.





(** X9: in an automaton that [__validate] accepts under the type
    [deterministic], the transitions are a partial function: two transitions
    with the same source and the same symbol have the same destination. *)
Theorem validated_deterministic_is_functional
    (a : automaton) (s x d1 d2 : string) :
  validate a = Ok () → automaton_type a = "deterministic" →
  (s, x, d1) ∈ triples a → (s, x, d2) ∈ triples a → d1 = d2.
Proof.
  intros Hval Hty [i Hi]%list_elem_of_lookup_1 [j Hj]%list_elem_of_lookup_1.
  destruct (decide (i = j)) as [->|Hne]; [congruence|]. exfalso.
  pose proof (validate_well_formed a Hval) as Hwf.
  apply validate_Ok in Hval as (_ & _ & _ & _ & _ & _ & H7).
  rewrite validate_error7_spec in H7 by done.
  rewrite bool_decide_true in H7; [done|]. split; [done|].
  apply repeated_symbol_dup. by exists i, j, s, x, d1, d2.
Qed.

Lemma validated_deterministic_is_functional_witness : "q0" = "q0".
Proof.
  apply (validated_deterministic_is_functional initial_last "q1" "a");
    [vm_compute; reflexivity|reflexivity|vm_compute; left..].
Defined.

End further_validate.

(** ** The construction and the process *)

Section further_construct.
Import Converter Spec Inputs.

Lemma kleene_steps_foldl n base k :
  square n base → k ≤ n →
  kleene_steps n (range k) base = Ok (foldl (fresh_step n) base (range k)) ∧
  square n (foldl (fresh_step n) base (range k)).
Proof.
  intros Hsq. induction k as [|k IH]; intros Hk; [done|].
  destruct IH as [Hrun Hsqk]; [lia|].
  rewrite range_S, foldl_app. simpl. split; [|apply square_fresh_step].
  rewrite <- range_S. by apply kleene_steps_S.
Qed.

Lemma row_parts_form a m row indices p :
  p ∈ row_parts a m row indices → ∃ c, p = "(" +:+ c +:+ ")".
Proof.
  unfold row_parts. intros (i & _ & H)%list_elem_of_omap.
  destruct (states a !! i) as [state|]; simpl in H; [|done].
  destruct (Py.mem state (accepting_states a)); simplify_eq. eauto.
Qed.

Lemma row_parts_accepting a m row i state :
  states a !! i = Some state → state ∈ accepting_states a →
  row_parts a m row (seq 0 (length (states a))) ≠ [].
Proof.
  intros Hi Hacc Hnil.
  assert ("(" +:+ cell_text m row i +:+ ")"
          ∈ row_parts a m row (seq 0 (length (states a)))) as Hin.
  { unfold row_parts. apply list_elem_of_omap. exists i. split.
    - apply elem_of_seq. apply lookup_lt_Some in Hi. lia.
    - rewrite Hi. simpl. apply mem_true in Hacc. by rewrite Hacc. }
  rewrite Hnil in Hin. by apply elem_of_nil in Hin.
Qed.

(** The alternation of parenthesised parts is itself of the form
    [( ... )]. *)
Lemma concat_parts_form parts :
  parts ≠ [] → (∀ p, p ∈ parts → ∃ c, p = "(" +:+ c +:+ ")") →
  ∃ body, String.concat "|" parts = "(" +:+ body +:+ ")".
Proof.
  intros Hne Hform.
  destruct parts as [|y l _] using rev_ind; [done|].
  rewrite concat_snoc.
  destruct (Hform y) as [c ->]; [set_solver|].
  destruct l as [|p l].
  - exists c. done.
  - destruct (Hform p) as [c1 ->]; [set_solver|].
    exists (c1 +:+ ")" +:+ "|" +:+ bars l +:+ "(" +:+ c).
    simpl. by rewrite !string_app_assoc.
Qed.

(** The length of one cell of a step. *)
Lemma recurrence_length prev k i j :
  String.length (recurrence prev k i j) =
    String.length (prev i k) + String.length (prev k k) +
    String.length (prev k j) + String.length (prev i j) + 10.
Proof.
  unfold recurrence. rewrite !string_length_app. simpl. lia.
Qed.

Lemma steps_cells_grow n base k :
  square n base → k ≤ n →
  ∀ i j, i < n → j < n →
    10 * 4 ^ k ≤
      3 * String.length (cell_text (foldl (fresh_step n) base (range k)) i j)
      + 10.
Proof.
  intros Hsq. induction k as [|k IH]; intros Hk i j Hi Hj; [simpl; lia|].
  rewrite range_S, foldl_app. simpl.
  rewrite (cell_text_cell_at _ _ _ _ (cell_at_fresh_step n _ k i j Hi Hj)).
  change (format (Str ?s)) with s. rewrite recurrence_length.
  pose proof (IH ltac:(lia) i k Hi ltac:(lia)).
  pose proof (IH ltac:(lia) k k ltac:(lia) ltac:(lia)).
  pose proof (IH ltac:(lia) k j ltac:(lia) Hj).
  pose proof (IH ltac:(lia) i j Hi Hj).
  lia.
Qed.

Lemma concat_length_ge p parts :
  p ∈ parts → String.length p ≤ String.length (String.concat "|" parts).
Proof.
  induction parts as [|q [|q' parts] IH]; [by intros ?%elem_of_nil| |].
  - by intros ->%list_elem_of_singleton.
  - intros Hin. change (String.concat "|" (q :: q' :: parts))
      with (q +:+ "|" +:+ String.concat "|" (q' :: parts)).
    rewrite !string_length_app.
    apply elem_of_cons in Hin as [->|Hin]; [lia|].
    specialize (IH Hin). lia.
Qed.

(** X13: for every automaton whose transition tokens have their three
    fields, the construction of [convert] ends without an exception (no
    index is out of range), and the expression it returns is the
    alternation, over the indices [i] of the accepting states, of the
    parenthesised cells [(0, i)] of the matrix obtained from the base matrix
    by the elimination steps [0 .. n-1], each computed from the matrix before
    it: row 0, whatever the initial state. *)
Theorem construct_returns_alternation_of_row_0 (a : automaton) :
  well_formed a →
  ∃ base,
    buildInitialRegExp a = Ok base ∧
    construct a =
      Ok (alternation_of_row a
            (foldl (fresh_step (length (states a))) base
                   (range (length (states a)))) 0).
Proof.
  intros Hwf.
  destruct (construct_spec a Hwf) as (base & final & Hbase & Hfinal & _ & Hc).
  exists base. split; [done|]. rewrite Hc. do 2 f_equal.
  destruct (buildInitialRegExp_total a Hwf) as (base' & Hbase' & Hsq & _).
  assert (base' = base) as -> by congruence.
  destruct (kleene_steps_foldl _ base (length (states a)) Hsq) as [Hrun _];
    [done|].
  congruence.
Qed.

Lemma construct_returns_alternation_of_row_0_witness :
  ∃ base,
    buildInitialRegExp initial_last = Ok base ∧
    construct initial_last =
      Ok (alternation_of_row initial_last
            (foldl (fresh_step 2) base (range 2)) 0).
Proof.
  apply (construct_returns_alternation_of_row_0 initial_last).
  unfold well_formed. apply (bool_decide_unpack _). vm_compute. exact I.
Defined.

Lemma answer_parenthesised (a : automaton) :
  validate a = Ok () →
  ∃ body, construct a = Ok ("(" +:+ body +:+ ")") ∧
          "(" +:+ body +:+ ")" ≠ empty_set.
Proof.
  intros Hval. pose proof (validate_well_formed a Hval) as Hwf.
  destruct (construct_spec a Hwf) as (base & final & _ & _ & _ & ->).
  apply validate_Ok in Hval as (_ & _ & H3 & H4 & _).
  assert (∃ i state, states a !! i = Some state ∧
                     state ∈ accepting_states a) as (i & state & Hi & Hacc).
  { unfold validate_error3 in H3.
    destruct (accepting_states a) as [|s l] eqn:E; [done|].
    unfold validate_error4 in H4. rewrite E in H4.
    apply for_each_Ok, Forall_cons in H4 as [Hs _].
    destruct (Py.mem s (states a)) eqn:Hm; [|done].
    apply mem_true, list_elem_of_lookup_1 in Hm as [i Hi].
    exists i, s. split; [done|]. left. }
  unfold alternation_of_row.
  pose proof (row_parts_accepting a final 0 i state Hi Hacc) as Hne.
  destruct (concat_parts_form _ Hne) as [body Hbody].
  { intros p. apply row_parts_form. }
  destruct (row_parts a final 0 (seq 0 (length (states a)))) as [|p ps];
    [done|].
  exists body. by rewrite Hbody.
Qed.

(** X14: after a successful validation the branch [case 0] of [convert] is
    never taken: the returned expression is not the empty-set marker, it
    is of the form [( ... )]. *)
Theorem validated_answer_is_parenthesised (a : automaton) :
  validate a = Ok () →
  ∃ body, construct a = Ok ("(" +:+ body +:+ ")") ∧
          "(" +:+ body +:+ ")" ≠ empty_set.
Proof. apply answer_parenthesised. Qed.

Lemma validated_answer_is_parenthesised_witness :
  ∃ body, construct initial_last = Ok ("(" +:+ body +:+ ")") ∧
          "(" +:+ body +:+ ")" ≠ empty_set.
Proof.
  apply (validated_answer_is_parenthesised initial_last).
  vm_compute. reflexivity.
Defined.

(** X15: the returned expression grows exponentially with the number of
    states, since every step makes of four cells and ten more characters one
    new cell: for a validated automaton with [n] states the expression
    returned has at least [(10 * 4^n - 4) / 3] characters. *)
Theorem answer_length_is_exponential (a : automaton) :
  validate a = Ok () →
  ∃ answer, construct a = Ok answer ∧
    10 * 4 ^ length (states a) ≤ 3 * String.length answer + 4.
Proof.
  intros Hval. pose proof (validate_well_formed a Hval) as Hwf.
  destruct (buildInitialRegExp_total a Hwf) as (base & Hbase & Hsq & _).
  destruct (kleene_steps_foldl _ base (length (states a)) Hsq) as [Hrun Hsqf];
    [done|].
  destruct (construct_spec a Hwf) as (base' & final & Hbase' & Hfinal & _ & ->).
  assert (base' = base) as -> by congruence.
  assert (final = foldl (fresh_step (length (states a))) base
                        (range (length (states a)))) as -> by congruence.
  eexists. split; [done|].
  apply validate_Ok in Hval as (_ & _ & H3 & H4 & _).
  assert (∃ i state, states a !! i = Some state ∧
                     state ∈ accepting_states a) as (i & state & Hi & Hacc).
  { unfold validate_error3 in H3.
    destruct (accepting_states a) as [|s l] eqn:E; [done|].
    unfold validate_error4 in H4. rewrite E in H4.
    apply for_each_Ok, Forall_cons in H4 as [Hs _].
    destruct (Py.mem s (states a)) eqn:Hm; [|done].
    apply mem_true, list_elem_of_lookup_1 in Hm as [i Hi].
    exists i, s. split; [done|]. left. }
  set (final := foldl _ _ _) in *.
  assert ("(" +:+ cell_text final 0 i +:+ ")"
          ∈ row_parts a final 0 (seq 0 (length (states a)))) as Hin.
  { unfold row_parts. apply list_elem_of_omap. exists i. split.
    - apply elem_of_seq. apply lookup_lt_Some in Hi. lia.
    - rewrite Hi. simpl. apply mem_true in Hacc. by rewrite Hacc. }
  unfold alternation_of_row.
  pose proof (concat_length_ge _ _ Hin) as Hlen.
  rewrite !string_length_app in Hlen. simpl in Hlen.
  apply lookup_lt_Some in Hi as Hlt.
  pose proof (steps_cells_grow _ base (length (states a)) Hsq
                (le_n _) 0 i ltac:(lia) Hlt) as Hcell.
  fold final in Hcell.
  destruct (row_parts a final 0 (seq 0 (length (states a)))) as [|p ps];
    [by apply elem_of_nil in Hin|].
  lia.
Qed.

Lemma answer_length_is_exponential_witness :
  ∃ answer, construct initial_last = Ok answer ∧
    10 * 4 ^ 2 ≤ 3 * String.length answer + 4.
Proof.
  apply (answer_length_is_exponential initial_last).
  vm_compute. reflexivity.
Defined.



End further_construct.

(** ** The classes [Node] and [Graph] *)

Section further_graph.
Import Graph.

Lemma find_app_r {A} (f : A → bool) (l1 l2 : list A) :
  (∀ x, x ∈ l1 → f x = false) → find f (l1 ++ l2) = find f l2.
Proof.
  induction l1 as [|x l1 IH]; intros H; [done|]. simpl.
  rewrite (H x) by left. apply IH. intros y Hy. apply H. by right.
Qed.

(** X10: [Graph.addNode] returns a node of [node_list] that carries the
    label, and asking for the same label again returns the same node and
    changes neither the node list nor any node: a label never gets a second
    node. *)
Theorem addNode_twice_gives_the_same_node (h h' : heap) (g g' : Graph)
    (lbl : string) (r : ref) :
  (∀ x, x ∈ node_list g → x < length h) →
  addNode h g lbl = (h', g', r) →
  r ∈ node_list g' ∧ getLabel h' r = lbl ∧
  addNode h' g' lbl = (h', g', r).
Proof.
  intros Hvalid. unfold addNode.
  destruct (Py.mem lbl (getLabel h <$> node_list g)) eqn:Hmem; simpl.
  - intros [= <- <- <-]. rewrite Hmem. simpl.
    apply mem_true, list_elem_of_fmap in Hmem as (x & Hx & Hin).
    destruct (find _ (node_list g)) as [r|] eqn:Hfind; simpl.
    + apply find_some in Hfind as [Hr%list_elem_of_In Hl].
      by apply bool_decide_eq_true in Hl.
    + exfalso. apply list_elem_of_In in Hin.
      eapply find_none in Hfind; [|done].
      by apply bool_decide_eq_false in Hfind.
  - intros [= <- <- <-]. simpl.
    apply mem_false in Hmem.
    assert (getLabel (h ++ [mkNode lbl [] false]) (length h) = lbl) as Hnew.
    { unfold getLabel. by rewrite list_lookup_total_middle. }
    assert (∀ x, x ∈ node_list g →
              getLabel (h ++ [mkNode lbl [] false]) x = getLabel h x) as Hold.
    { intros x Hx. unfold getLabel.
      by rewrite lookup_total_app_l by by apply Hvalid. }
    split; [set_solver|]. split; [done|].
    assert (Py.mem lbl (getLabel (h ++ [mkNode lbl [] false])
                          <$> node_list g ++ [length h]) = true) as ->.
    { apply mem_true. rewrite fmap_app. simpl. rewrite Hnew. set_solver. }
    simpl. rewrite find_app_r.
    + simpl. rewrite Hnew. by rewrite bool_decide_true.
    + intros x Hx. apply bool_decide_eq_false. rewrite Hold by done.
      intros <-. apply Hmem. apply list_elem_of_fmap. by exists x.
Qed.

Lemma addNode_twice_gives_the_same_node_witness :
  let h := [mkNode "" [] false; mkNode "q0" [] false] in
  let g := mkGraph 2 [1] in
  let h' := h ++ [mkNode "q1" [] false] in
  let g' := mkGraph 2 [1; 2] in
  2 ∈ node_list g' ∧ getLabel h' 2 = "q1" ∧ addNode h' g' "q1" = (h', g', 2).
Proof.
  intros h g h' g'.
  apply (addNode_twice_gives_the_same_node h h' g g' "q1" 2).
  - intros x ->%list_elem_of_singleton. simpl. lia.
  - vm_compute. reflexivity.
Defined.

(** X11: [Node.addEdge] never gives a node two neighbours with the same
    label, and adding the same edge again changes nothing. *)
Theorem addEdge_keeps_neighbour_labels_distinct (h : heap) (s d : ref) :
  s < length h →
  NoDup (getLabel h <$> getAdjacentNodes h s) →
  let h' := addEdge h s d in
  NoDup (getLabel h' <$> getAdjacentNodes h' s) ∧
  (∃ u, u ∈ getAdjacentNodes h' s ∧ getLabel h' u = getLabel h d) ∧
  addEdge h' s d = h'.
Proof.
  intros Hs Hnd. unfold addEdge, Node_addEdge. simpl.
  destruct (Py.mem _ _) eqn:Hmem; simpl.
  { rewrite Hmem. simpl. split; [done|]. split; [|done].
    apply mem_true, list_elem_of_fmap in Hmem as (u & Hu & Hin). eauto. }
  set (h' := <[s := _]> h).
  assert (∀ x, getLabel h' x = getLabel h x) as Hlab.
  { intros x. unfold getLabel, h'. destruct (decide (x = s)) as [->|].
    - by rewrite list_lookup_total_insert_eq.
    - by rewrite list_lookup_total_insert_ne. }
  assert (getAdjacentNodes h' s = getAdjacentNodes h s ++ [d]) as Hadj.
  { unfold getAdjacentNodes, h'. by rewrite list_lookup_total_insert_eq. }
  assert (getLabel h' <$> getAdjacentNodes h' s
          = (getLabel h <$> getAdjacentNodes h s) ++ [getLabel h d]) as Hlabs.
  { rewrite Hadj, fmap_app. simpl. rewrite Hlab. f_equal.
    apply list_fmap_ext. intros ???. apply Hlab. }
  apply mem_false in Hmem.
  split; [|split].
  - rewrite Hlabs. apply NoDup_app. split; [done|]. split.
    + intros x Hx ->%list_elem_of_singleton. done.
    + apply NoDup_singleton.
  - exists d. rewrite Hadj, Hlab. set_solver.
  - assert (Py.mem (getLabel h' d) (getLabel h' <$> getAdjacentNodes h' s)
            = true) as ->; [|done].
    apply mem_true. rewrite Hlabs, Hlab. set_solver.
Qed.

Lemma addEdge_keeps_neighbour_labels_distinct_witness :
  let h := [mkNode "" [] false; mkNode "q0" [2] false; mkNode "q1" [] false] in
  let h' := addEdge h 1 1 in
  NoDup (getLabel h' <$> getAdjacentNodes h' 1) ∧
  (∃ u, u ∈ getAdjacentNodes h' 1 ∧ getLabel h' u = getLabel h 1) ∧
  addEdge h' 1 1 = h'.
Proof.
  intros h.
  apply (addEdge_keeps_neighbour_labels_distinct h 1 1).
  - simpl. lia.
  - apply (bool_decide_unpack _). vm_compute. exact I.
Defined.



End further_graph.

(** ** Reading back the input format *)

Section further_format.
Import Converter Spec Format.

Lemma free_of_cons c a s :
  free_of c (String a s) ↔ a ≠ c ∧ free_of c s.
Proof.
  unfold free_of. simpl. destruct (ascii_dec c a) as [->|Hne].
  - assert (String.prefix "" s = true) as -> by by destruct s.
    simpl. split; [done|]. by intros [].
  - simpl. split; [|by intros []]. intros H. split; [|done]. by intros ->.
Qed.

Lemma span_not_rbracket_app body rest :
  free_of "]" body →
  Py.span_not_rbracket (body +:+ String "]" rest) = (body, String "]" rest).
Proof.
  induction body as [|a body IH]; intros H; [done|].
  apply free_of_cons in H as [Ha H].
  rewrite string_app_cons. simpl. rewrite IH by done.
  by apply Ascii.eqb_neq in Ha as ->.
Qed.

Lemma match_bracket_entry body rest :
  body ≠ "" → free_of "]" body →
  Py.match_bracket (String "[" (body +:+ String "]" rest)) = Some (body, rest).
Proof.
  intros Hne H. unfold Py.match_bracket.
  rewrite span_not_rbracket_app by done. by destruct body.
Qed.

Lemma match_bracket_other c s : c ≠ "["%char → Py.match_bracket (String c s) = None.
Proof. intros H. by destruct c as [[] [] [] [] [] [] [] []]. Qed.

Lemma findall_fuel_skip pre s fuel :
  free_of "[" pre →
  Py.findall_fuel (String.length pre + fuel) (pre +:+ s) = Py.findall_fuel fuel s.
Proof.
  induction pre as [|c pre IH]; intros H; [done|].
  apply free_of_cons in H as [Hc H].
  rewrite string_app_cons.
  change (String.length (String c pre) + fuel)
    with (S (String.length pre + fuel)).
  change (Py.findall_fuel (S ?f) ?t)
    with (match Py.match_bracket t with
          | Some (g, rest) => g :: Py.findall_fuel f rest
          | None => match t with
                    | EmptyString => []
                    | String _ s' => Py.findall_fuel f s'
                    end
          end).
  rewrite match_bracket_other by done. by apply IH.
Qed.

(** The first group that [findall] gives on an entry is its value. *)
Lemma findall_entry command body rest :
  free_of "[" command → body ≠ "" → free_of "]" body →
  Py.findall (entry command body rest) !! 0 = Some body.
Proof.
  intros Hc Hne Hb. unfold Py.findall, entry.
  rewrite !string_length_app.
  replace (S (String.length command + _))
    with (String.length command +
            S (S (String.length body + (2 + String.length rest))))
    by (simpl; lia).
  rewrite findall_fuel_skip by done.
  change ("=[" +:+ body +:+ "]" +:+ rest)
    with (String "=" (String "[" (body +:+ String "]" rest))).
  change (Py.findall_fuel (S (S ?f)) (String "=" ?t))
    with (match Py.match_bracket t with
          | Some (g, rest) => g :: Py.findall_fuel f rest
          | None => match t with
                    | EmptyString => []
                    | String _ s' => Py.findall_fuel f s'
                    end
          end).
  by rewrite match_bracket_entry.
Qed.

Lemma split_free c x : free_of c x → Py.split c x = [x].
Proof.
  induction x as [|a x IH]; intros H; [done|].
  apply free_of_cons in H as [Ha H]. simpl.
  apply Ascii.eqb_neq in Ha as ->. by rewrite IH.
Qed.

Lemma split_app_sep c x s :
  free_of c x → Py.split c (x +:+ String c s) = x :: Py.split c s.
Proof.
  induction x as [|a x IH]; intros H.
  - simpl. by rewrite Ascii.eqb_refl.
  - apply free_of_cons in H as [Ha H]. rewrite string_app_cons. simpl.
    apply Ascii.eqb_neq in Ha as ->. by rewrite IH.
Qed.

(** [','.join(l).split(',')] is [l]. *)
Lemma split_join l :
  l ≠ [] → Forall (free_of ",") l → Py.split "," (join l) = l.
Proof.
  unfold join. induction l as [|x [|y l] IH]; intros Hne Hl; [done| |].
  - apply Forall_cons in Hl as [Hx _]. by apply split_free.
  - apply Forall_cons in Hl as [Hx Hl].
    change (String.concat "," (x :: y :: l))
      with (x +:+ String "," (String.concat "," (y :: l))).
    rewrite split_app_sep by done. by rewrite IH.
Qed.

(** X4: a file written in the input format is read back as it was
    written.  Whatever follows the closing brackets, when no value is empty
    or contains a closing bracket and no name contains a comma, [__extract]
    ends without an exception with the six values in the fields, the lists
    in the order of the file, except the states, which are sorted and
    without duplicates. *)
Theorem extract_reads_back_the_input_format (ty : string)
    (sts alph : list string) (init : string) (acc trs : list string)
    (rest : string) :
  Forall (λ body, body ≠ "" ∧ free_of "]" body)
         [ty; join sts; join alph; init; join acc; join trs] →
  Forall (free_of ",") (sts ++ alph ++ acc ++ trs) →
  extract (input_file ty sts alph init acc trs rest)
    = Ok (mkAutomaton ty (Py.sorted_set sts) alph init acc trs).
Proof.
  intros Hb Hc.
  repeat (apply Forall_cons in Hb as [[? ?] Hb]).
  apply Forall_app in Hc as [Hsts Hc]. apply Forall_app in Hc as [Halph Hc].
  apply Forall_app in Hc as [Hacc Htrs].
  assert (∀ l, join l ≠ "" → l ≠ []) as Hnil by by intros [|].
  unfold extract, extract_try, input_file.
  assert (read_lines 0 (input_file ty sts alph init acc trs rest) []
          = Some (Py.findall <$> input_file ty sts alph init acc trs rest))
    as Hread.
  { unfold input_file, entry. reflexivity. }
  unfold input_file in Hread. rewrite Hread. simpl. unfold field. simpl.
  rewrite !findall_entry by done. simpl.
  by rewrite !split_join by auto.
Qed.

Lemma extract_reads_back_the_input_format_witness :
  extract (input_file "non-deterministic" ["q1"; "q0"; "q1"] ["a"; "b"] "q0"
             ["q1"] ["q0>a>q1"; "q1>b>q0"] Inputs.newline)
    = Ok (mkAutomaton "non-deterministic" ["q0"; "q1"] ["a"; "b"] "q0"
            ["q1"] ["q0>a>q1"; "q1>b>q0"]).
Proof.
  apply (extract_reads_back_the_input_format "non-deterministic"
           ["q1"; "q0"; "q1"] ["a"; "b"] "q0" ["q1"] ["q0>a>q1"; "q1>b>q0"]).
  - repeat constructor; done.
  - repeat constructor.
Defined.

(** X5: [sorted(set(l))] depends on the members of [l] only, not on their
    order or on repetitions: the states are indexed the same way however
    the file lists them. *)
Theorem sorted_set_depends_on_members_only (l1 l2 : list string) :
  Py.sorted_set l1 = Py.sorted_set l2 ↔ (∀ x, x ∈ l1 ↔ x ∈ l2).
Proof.
  unfold Py.sorted_set. split.
  - intros Heq x.
    rewrite <- (elem_of_remove_dups l1), <- (elem_of_remove_dups l2).
    rewrite <- (merge_sort_Permutation String.le (remove_dups l1)).
    rewrite <- (merge_sort_Permutation String.le (remove_dups l2)).
    by rewrite Heq.
  - intros Hmem. apply (Sorted_unique String.le).
    + apply Sorted_merge_sort, _.
    + apply Sorted_merge_sort, _.
    + rewrite !merge_sort_Permutation.
      apply NoDup_Permutation; [apply NoDup_remove_dups..|].
      intros x. by rewrite !elem_of_remove_dups.
Qed.

End further_format.

(** ** The construction: what the expressions denote *)

Section kleene_paths.
Import Converter Spec Regex Kleene.

Lemma star_one (L : list string → Prop) u : L u → star L u.
Proof.
  intros H. rewrite <- (app_nil_r u). apply star_app; [done|constructor].
Qed.

Lemma star_concat (L : list string → Prop) u v :
  star L u → star L v → star L (u ++ v).
Proof.
  induction 1 as [|u1 u2 H1 _ IH]; intros Hv; [done|].
  rewrite <- app_assoc. apply star_app; auto.
Qed.

Lemma star_ext (L L' : list string → Prop) w :
  (∀ u, L u ↔ L' u) → star L w ↔ star L' w.
Proof.
  intros H. split; induction 1 as [|u v Hu _ IH]; try constructor;
    try done; by apply H.
Qed.

Lemma path_mono a k k' i j w : k ≤ k' → path a k i j w → path a k' i j w.
Proof.
  intros Hk. induction 1 as [i|i x j Harc|i m j u v Hm _ IHu _ IHv].
  - constructor.
  - by constructor.
  - apply path_app with m; [lia|done..].
Qed.

Lemma path_0 a i j w :
  path a 0 i j w ↔ (i = j ∧ w = []) ∨ ∃ x, w = [x] ∧ arc a i x j.
Proof.
  split.
  - inversion 1; subst; [by left|right; eauto|lia].
  - intros [[-> ->]|(x & -> & Harc)]; by constructor.
Qed.

Lemma star_path a k v : star (path a k k k) v → path a (S k) k k v.
Proof.
  induction 1 as [|u v Hu _ IH]; [constructor|].
  apply path_app with k; [lia| |done]. apply path_mono with k; [lia|done].
Qed.

(** The paths through the states below [k + 1] are the paths through the
    states below [k], and those that go to [k], come back to it any number
    of times, and leave it. *)
Lemma path_S a k i j w :
  path a (S k) i j w ↔
  path a k i j w ∨
  ∃ u v t, w = u ++ v ++ t ∧
    path a k i k u ∧ star (path a k k k) v ∧ path a k k j t.
Proof.
  split.
  - induction 1 as [i|i x j Harc|i m j u v Hm _ IHu _ IHv].
    + left. constructor.
    + left. by constructor.
    + destruct (decide (m = k)) as [->|Hne].
      * destruct IHu as [Pu|(u1 & v1 & t1 & -> & Hu1 & Hs1 & Ht1)],
          IHv as [Pv|(u2 & v2 & t2 & -> & Hu2 & Hs2 & Ht2)]; right.
        -- exists u, [], v. split; [done|]. split; [done|].
           split; [constructor|done].
        -- exists u, (u2 ++ v2), t2. split; [by rewrite <- !app_assoc|].
           split; [done|]. split; [by apply star_app|done].
        -- exists u1, (v1 ++ t1), v. split; [by rewrite <- !app_assoc|].
           split; [done|]. split; [|done].
           apply star_concat; [done|by apply star_one].
        -- exists u1, (v1 ++ t1 ++ u2 ++ v2), t2.
           split; [by rewrite <- !app_assoc|]. split; [done|].
           split; [|done]. apply star_concat; [done|].
           apply star_app; [done|]. by apply star_app.
      * assert (m < k) as Hlt by lia.
        destruct IHu as [Pu|(u1 & v1 & t1 & -> & Hu1 & Hs1 & Ht1)],
          IHv as [Pv|(u2 & v2 & t2 & -> & Hu2 & Hs2 & Ht2)].
        -- left. by apply path_app with m.
        -- right. exists (u ++ u2), v2, t2.
           split; [by rewrite <- !app_assoc|].
           split; [by apply path_app with m|done].
        -- right. exists u1, v1, (t1 ++ v).
           split; [by rewrite <- !app_assoc|]. split; [done|].
           split; [done|]. by apply path_app with m.
        -- right. exists u1, (v1 ++ (t1 ++ u2) ++ v2), t2.
           split; [by rewrite <- !app_assoc|]. split; [done|].
           split; [|done]. apply star_concat; [done|].
           apply star_app; [|done]. by apply path_app with m.
  - intros [H|(u & v & t & -> & Hu & Hs & Ht)].
    + apply path_mono with k; [lia|done].
    + apply path_app with k; [lia|by apply path_mono with k; [lia|]|].
      apply path_app with k; [lia|by apply star_path|].
      apply path_mono with k; [lia|done].
Qed.

Lemma walk_app a s u m v q :
  walk a s u m → walk a m v q → walk a s (u ++ v) q.
Proof.
  induction 1 as [|s x d w m' Ht _ IH]; [done|]. intros Hv. simpl.
  apply walk_cons with d; auto.
Qed.

Lemma path_walk a k i j w si :
  path a k i j w → states a !! i = Some si →
  ∃ sj, states a !! j = Some sj ∧ walk a si w sj.
Proof.
  intros H. revert si.
  induction H as [i|i x j (s & d & Hs & Hd & Ht)|i m j u v Hm _ IHu _ IHv];
    intros si Hi.
  - exists si. split; [done|constructor].
  - assert (s = si) as -> by congruence. exists d. split; [done|].
    apply walk_cons with d; [done|constructor].
  - destruct (IHu si Hi) as (sm & Hsm & Hwu).
    destruct (IHv sm Hsm) as (sj & Hsj & Hwv).
    exists sj. split; [done|]. by apply walk_app with sm.
Qed.

Lemma walk_path a i j w si sj :
  NoDup (states a) →
  (∀ s x d, (s, x, d) ∈ triples a → d ∈ states a) →
  states a !! i = Some si → states a !! j = Some sj →
  walk a si w sj → path a (length (states a)) i j w.
Proof.
  intros Hnd Hdst Hi Hj Hw. revert i Hi.
  induction Hw as [q|s x d w q Ht Hw IH]; intros i Hi.
  - assert (i = j) as -> by by eapply NoDup_lookup. constructor.
  - destruct (list_elem_of_lookup_1 _ _ (Hdst _ _ _ Ht)) as [m Hm].
    change (x :: w) with ([x] ++ w).
    apply path_app with m; [by eapply lookup_lt_Some| |by apply IH].
    apply path_arc. by exists s, d.
Qed.

Lemma elem_of_step ts qs x d :
  d ∈ step ts qs x ↔ ∃ s, s ∈ qs ∧ (s, x, d) ∈ ts.
Proof.
  unfold step. rewrite list_elem_of_bind. split.
  - intros ([[s y] d'] & Hd & Hin). case_bool_decide as Hc; [|set_solver].
    destruct Hc as [Hs ->]. apply list_elem_of_singleton in Hd as ->. eauto.
  - intros (s & Hs & Hin). exists (s, x, d). split; [|done].
    rewrite bool_decide_true by done. set_solver.
Qed.

Lemma elem_of_run a qs w q :
  q ∈ foldl (step (triples a)) qs w ↔ ∃ s, s ∈ qs ∧ walk a s w q.
Proof.
  revert qs. induction w as [|x w IH]; intros qs; simpl.
  - split.
    + intros Hq. exists q. split; [done|constructor].
    + intros (s & Hs & Hw). by inversion Hw; subst.
  - rewrite IH. split.
    + intros (d & (s & Hs & Ht)%elem_of_step & Hw).
      exists s. split; [done|]. by apply walk_cons with d.
    + intros (s & Hs & Hw). inversion Hw as [|? ? d ? ? Ht Hw']; subst.
      exists d. split; [|done]. apply elem_of_step. eauto.
Qed.

Lemma accepts_from_spec a q w :
  accepts_from a q w = true ↔ ∃ f, f ∈ accepting_states a ∧ walk a q w f.
Proof.
  unfold accepts_from. rewrite existsb_exists. split.
  - intros (f & Hin%list_elem_of_In & Hf%mem_true).
    apply elem_of_run in Hin as (s & ->%list_elem_of_singleton & Hw). eauto.
  - intros (f & Hf & Hw). exists f. split; [|by apply mem_true].
    apply list_elem_of_In, elem_of_run. exists q. split; [set_solver|done].
Qed.

Lemma lang_alts es w :
  lang (erase (alts es)) w ↔ ∃ e, e ∈ es ∧ lang (erase e) w.
Proof.
  induction es as [|e [|e' es] IH].
  - simpl. split; [done|]. by intros (e & ?%elem_of_nil & _).
  - simpl. split; [intros H; exists e; split; [left|done]|].
    by intros (? & ->%list_elem_of_singleton & ?).
  - change (lang (erase e) w ∨ lang (erase (alts (e' :: es))) w ↔
            ∃ e0, e0 ∈ e :: e' :: es ∧ lang (erase e0) w).
    rewrite IH. split.
    + intros [H|(e0 & Hin & H)]; [exists e; split; [left|done]|].
      exists e0. split; [by right|done].
    + intros (e0 & [->|Hin]%elem_of_cons & H); [by left|right; eauto].
Qed.

Lemma elem_of_symbols_between a si sj x :
  x ∈ symbols_between a si sj ↔ (si, x, sj) ∈ triples a.
Proof.
  unfold symbols_between. rewrite list_elem_of_omap. split.
  - intros ([[s y] d] & Hin & H). case_bool_decide as Hc; [|done].
    destruct Hc as [-> ->]. by simplify_eq.
  - intros Hin. exists (si, x, sj). split; [done|].
    by rewrite bool_decide_true.
Qed.

Lemma lang_base a i j w :
  i < length (states a) → j < length (states a) →
  lang (erase (base_expr a i j)) w ↔ path a 0 i j w.
Proof.
  intros Hi Hj. rewrite path_0. unfold base_expr, arc.
  destruct (lookup_lt_is_Some_2 _ _ Hi) as [si Hsi].
  destruct (lookup_lt_is_Some_2 _ _ Hj) as [sj Hsj].
  rewrite Hsi, Hsj, lang_alts. split.
  - intros (e & [Hin|Hin]%elem_of_app & He).
    + apply list_elem_of_fmap in Hin as (x & -> & Hx%elem_of_symbols_between).
      right. exists x. split; [done|]. by exists si, sj.
    + case_bool_decide; [|by apply elem_of_nil in Hin].
      apply list_elem_of_singleton in Hin as ->. by left.
  - intros [[-> ->]|(x & -> & si' & sj' & ? & ? & Ht)].
    + exists XEps. split; [|done]. rewrite bool_decide_true by done.
      set_solver.
    + simplify_eq. exists (XSym x). split; [|done].
      apply elem_of_app. left. apply list_elem_of_fmap. exists x.
      split; [done|]. by apply elem_of_symbols_between.
Qed.

(** The cell [(i, j)] after [k] steps denotes the words along the paths
    from state [i] to state [j] through the states below [k]. *)
Lemma lang_cell a k i j w :
  k ≤ length (states a) → i < length (states a) → j < length (states a) →
  lang (erase (cell_expr a k i j)) w ↔ path a k i j w.
Proof.
  revert i j w. induction k as [|k IH]; intros i j w Hk Hi Hj.
  { by apply lang_base. }
  rewrite path_S. simpl. split.
  - intros [(u & v & -> & Hu & v1 & v2 & -> & Hv1 & Hv2)|H].
    + right. exists u, v1, v2. split; [done|].
      split; [apply IH; [lia..|done]|]. split; [|apply IH; [lia..|done]].
      eapply star_ext; [|done]. intros u'. symmetry. apply IH; lia.
    + left. apply IH; [lia..|done].
  - intros [H|(u & v & t & -> & Hu & Hv & Ht)].
    + right. apply IH; [lia..|done].
    + left. exists u, (v ++ t). split; [done|].
      split; [apply IH; [lia..|done]|]. exists v, t. split; [done|].
      split; [|apply IH; [lia..|done]].
      eapply star_ext; [|done]. intros u'. apply IH; lia.
Qed.

End kleene_paths.

(** ** The construction: the text of the expressions *)

Section kleene_text.
Import Converter Spec Regex Kleene.

Lemma string_app_nil_l (s : string) : "" +:+ s = s.
Proof. reflexivity. Qed.

Lemma render_par e : render (XPar e) = "(" +:+ render e +:+ ")".
Proof. reflexivity. Qed.

Lemma render_star e : render (XStar e) = render e +:+ "*".
Proof. reflexivity. Qed.

Lemma render_cat e1 e2 : render (XCat e1 e2) = render e1 +:+ render e2.
Proof. reflexivity. Qed.

Lemma render_alt e1 e2 :
  render (XAlt e1 e2) = render e1 +:+ "|" +:+ render e2.
Proof. reflexivity. Qed.

Lemma render_alts es :
  render (alts es) =
    match es with [] => empty_set | _ => String.concat "|" (render <$> es) end.
Proof.
  induction es as [|e [|e' es] IH]; [done..|].
  change (render e +:+ "|" +:+ render (alts (e' :: es)) =
          render e +:+ "|" +:+ String.concat "|" (render <$> e' :: es)).
  by rewrite IH.
Qed.

Lemma render_base a i j : render (base_expr a i j) = base_cell a i j.
Proof.
  unfold base_expr, base_cell, alternatives.
  destruct (states a !! i) as [si|]; [|done].
  destruct (states a !! j) as [sj|]; [|done].
  rewrite render_alts, fmap_app, <- list_fmap_compose.
  assert (render <$> (if bool_decide (i = j) then [XEps] else [])
          = if bool_decide (i = j) then [epsilon] else []) as ->
    by by case_bool_decide.
  change (render ∘ XSym) with (@id string). rewrite list_fmap_id.
  destruct (symbols_between a si sj); [|done]. simpl. by case_bool_decide.
Qed.

Lemma render_cell a base k i j :
  NoDup (states a) → well_formed a → buildInitialRegExp a = Ok base →
  k ≤ length (states a) → i < length (states a) → j < length (states a) →
  cell_text (foldl (fresh_step (length (states a))) base (range k)) i j
  = render (cell_expr a k i j).
Proof.
  intros Hnd Hwf Hbase. revert i j.
  induction k as [|k IH]; intros i j Hk Hi Hj.
  - destruct (buildInitialRegExp_spec a Hnd Hwf) as (m & Hm & _ & Hcells).
    assert (m = base) as -> by congruence. simpl.
    rewrite (cell_text_cell_at _ _ _ _ (Hcells i j Hi Hj)). simpl.
    by rewrite render_base.
  - rewrite range_S, foldl_app.
    change (foldl ?f ?b [?x]) with (f b x).
    rewrite (cell_text_cell_at _ _ _ _
               (cell_at_fresh_step _ _ k i j Hi Hj)).
    change (format (Str ?s)) with s. unfold recurrence.
    rewrite !IH by lia.
    change (cell_expr a (S k) i j) with (step_expr (cell_expr a k) k i j).
    unfold step_expr.
    rewrite render_alt, !render_cat, render_star, !render_par.
    repeat (rewrite string_app_assoc || rewrite string_app_cons
            || rewrite string_app_nil_l).
    reflexivity.
Qed.

Lemma omap_ext_in {A B} (f g : A → option B) (l : list A) :
  (∀ x, x ∈ l → f x = g x) → omap f l = omap g l.
Proof.
  intros H. apply list_omap_ext, Forall2_same_length_lookup.
  split; [done|]. intros i x y Hx Hy. simplify_eq.
  apply H. by eapply list_elem_of_lookup_2.
Qed.

Lemma render_answer a m row :
  (∀ i, i < length (states a) →
     cell_text m row i = render (cell_expr a (length (states a)) row i)) →
  alternation_of_row a m row = render (answer_expr a row).
Proof.
  intros Hcells. unfold alternation_of_row, answer_expr.
  rewrite render_alts.
  assert (row_parts a m row (seq 0 (length (states a)))
          = render <$> omap (λ i, state ← states a !! i;
               if Py.mem state (accepting_states a)
               then Some (XPar (cell_expr a (length (states a)) row i))
               else None) (seq 0 (length (states a)))) as ->.
  { rewrite list_fmap_omap. unfold row_parts. apply omap_ext_in.
    intros i Hi%elem_of_seq.
    destruct (states a !! i) as [state|]; [|done]. simpl.
    destruct (Py.mem state (accepting_states a)); [|done]. simpl.
    by rewrite Hcells by lia. }
  by destruct (omap _ _).
Qed.

End kleene_text.

(** ** Reading the text of a tree back *)

Section kleene_reader.
Import Converter Spec Regex Kleene Format.

Lemma prefix_nil_l s : String.prefix "" s = true.
Proof. by destruct s. Qed.

Lemma prefix_cons a p s :
  String.prefix (String a p) (String a s) = String.prefix p s.
Proof. simpl. by destruct (ascii_dec a a). Qed.

Lemma strip_app p s : strip p (p +:+ s) = Some s.
Proof.
  induction p as [|a p IH]; [done|].
  rewrite string_app_cons. simpl. by rewrite Ascii.eqb_refl.
Qed.

(** A text that begins [x +:+ String c r] begins with [p] only if [x]
    does, or if [p] goes beyond [x] and holds [c]. *)
Lemma strip_app_cases p x c r r0 :
  strip p (x +:+ String c r) = Some r0 →
  String.prefix p x = true ∨ ∃ p', p = x +:+ String c p'.
Proof.
  revert x. induction p as [|a p IH]; intros x H.
  { left. apply prefix_nil_l. }
  destruct x as [|b x].
  - right. simpl in H. destruct (Ascii.eqb_spec a c); [|done]. subst.
    by exists p.
  - rewrite string_app_cons in H. simpl in H.
    destruct (Ascii.eqb_spec a b); [|done]. subst.
    destruct (IH x H) as [Hp|[p' ->]].
    + left. by rewrite prefix_cons.
    + right. by exists p'.
Qed.

Lemma free_of_app c x s : free_of c (x +:+ String c s) → False.
Proof.
  induction x as [|a x IH].
  - by intros [? _]%free_of_cons.
  - rewrite string_app_cons. by intros [_ ?]%free_of_cons.
Qed.

Lemma first_token_skip text t table s :
  text = "" ∨ strip text s = None →
  first_token ((text, t) :: table) s = first_token table s.
Proof.
  intros [->| H]; [done|]. destruct text as [|a p]; [done|].
  change (first_token ((String a p, t) :: table) s)
    with (match strip (String a p) s with
          | Some rest => Some (t, rest)
          | None => first_token table s
          end).
  by rewrite H.
Qed.

Lemma first_token_hit text t table s rest :
  text ≠ "" → strip text s = Some rest →
  first_token ((text, t) :: table) s = Some (t, rest).
Proof.
  intros Hne H. destruct text as [|a p]; [done|].
  change (first_token ((String a p, t) :: table) s)
    with (match strip (String a p) s with
          | Some rest => Some (t, rest)
          | None => first_token table s
          end).
  by rewrite H.
Qed.

(** A symbol of a readable alphabet followed by [|] or [)] is read as that
    symbol. *)
Lemma first_token_sym alphabet x c r :
  readable alphabet → x ∈ alphabet → delimiter c →
  first_token (fixed_tokens ++ ((λ a, (a, TSym a)) <$> alphabet))
              (x +:+ String c r)
  = Some (TSym x, String c r).
Proof.
  intros Hread Hx Hc.
  pose proof Hread as Hall. unfold readable in Hall.
  rewrite Forall_forall in Hall.
  destruct (Hall x Hx) as (Hne & Hbar & Hpar & Hfixed & Hpre).
  assert (∀ text, text ∈ fixed_tokens.*1 →
            strip text (x +:+ String c r) = None) as Hfix.
  { intros text Hin.
    destruct (strip text (x +:+ String c r)) as [r0|] eqn:E; [|done].
    exfalso. apply strip_app_cases in E as [E|[p' E]].
    - rewrite Forall_forall in Hfixed.
      apply list_elem_of_fmap in Hin as ([t' tk] & -> & Hin).
      specialize (Hfixed _ Hin). simpl in *. congruence.
    - assert (2 ≤ String.length text) as Hlen.
      { rewrite E, string_length_app. destruct x; [done|]. simpl. lia. }
      assert (¬ free_of c text) as Hocc.
      { rewrite E. intros H. by eapply free_of_app. }
      simpl in Hin.
      repeat (apply elem_of_cons in Hin as [->|Hin]);
        [..|by apply elem_of_nil in Hin];
        try (simpl in Hlen; lia); destruct Hc as [->| ->]; by apply Hocc. }
  unfold fixed_tokens in *. cbn [app].
  rewrite !first_token_skip by (right; apply Hfix; set_solver).
  assert (∀ l, (∀ y, y ∈ l → y ∈ alphabet) → x ∈ l →
            first_token ((λ a, (a, TSym a)) <$> l) (x +:+ String c r)
            = Some (TSym x, String c r)) as Hl.
  { induction l as [|y l IH]; intros Hsub Hin; [by apply elem_of_nil in Hin|].
    rewrite fmap_cons. destruct (decide (y = x)) as [->|Hyx].
    { apply first_token_hit; [done|apply strip_app]. }
    rewrite first_token_skip.
    - apply IH; [intros z Hz; apply Hsub; by right|].
      by apply elem_of_cons in Hin as [->|Hin].
    - right. destruct (strip y (x +:+ String c r)) as [r0|] eqn:E; [|done].
      exfalso. destruct (Hall y) as (_ & Hybar & Hypar & _); [apply Hsub; left|].
      apply strip_app_cases in E as [E|[p' ->]].
      + rewrite Forall_forall in Hpre. apply Hyx, Hpre; [apply Hsub; left|done].
      + destruct Hc as [->| ->]; by eapply free_of_app. }
  by apply Hl.
Qed.

Lemma tokenize_fuel_token fuel alphabet s t rest ts :
  s ≠ "" →
  first_token (fixed_tokens ++ ((λ a, (a, TSym a)) <$> alphabet)) s
    = Some (t, rest) →
  tokenize_fuel fuel alphabet rest = Some ts →
  tokenize_fuel (S fuel) alphabet s = Some (t :: ts).
Proof.
  intros Hne Hfirst Hrest. destruct s as [|a s]; [done|].
  change (tokenize_fuel (S fuel) alphabet (String a s))
    with ('(t, rest) ← first_token
                         (fixed_tokens ++ ((λ a, (a, TSym a)) <$> alphabet))
                         (String a s);
          ts ← tokenize_fuel fuel alphabet rest; Some (t :: ts)).
  rewrite Hfirst. simpl. by rewrite Hrest.
Qed.

Lemma tokenize_fuel_mono fuel fuel' alphabet s ts :
  tokenize_fuel fuel alphabet s = Some ts → fuel ≤ fuel' →
  tokenize_fuel fuel' alphabet s = Some ts.
Proof.
  revert fuel' s ts. induction fuel as [|fuel IH]; intros fuel' s ts H Hle.
  { destruct s; [|done]. by destruct fuel'. }
  destruct s as [|a s]; [by destruct fuel'|].
  destruct fuel' as [|fuel']; [lia|].
  change (tokenize_fuel (S ?f) alphabet (String a s))
    with ('(t, rest) ← first_token
                         (fixed_tokens ++ ((λ a, (a, TSym a)) <$> alphabet))
                         (String a s);
          ts ← tokenize_fuel f alphabet rest; Some (t :: ts)) in *.
  destruct (first_token _ _) as [[t rest]|]; simpl in *; [|done].
  destruct (tokenize_fuel fuel alphabet rest) as [ts'|] eqn:E; [|done].
  rewrite (IH fuel' rest ts' E) by lia. done.
Qed.

(** The text of a tree, followed by a text that is read as [ts], is read
    as the tokens of the tree and then [ts]. *)
Lemma tokenize_render alphabet e :
  readable alphabet → spaced alphabet e = true →
  ∀ fuel rest ts,
    (ends_sym e = true → ∃ c r, rest = String c r ∧ delimiter c) →
    tokenize_fuel fuel alphabet rest = Some ts →
    tokenize_fuel (length (tokens e) + fuel) alphabet (render e +:+ rest)
    = Some (tokens e ++ ts).
Proof.
  intros Hread.
  induction e as [| |x|e IH|e IH|e1 IH1 e2 IH2|e1 IH1 e2 IH2];
    intros Hsp fuel rest ts Hfol Hrest.
  - change (tokenize_fuel (S fuel) alphabet (String "{" (String "}" rest))
            = Some (TEmpty :: ts)).
    eapply tokenize_fuel_token; [done|reflexivity|done].
  - change (tokenize_fuel (S fuel) alphabet
              (String "e" (String "p" (String "s" rest)))
            = Some (TEps :: ts)).
    eapply tokenize_fuel_token; [done|reflexivity|done].
  - change (tokenize_fuel (S fuel) alphabet (x +:+ rest) = Some (TSym x :: ts)).
    destruct Hfol as (c & r & -> & Hc); [done|].
    simpl in Hsp. apply bool_decide_eq_true in Hsp.
    apply tokenize_fuel_token with (String c r); [| |done].
    + unfold readable in Hread. rewrite Forall_forall in Hread.
      destruct (Hread x Hsp) as [Hne _]. simpl. by destruct x.
    + by apply first_token_sym.
  - simpl in Hsp. rewrite render_par.
    repeat (rewrite string_app_assoc || rewrite string_app_cons
            || rewrite string_app_nil_l).
    change (tokens (XPar e)) with (TLpar :: tokens e ++ [TRpar]).
    rewrite <- app_comm_cons, <- app_assoc.
    change (length (TLpar :: ?l)) with (S (length l)).
    rewrite length_app. change (length [TRpar]) with 1.
    change (S (length (tokens e) + 1) + fuel)
      with (S (length (tokens e) + 1 + fuel)).
    eapply tokenize_fuel_token; [done|reflexivity|].
    replace (length (tokens e) + 1 + fuel)
      with (length (tokens e) + S fuel) by lia.
    apply IH; [done| |].
    + intros _. exists ")"%char, rest. split; [done|by right].
    + eapply tokenize_fuel_token; [done|reflexivity|done].
  - simpl in Hsp. apply andb_true_iff in Hsp as [Hend Hsp].
    apply negb_true_iff in Hend.
    rewrite render_star, string_app_assoc.
    change (tokens (XStar e)) with (tokens e ++ [TStar]).
    rewrite <- app_assoc, length_app. change (length [TStar]) with 1.
    replace (length (tokens e) + 1 + fuel)
      with (length (tokens e) + S fuel) by lia.
    apply IH; [done|by rewrite Hend|].
    eapply tokenize_fuel_token; [done|reflexivity|done].
  - simpl in Hsp. apply andb_true_iff in Hsp as [Hsp Hsp2].
    apply andb_true_iff in Hsp as [Hend Hsp1].
    apply negb_true_iff in Hend.
    rewrite render_cat, string_app_assoc.
    change (tokens (XCat e1 e2)) with (tokens e1 ++ tokens e2).
    rewrite <- app_assoc, length_app, <- Nat.add_assoc.
    apply IH1; [done|by rewrite Hend|].
    by apply IH2.
  - simpl in Hsp. apply andb_true_iff in Hsp as [Hsp1 Hsp2].
    rewrite render_alt, string_app_assoc.
    change (tokens (XAlt e1 e2)) with (tokens e1 ++ TBar :: tokens e2).
    rewrite <- app_assoc, length_app, <- Nat.add_assoc.
    apply IH1; [done| |].
    + intros _. exists "|"%char, (render e2 +:+ rest). split; [done|by left].
    + rewrite <- app_comm_cons.
      change (length (TBar :: ?l) + fuel) with (S (length l + fuel)).
      eapply tokenize_fuel_token; [done|reflexivity|]. by apply IH2.
Qed.

Lemma tokens_length alphabet e :
  readable alphabet → spaced alphabet e = true →
  length (tokens e) ≤ String.length (render e).
Proof.
  intros Hread.
  induction e as [| |x|e IH|e IH|e1 IH1 e2 IH2|e1 IH1 e2 IH2]; simpl;
    intros Hsp.
  - lia.
  - lia.
  - apply bool_decide_eq_true in Hsp.
    unfold readable in Hread. rewrite Forall_forall in Hread.
    destruct (Hread x Hsp) as [Hne _]. destruct x; [done|]. simpl. lia.
  - rewrite length_app, !string_length_app. simpl. specialize (IH Hsp). lia.
  - apply andb_true_iff in Hsp as [_ Hsp].
    rewrite length_app, !string_length_app. simpl. specialize (IH Hsp). lia.
  - apply andb_true_iff in Hsp as [Hsp Hsp2].
    apply andb_true_iff in Hsp as [_ Hsp1].
    rewrite length_app, !string_length_app.
    specialize (IH1 Hsp1). specialize (IH2 Hsp2). lia.
  - apply andb_true_iff in Hsp as [Hsp1 Hsp2].
    rewrite length_app, !string_length_app. simpl.
    specialize (IH1 Hsp1). specialize (IH2 Hsp2). lia.
Qed.

Lemma tokenize_tree alphabet e :
  readable alphabet → spaced alphabet e = true → ends_sym e = false →
  tokenize alphabet (render e) = Some (tokens e).
Proof.
  intros Hread Hsp Hend. unfold tokenize.
  apply tokenize_fuel_mono with (length (tokens e) + 0);
    [|pose proof (tokens_length alphabet e Hread Hsp); lia].
  rewrite <- (string_app_nil_r (render e)) at 1.
  rewrite <- (app_nil_r (tokens e)) at 2.
  apply tokenize_render; [done..|by rewrite Hend|done].
Qed.

Lemma parse_alt_S f ts :
  parse_alt (S f) ts =
    '(r1, ts1) ← parse_cat f ts;
    match ts1 with
    | TBar :: ts2 => '(r2, ts3) ← parse_alt f ts2; Some (Alt r1 r2, ts3)
    | _ => Some (r1, ts1)
    end.
Proof. reflexivity. Qed.

Lemma parse_cat_S f ts :
  parse_cat (S f) ts =
    '(r1, ts1) ← parse_factor f ts;
    if starts_factor ts1
    then '(r2, ts2) ← parse_cat f ts1; Some (Cat r1 r2, ts2)
    else Some (r1, ts1).
Proof. reflexivity. Qed.

Lemma parse_factor_S f ts :
  parse_factor (S f) ts =
    match ts with
    | TEps :: ts1 => Some (stars Eps ts1)
    | TEmpty :: ts1 => Some (stars Empty ts1)
    | TSym a :: ts1 => Some (stars (Sym a) ts1)
    | TLpar :: ts1 =>
        match parse_alt f ts1 with
        | Some (r, TRpar :: ts2) => Some (stars r ts2)
        | _ => None
        end
    | _ => None
    end.
Proof. reflexivity. Qed.

Lemma stars_separates r ts :
  separates ts = true → stars r ts = (r, ts) ∧ starts_factor ts = false.
Proof. by destruct ts as [|[] ts]. Qed.

Lemma closes_separates ts : closes ts = true → separates ts = true.
Proof. by destruct ts as [|[] ts]. Qed.

Lemma tokens_head e :
  ∀ level ts, shaped level e = true →
    starts_factor (tokens e ++ ts) = true ∧
    ∀ r, stars r (tokens e ++ ts) = (r, tokens e ++ ts).
Proof.
  induction e as [| |x|e IH|e IH|e1 IH1 e2 IH2|e1 IH1 e2 IH2];
    intros level ts Hsh; simpl in Hsh; try done.
  - simpl. rewrite <- app_assoc. by eapply IH.
  - apply andb_true_iff in Hsh as [Hsh _].
    apply andb_true_iff in Hsh as [_ Hsh].
    simpl. rewrite <- app_assoc. by eapply IH1.
  - apply andb_true_iff in Hsh as [Hsh _].
    apply andb_true_iff in Hsh as [_ Hsh].
    simpl. rewrite <- app_assoc. by eapply IH1.
Qed.

Lemma need_ge_3 e : 3 ≤ need e.
Proof. induction e; simpl; lia. Qed.

(** What reads as a starred atom reads as a concatenation, ... *)
Lemma parse_cat_factor e f ts :
  (∀ f ts, need e ≤ f + 2 →
     parse_factor f (tokens e ++ ts) = Some (stars (erase e) ts)) →
  need e ≤ f + 1 → separates ts = true →
  parse_cat f (tokens e ++ ts) = Some (erase e, ts).
Proof.
  intros HF Hf Hts. pose proof (need_ge_3 e).
  destruct f as [|f]; [lia|]. rewrite parse_cat_S, HF by lia.
  destruct (stars_separates (erase e) ts Hts) as [-> Hsf]. simpl.
  by rewrite Hsf.
Qed.

(** ... and what reads as a concatenation reads as an alternation. *)
Lemma parse_alt_cat e f ts :
  (∀ f ts, need e ≤ f + 1 → separates ts = true →
     parse_cat f (tokens e ++ ts) = Some (erase e, ts)) →
  need e ≤ f → closes ts = true →
  parse_alt f (tokens e ++ ts) = Some (erase e, ts).
Proof.
  intros HC Hf Hts. pose proof (need_ge_3 e).
  destruct f as [|f]; [lia|].
  rewrite parse_alt_S, HC by (lia || by apply closes_separates). simpl.
  by destruct ts as [|[] ts].
Qed.

(** The reader gives back the tree, read at the level of its shape. *)
Lemma parse_tree e :
  (shaped 2 e = true → ∀ f ts, need e ≤ f + 2 →
     parse_factor f (tokens e ++ ts) = Some (stars (erase e) ts)) ∧
  (shaped 1 e = true → ∀ f ts, need e ≤ f + 1 → separates ts = true →
     parse_cat f (tokens e ++ ts) = Some (erase e, ts)) ∧
  (shaped 0 e = true → ∀ f ts, need e ≤ f → closes ts = true →
     parse_alt f (tokens e ++ ts) = Some (erase e, ts)).
Proof.
  assert (∀ e, (∀ f ts, need e ≤ f + 2 →
             parse_factor f (tokens e ++ ts) = Some (stars (erase e) ts)) →
    (shaped 2 e = true → ∀ f ts, need e ≤ f + 2 →
       parse_factor f (tokens e ++ ts) = Some (stars (erase e) ts)) ∧
    (shaped 1 e = true → ∀ f ts, need e ≤ f + 1 → separates ts = true →
       parse_cat f (tokens e ++ ts) = Some (erase e, ts)) ∧
    (shaped 0 e = true → ∀ f ts, need e ≤ f → closes ts = true →
       parse_alt f (tokens e ++ ts) = Some (erase e, ts))) as Hatom.
  { intros e' HF. split; [done|].
    assert (∀ f ts, need e' ≤ f + 1 → separates ts = true →
              parse_cat f (tokens e' ++ ts) = Some (erase e', ts)) as HC.
    { intros f ts. by apply parse_cat_factor. }
    split; [done|]. intros _ f ts. by apply parse_alt_cat. }
  induction e as [| |x|e IH|e IH|e1 IH1 e2 IH2|e1 IH1 e2 IH2].
  - apply Hatom. intros [|f] ts Hf; [simpl in Hf; lia|done].
  - apply Hatom. intros [|f] ts Hf; [simpl in Hf; lia|done].
  - apply Hatom. intros [|f] ts Hf; [simpl in Hf; lia|done].
  - destruct IH as (_ & _ & IHA).
    assert (shaped 0 e = true →
            ∀ f ts, need (XPar e) ≤ f + 2 →
              parse_factor f (tokens (XPar e) ++ ts)
              = Some (stars (erase (XPar e)) ts)) as HF.
    { intros Hsh [|f] ts Hf; [simpl in Hf; lia|].
      change (tokens (XPar e) ++ ts) with (TLpar :: (tokens e ++ [TRpar]) ++ ts).
      rewrite <- app_assoc, parse_factor_S.
      rewrite IHA; [done..|simpl in Hf; lia|done]. }
    split; [exact HF|].
    split; intros Hsh; by apply (Hatom (XPar e) (HF Hsh)).
  - destruct IH as (IHF & _ & _).
    assert (shaped 2 e = true →
            ∀ f ts, need (XStar e) ≤ f + 2 →
              parse_factor f (tokens (XStar e) ++ ts)
              = Some (stars (erase (XStar e)) ts)) as HF.
    { intros Hsh f ts Hf.
      change (tokens (XStar e) ++ ts) with ((tokens e ++ [TStar]) ++ ts).
      rewrite <- app_assoc. by rewrite IHF. }
    split; [exact HF|].
    split; intros Hsh; by apply (Hatom (XStar e) (HF Hsh)).
  - destruct IH1 as (IHF1 & _ & _), IH2 as (_ & IHC2 & _).
    assert (shaped 2 e1 = true → shaped 1 e2 = true →
            ∀ f ts, need (XCat e1 e2) ≤ f + 1 → separates ts = true →
              parse_cat f (tokens (XCat e1 e2) ++ ts)
              = Some (erase (XCat e1 e2), ts)) as HC.
    { intros Hsh1 Hsh2 [|f] ts Hf Hts.
      { pose proof (need_ge_3 e1). simpl in Hf. lia. }
      simpl in Hf.
      change (tokens (XCat e1 e2) ++ ts) with ((tokens e1 ++ tokens e2) ++ ts).
      rewrite <- app_assoc, parse_cat_S, IHF1 by (done || lia).
      destruct (tokens_head e2 1 ts Hsh2) as [Hsf Hst].
      rewrite Hst. simpl. rewrite Hsf.
      by rewrite IHC2 by (done || lia). }
    split; [done|]. simpl.
    split; intros [Hsh1 Hsh2]%andb_true_iff.
    + by apply HC.
    + intros f ts. apply (parse_alt_cat (XCat e1 e2)). by apply HC.
  - destruct IH1 as (_ & IHC1 & _), IH2 as (_ & _ & IHA2).
    split; [done|]. split; [done|]. simpl.
    intros [Hsh1 Hsh2]%andb_true_iff [|f] ts Hf Hts.
    { pose proof (need_ge_3 e1). lia. }
    rewrite <- app_assoc, parse_alt_S, IHC1 by (done || lia). simpl.
    by rewrite IHA2 by (done || lia).
Qed.

Lemma need_le_tokens e : need e ≤ 3 * length (tokens e).
Proof.
  assert (∀ e, 1 ≤ length (tokens e)) as Hpos.
  { induction e0; simpl; rewrite ?length_app; simpl; lia. }
  induction e as [| |x|e IH|e IH|e1 IH1 e2 IH2|e1 IH1 e2 IH2]; simpl;
    rewrite ?length_app; simpl; try lia.
  pose proof (Hpos e1). lia.
Qed.

(** The text of a tree is read by [parse] as the tree without its
    parentheses. *)
Lemma parse_render alphabet e :
  readable alphabet → spaced alphabet e = true → ends_sym e = false →
  shaped 0 e = true →
  parse alphabet (render e) = Some (erase e).
Proof.
  intros Hread Hsp Hend Hsh.
  destruct (parse_tree e) as (_ & _ & HA).
  specialize (HA Hsh (3 * length (tokens e) + 3) []).
  rewrite app_nil_r in HA. unfold parse.
  rewrite tokenize_tree by done.
  change (match parse_alt (3 * length (tokens e) + 3) (tokens e) with
          | Some (r, []) => Some r
          | _ => None
          end = Some (erase e)).
  rewrite HA; [done| |done].
  pose proof (need_le_tokens e). lia.
Qed.

End kleene_reader.

(** ** The construction is Kleene's *)

Section kleene_correct.
Import Converter Spec Regex Kleene Format.

Lemma shaped_alts es :
  Forall (λ e, ∀ level, shaped level e = true) es → shaped 0 (alts es) = true.
Proof.
  induction es as [|e [|e' es] IH]; intros H; [done|..].
  - apply Forall_cons in H as [H _]. apply H.
  - apply Forall_cons in H as [He H].
    change (bool_decide (0 = 0) && shaped 1 e && shaped 0 (alts (e' :: es))
            = true).
    by rewrite He, IH.
Qed.

Lemma spaced_alts alphabet es :
  Forall (λ e, spaced alphabet e = true) es →
  spaced alphabet (alts es) = true.
Proof.
  induction es as [|e [|e' es] IH]; intros H; [done|..].
  - by apply Forall_cons in H as [H _].
  - apply Forall_cons in H as [He H].
    change (spaced alphabet e && spaced alphabet (alts (e' :: es)) = true).
    by rewrite He, IH.
Qed.

Lemma ends_sym_alts es :
  Forall (λ e, ends_sym e = false) es → ends_sym (alts es) = false.
Proof.
  induction es as [|e [|e' es] IH]; intros H; [done|..].
  - by apply Forall_cons in H as [H _].
  - apply Forall_cons in H as [_ H]. by apply IH.
Qed.

Lemma shaped_cell a k i j : shaped 0 (cell_expr a k i j) = true.
Proof.
  revert i j. induction k as [|k IH]; intros i j.
  - simpl. unfold base_expr.
    destruct (states a !! i) as [si|]; [|done].
    destruct (states a !! j) as [sj|]; [|done].
    apply shaped_alts, Forall_app. split.
    + apply Forall_fmap, Forall_forall. by intros x _ level.
    + case_bool_decide; by repeat constructor.
  - simpl. by rewrite !IH.
Qed.

Lemma spaced_cell a k i j :
  (∀ s x d, (s, x, d) ∈ triples a → x ∈ alphabet a) →
  spaced (alphabet a) (cell_expr a k i j) = true.
Proof.
  intros Hsym. revert i j. induction k as [|k IH]; intros i j.
  - simpl. unfold base_expr.
    destruct (states a !! i) as [si|]; [|done].
    destruct (states a !! j) as [sj|]; [|done].
    apply spaced_alts, Forall_app. split.
    + apply Forall_fmap, Forall_forall.
      intros x Hx%elem_of_symbols_between. simpl.
      apply bool_decide_eq_true. by eapply Hsym.
    + case_bool_decide; by repeat constructor.
  - simpl. by rewrite !IH.
Qed.

Lemma triples_valid a s x d :
  validate a = Ok () → (s, x, d) ∈ triples a →
  s ∈ states a ∧ d ∈ states a ∧ x ∈ alphabet a.
Proof.
  rewrite validate_Ok. intros (_ & _ & _ & _ & H5 & _) Hin.
  apply validate_error5_Ok in H5. rewrite Forall_forall in H5.
  unfold triples in Hin. apply list_elem_of_omap in Hin as (t & Ht & Htr).
  destruct (H5 t Ht) as (s' & x' & d' & Hu & _ & Hs & Hd & Hx).
  unfold triple_of in Htr. rewrite Hu in Htr. by simplify_eq.
Qed.

Lemma validate_accepting a f :
  validate a = Ok () → f ∈ accepting_states a → f ∈ states a.
Proof.
  rewrite validate_Ok. intros (_ & _ & _ & H4 & _) Hf.
  unfold validate_error4 in H4. rewrite for_each_Ok, Forall_forall in H4.
  specialize (H4 f Hf). destruct (Py.mem f (states a)) eqn:E; [|done].
  by apply mem_true.
Qed.

Lemma validate_states_nonempty a :
  validate a = Ok () → 0 < length (states a).
Proof.
  rewrite validate_Ok. intros (_ & H2 & _). unfold validate_error2 in H2.
  case_bool_decide; [done|].
  destruct (Py.mem (initial_state a) (states a)) eqn:E; [|done].
  apply mem_true in E. destruct (states a); [by apply elem_of_nil in E|].
  simpl. lia.
Qed.

(** The words from a state to a state are the words of the paths between
    their indices. *)
Lemma run_path a i j si sj w :
  NoDup (states a) → validate a = Ok () →
  states a !! i = Some si → states a !! j = Some sj →
  sj ∈ foldl (step (triples a)) [si] w ↔ path a (length (states a)) i j w.
Proof.
  intros Hnd Hval Hi Hj. rewrite elem_of_run. split.
  - intros (s & ->%list_elem_of_singleton & Hw).
    eapply walk_path; [done| |done..].
    intros s x d Ht. by eapply triples_valid.
  - intros Hp. exists si. split; [set_solver|].
    destruct (path_walk _ _ _ _ _ si Hp Hi) as (sj' & Hj' & Hw).
    by simplify_eq.
Qed.

(** The matrix that the loop of [convert] ends with, and what the text of
    its cells is and reads as. *)
Lemma final_matrix a :
  NoDup (states a) → validate a = Ok () → readable (alphabet a) →
  ∃ base final,
    buildInitialRegExp a = Ok base ∧
    kleene_steps (length (states a)) (range (length (states a))) base
      = Ok final ∧
    construct a = Ok (alternation_of_row a final 0) ∧
    ∀ i j si sj, states a !! i = Some si → states a !! j = Some sj →
      cell_text final i j = render (cell_expr a (length (states a)) i j) ∧
      parse (alphabet a) (cell_text final i j)
        = Some (erase (cell_expr a (length (states a)) i j)) ∧
      ∀ w, lang (erase (cell_expr a (length (states a)) i j)) w ↔
           sj ∈ foldl (step (triples a)) [si] w.
Proof.
  intros Hnd Hval Hread.
  pose proof (validate_well_formed a Hval) as Hwf.
  destruct (construct_spec a Hwf) as (base & final & Hbase & Hfinal & _ & Hc).
  destruct (buildInitialRegExp_total a Hwf) as (base' & Hbase' & Hsq & _).
  assert (base' = base) as -> by congruence.
  destruct (kleene_steps_foldl _ base (length (states a)) Hsq) as [Hrun _];
    [done|].
  assert (final = foldl (fresh_step (length (states a))) base
                        (range (length (states a)))) as Hf by congruence.
  exists base, final. split; [done|]. split; [done|]. split; [done|].
  intros i j si sj Hi Hj.
  apply lookup_lt_Some in Hi as Hilt. apply lookup_lt_Some in Hj as Hjlt.
  assert (cell_text final i j
          = render (cell_expr a (length (states a)) i j)) as Htext.
  { rewrite Hf. by apply render_cell. }
  split; [done|]. split.
  - rewrite Htext. apply parse_render; [done| | |apply shaped_cell].
    + apply spaced_cell. intros s x d Ht. by eapply triples_valid.
    + by destruct (length (states a)); [lia|].
  - intros w. rewrite lang_cell by lia. symmetry. by apply run_path.
Qed.

(** The expression returned, read back. *)
Lemma answer_reads a :
  NoDup (states a) → validate a = Ok () → readable (alphabet a) →
  ∃ s0 answer,
    states a !! 0 = Some s0 ∧ construct a = Ok answer ∧
    parse (alphabet a) answer = Some (erase (answer_expr a 0)) ∧
    ∀ w, lang (erase (answer_expr a 0)) w ↔ accepts_from a s0 w = true.
Proof.
  intros Hnd Hval Hread.
  destruct (final_matrix a Hnd Hval Hread)
    as (base & final & _ & _ & Hc & Hcells).
  pose proof (validate_states_nonempty a Hval) as Hn.
  destruct (lookup_lt_is_Some_2 _ _ Hn) as [s0 Hs0].
  assert (alternation_of_row a final 0 = render (answer_expr a 0)) as Htext.
  { apply render_answer. intros i Hi.
    destruct (lookup_lt_is_Some_2 _ _ Hi) as [si Hsi].
    by destruct (Hcells 0 i s0 si Hs0 Hsi) as [-> _]. }
  exists s0, (render (answer_expr a 0)).
  split; [done|]. split; [by rewrite Hc, Htext|].
  assert (∀ e, e ∈ omap (λ i, state ← states a !! i;
                 if Py.mem state (accepting_states a)
                 then Some (XPar (cell_expr a (length (states a)) 0 i))
                 else None) (seq 0 (length (states a))) ↔
               ∃ i f, states a !! i = Some f ∧ f ∈ accepting_states a ∧
                 e = XPar (cell_expr a (length (states a)) 0 i)) as Hparts.
  { intros e. rewrite list_elem_of_omap. split.
    - intros (i & _ & He). destruct (states a !! i) as [f|] eqn:Hf; [|done].
      simpl in He. destruct (Py.mem f (accepting_states a)) eqn:Hm; [|done].
      apply mem_true in Hm. exists i, f. by simplify_eq.
    - intros (i & f & Hf & Hacc & ->). exists i. split.
      + apply elem_of_seq. apply lookup_lt_Some in Hf. lia.
      + rewrite Hf. simpl. apply mem_true in Hacc. by rewrite Hacc. }
  split.
  - apply parse_render; [done|..]; unfold answer_expr.
    + apply spaced_alts, Forall_forall.
      intros e (i & f & _ & _ & ->)%Hparts. simpl.
      apply spaced_cell. intros s x d Ht. by eapply triples_valid.
    + apply ends_sym_alts, Forall_forall.
      by intros e (i & f & _ & _ & ->)%Hparts.
    + apply shaped_alts, Forall_forall.
      intros e (i & f & _ & _ & ->)%Hparts level. simpl. apply shaped_cell.
  - intros w. unfold answer_expr. rewrite lang_alts, accepts_from_spec.
    split.
    + intros (e & (i & f & Hf & Hacc & ->)%Hparts & He). simpl in He.
      destruct (Hcells 0 i s0 f Hs0 Hf) as (_ & _ & Hlang).
      apply Hlang, elem_of_run in He
        as (s & ->%list_elem_of_singleton & Hw).
      eauto.
    + intros (f & Hacc & Hw).
      destruct (list_elem_of_lookup_1 _ _ (validate_accepting a f Hval Hacc))
        as [i Hf].
      exists (XPar (cell_expr a (length (states a)) 0 i)). split.
      * apply Hparts. by exists i, f.
      * simpl. destruct (Hcells 0 i s0 f Hs0 Hf) as (_ & _ & Hlang).
        apply Hlang, elem_of_run. exists s0. split; [set_solver|done].
Qed.

(** X17: Kleene's theorem for the matrix of [convert].  For a validated
    automaton with distinct state names over a readable alphabet, the loop
    over the steps ends without an exception, and the cell [(i, j)] of the
    matrix it leaves reads as an expression whose language is exactly the
    words that lead from [states[i]] to [states[j]]. *)
Theorem final_matrix_cells_denote_the_words_between_states
    (a : automaton) (i j : nat) (si sj : string) :
  NoDup (states a) → validate a = Ok () → readable (alphabet a) →
  states a !! i = Some si → states a !! j = Some sj →
  ∃ base final r,
    buildInitialRegExp a = Ok base ∧
    kleene_steps (length (states a)) (range (length (states a))) base
      = Ok final ∧
    parse (alphabet a) (cell_text final i j) = Some r ∧
    ∀ w, lang r w ↔ sj ∈ foldl (step (triples a)) [si] w.
Proof.
  intros Hnd Hval Hread Hi Hj.
  destruct (final_matrix a Hnd Hval Hread)
    as (base & final & Hbase & Hfinal & _ & Hcells).
  destruct (Hcells i j si sj Hi Hj) as (_ & Hparse & Hlang).
  by exists base, final, (erase (cell_expr a (length (states a)) i j)).
Qed.

Lemma readable_a : readable ["a"].
Proof.
  unfold readable. constructor; [|constructor].
  repeat split; try done; by repeat constructor.
Qed.

Lemma final_matrix_cells_denote_the_words_between_states_witness :
  ∃ base final r,
    buildInitialRegExp Inputs.initial_last = Ok base ∧
    kleene_steps 2 (range 2) base = Ok final ∧
    parse ["a"] (cell_text final 1 0) = Some r ∧
    ∀ w, lang r w
         ↔ "q0" ∈ foldl (step (triples Inputs.initial_last)) ["q1"] w.
Proof.
  apply (final_matrix_cells_denote_the_words_between_states
           Inputs.initial_last 1 0 "q1" "q0").
  - apply (bool_decide_unpack _). vm_compute. exact I.
  - vm_compute. reflexivity.
  - apply readable_a.
  - reflexivity.
  - reflexivity.
Defined.

(** X18: what the program prints.  For an input file that passes
    extraction and validation, over a readable alphabet, the process prints
    one expression and exits with status 0, and the expression reads as the
    language the automaton accepts when started in the first state of the
    sorted order; this is the language of the automaton when its initial
    state is that state. *)
Theorem main_prints_the_language_accepted_from_the_first_state
    (file : list string) (a : automaton) :
  extract_and_validate file = Ok a → readable (alphabet a) →
  ∃ answer r,
    main file = mkOutcome [answer] 0 None ∧
    parse (alphabet a) answer = Some r ∧
    (∀ w, lang r w ↔ accepts_from a (states a !!! 0) w = true) ∧
    (states a !! 0 = Some (initial_state a) →
     ∀ w, lang r w ↔ accepts a w = true).
Proof.
  intros Hev Hread.
  assert (extract file = Ok a ∧ validate a = Ok ()) as [Hex Hval].
  { unfold extract_and_validate in Hev.
    destruct (extract file) as [a'|]; simpl in Hev; [|done].
    destruct (validate a') as [[]|] eqn:E; simpl in Hev; [|done].
    by simplify_eq. }
  destruct (extract_invariants file a Hex) as [Hnd _].
  destruct (answer_reads a Hnd Hval Hread)
    as (s0 & answer & Hs0 & Hc & Hparse & Hlang).
  exists answer, (erase (answer_expr a 0)).
  split; [|split; [done|split]].
  - unfold main, convert. by rewrite Hev, Hc.
  - by rewrite (list_lookup_total_correct _ _ _ Hs0).
  - intros Hinit w. rewrite Hlang.
    by assert (s0 = initial_state a) as -> by congruence.
Qed.

Lemma main_prints_the_language_accepted_from_the_first_state_witness :
  let a := Inputs.trivial "deterministic" in
  ∃ answer r,
    main Inputs.file_trivial = mkOutcome [answer] 0 None ∧
    parse (alphabet a) answer = Some r ∧
    (∀ w, lang r w ↔ accepts_from a (states a !!! 0) w = true) ∧
    (states a !! 0 = Some (initial_state a) →
     ∀ w, lang r w ↔ accepts a w = true).
Proof.
  intros a.
  apply (main_prints_the_language_accepted_from_the_first_state
           Inputs.file_trivial a).
  - vm_compute. reflexivity.
  - apply readable_a.
Defined.

End kleene_correct.
(** ** Transition tokens, and what the printed line tells *)

Section further_output.
Import Converter Spec Format.

Lemma free_of_nil c : free_of c "".
Proof. reflexivity. Qed.

(** [c.join(s.split(c))] is [s], and no field holds [c]. *)
Lemma split_inv c s :
  String.concat (String c "") (Py.split c s) = s ∧
  Forall (free_of c) (Py.split c s).
Proof.
  induction s as [|a s [IH1 IH2]]; [by repeat constructor|]. simpl.
  destruct (Ascii.eqb_spec a c) as [->|Hne].
  - split; [|constructor; [apply free_of_nil|done]].
    pose proof (split_nonempty c s).
    destruct (Py.split c s) as [|h t] eqn:E; [done|].
    change (String.concat (String c "") ("" :: h :: t))
      with (String c (String.concat (String c "") (h :: t))).
    by rewrite IH1.
  - pose proof (split_nonempty c s).
    destruct (Py.split c s) as [|h t] eqn:E; [done|].
    apply Forall_cons in IH2 as [Hh Ht]. split.
    + rewrite <- IH1. by destruct t.
    + constructor; [|done]. by apply free_of_cons.
Qed.

(** X19: a transition token is unpacked into [(s, x, d)] exactly when it
    is [s>x>d] with no [>] inside the three names; every other token makes
    the unpacking raise [ValueError]. *)
Theorem unpack_reads_source_symbol_destination (t s x d : string) :
  (unpack t = Ok (s, x, d) ↔
   t = s +:+ ">" +:+ x +:+ ">" +:+ d ∧
   free_of ">" s ∧ free_of ">" x ∧ free_of ">" d) ∧
  ((∀ s x d, unpack t ≠ Ok (s, x, d)) → unpack t = Raise ValueError).
Proof.
  split; [split|].
  - unfold unpack. intros H.
    destruct (split_inv ">" t) as [Hc Hf].
    destruct (Py.split ">" t) as [|s' [|x' [|d' [|]]]]; try done.
    simplify_eq. split; [done|].
    by repeat (apply Forall_cons in Hf as [? Hf]).
  - intros (-> & Hs & Hx & Hd). unfold unpack.
    rewrite !string_app_cons, !string_app_nil_l.
    by rewrite !split_app_sep, split_free by done.
  - unfold unpack. intros H.
    destruct (Py.split ">" t) as [|s' [|x' [|d' [|]]]]; try done.
    by destruct (H s' x' d').
Qed.





End further_output.
